(** * NDSS 2026 Personal Agenda: the logic core of [app.js]

    A shallow embedding of the conflict detector ([toMinutes], [overlaps],
    [findConflicts]) and of the starred-set synchronizer ([encodeStarred],
    [decodeStarred], [readHashStarred], [writeHash], [loadStarredFromLS],
    [saveStarredToLS], [toggleStar], [persist], the reconciliation step of
    [init], [resetAgenda]), together with the platform functions they call
    ([Number], [JSON.stringify], [JSON.parse], [btoa], [atob], the UTF-8
    idiom around [encodeURIComponent], [Set], [Array.prototype.sort]).

    JavaScript strings are sequences of UTF-16 code units; they are lists
    of integers here.  Numbers are the binary64 values of IEEE 754:
    [spec_float] of the standard library at precision 53, with its
    rounding to nearest, ties to even. *)

From Stdlib Require Import ZArith QArith Qpower List Bool Lia String Ascii.
From Stdlib Require Import Floats.SpecFloat.
From Stdlib Require Import Sorting.Sorted Sorting.Permutation.
Import ListNotations.
Local Open Scope Z_scope.

(** ** Strings *)

Definition jsstring := list Z.

(** A string literal of the source, as code units. *)
Definition js (s : string) : jsstring :=
  map (fun a => Z.of_N (N_of_ascii a)) (list_ascii_of_string s).

Definition code_unit (c : Z) : Prop := 0 <= c < 65536.

Fixpoint str_eqb (a b : jsstring) : bool :=
  match a, b with
  | [], [] => true
  | x :: a', y :: b' => (x =? y) && str_eqb a' b'
  | _, _ => false
  end.

(** Code-unit order, the order of [<] on strings and of the default
    comparator of [Array.prototype.sort]. *)
Fixpoint str_ltb (a b : jsstring) : bool :=
  match a, b with
  | _, [] => false
  | [], _ :: _ => true
  | x :: a', y :: b' => (x <? y) || ((x =? y) && str_ltb a' b')
  end.

Definition is_empty {A} (l : list A) : bool :=
  match l with [] => true | _ => false end.

(** [s.includes(c)] for a one-character needle. *)
Definition includes (s : jsstring) (c : Z) : bool := existsb (Z.eqb c) s.

(** [s.split(c)] for a one-character separator. *)
Fixpoint split (sep : Z) (s : jsstring) : list jsstring :=
  match s with
  | [] => [[]]
  | c :: r =>
      if c =? sep then [] :: split sep r
      else match split sep r with
           | f :: fs => (c :: f) :: fs
           | [] => [[c]]
           end
  end.

(** ** Numbers

    A Number is a binary64 value: a zero or an infinity with its sign,
    [NaN], or [m * 2^e] with a sign. *)

Definition jsnum := spec_float.

Definition prec : Z := 53.
Definition emax : Z := 1024.

Definition NaN : jsnum := S754_nan.
Definition Infinity (negative : bool) : jsnum := S754_infinity negative.

Definition isNaN (x : jsnum) : bool :=
  match x with S754_nan => true | _ => false end.

Definition isFinite (x : jsnum) : bool :=
  match x with S754_nan | S754_infinity _ => false | _ => true end.

(** [x * y], [x + y], [x - y] and [- x], rounded as IEEE 754 says. *)
Definition num_mul : jsnum -> jsnum -> jsnum := SFmul prec emax.
Definition num_add : jsnum -> jsnum -> jsnum := SFadd prec emax.
Definition num_sub : jsnum -> jsnum -> jsnum := SFsub prec emax.
Definition num_neg : jsnum -> jsnum := SFopp.

(** The exact value of a finite number. *)
Definition num_value (x : jsnum) : Q :=
  match x with
  | S754_finite s m e => inject_Z (cond_Zopp s (Zpos m)) * (2 # 1) ^ e
  | _ => 0
  end.

(** The comparison of two numbers by their values; none with [NaN], and
    the two zeros are equal. *)
Definition num_compare (x y : jsnum) : option comparison :=
  match x, y with
  | S754_nan, _ | _, S754_nan => None
  | S754_infinity a, S754_infinity b =>
      Some (if a then (if b then Eq else Lt) else (if b then Gt else Eq))
  | S754_infinity a, _ => Some (if a then Lt else Gt)
  | _, S754_infinity b => Some (if b then Gt else Lt)
  | _, _ => Some (num_value x ?= num_value y)%Q
  end.

(** [x === y] on numbers. *)
Definition num_eqb (x y : jsnum) : bool :=
  match num_compare x y with Some Eq => true | _ => false end.

(** [x < y] on numbers. *)
Definition num_ltb (x y : jsnum) : bool :=
  match num_compare x y with Some Lt => true | _ => false end.

(** [x <= y] on numbers. *)
Definition num_leb (x y : jsnum) : bool :=
  match num_compare x y with Some Lt | Some Eq => true | _ => false end.

(** The Number nearest to [m / d], ties to even, with the sign given;
    for [0 <= m] and [0 < d]. *)
Definition round_ratio (negative : bool) (m d : Z) : jsnum :=
  if m =? 0 then S754_zero negative
  else
    let '(q, e, l) := SFdiv_core_binary prec emax m 0 d 0 in
    binary_round_aux prec emax negative q e l.

(** The Number value of the decimal [m * 10^e], [0 <= m]. *)
Definition of_decimal (negative : bool) (m e : Z) : jsnum :=
  if 0 <=? e then round_ratio negative (m * 10 ^ e) 1
  else round_ratio negative m (10 ^ (- e)).

(** The Number value of an integer. *)
Definition of_Z (n : Z) : jsnum := round_ratio (n <? 0) (Z.abs n) 1.

(** The exponent of a finite number is not below that of the smallest
    one, as in every number that an operation returns. *)
Definition exponent_ok (x : jsnum) : Prop :=
  match x with
  | S754_finite _ _ e => emin prec emax <= e
  | _ => True
  end.

(** Where a number stands: below, among or above the finite ones. *)
Definition num_class (x : jsnum) : Z :=
  match x with
  | S754_infinity true => -1
  | S754_infinity false => 1
  | _ => 0
  end.

(** *** [Number(string)]: StringToNumber of ECMA-262 *)

(** WhiteSpace and LineTerminator code points. *)
Definition is_str_whitespace (c : Z) : bool :=
  (c =? 9) || (c =? 10) || (c =? 11) || (c =? 12) || (c =? 13) || (c =? 32)
  || (c =? 160) || (c =? 5760) || ((8192 <=? c) && (c <=? 8202))
  || (c =? 8232) || (c =? 8233) || (c =? 8239) || (c =? 8287)
  || (c =? 12288) || (c =? 65279).

Fixpoint drop_while (p : Z -> bool) (s : jsstring) : jsstring :=
  match s with
  | c :: r => if p c then drop_while p r else s
  | [] => []
  end.

Definition trim (s : jsstring) : jsstring :=
  rev (drop_while is_str_whitespace (rev (drop_while is_str_whitespace s))).

Definition is_digit (c : Z) : bool := (48 <=? c) && (c <=? 57).

(** The longest prefix of decimal digits, and what follows it. *)
Fixpoint span_digits (s : jsstring) : jsstring * jsstring :=
  match s with
  | c :: r =>
      if is_digit c then let (d, r') := span_digits r in (c :: d, r')
      else ([], s)
  | [] => ([], [])
  end.

Definition digits_value (ds : jsstring) : Z :=
  fold_left (fun acc d => acc * 10 + (d - 48)) ds 0.

(** Value of a digit in the given radix, if it is one. *)
Definition digit_in (radix c : Z) : option Z :=
  let v := if is_digit c then c - 48
           else if (97 <=? c) && (c <=? 102) then c - 87
           else if (65 <=? c) && (c <=? 70) then c - 55
           else radix in
  if v <? radix then Some v else None.

Fixpoint radix_value (radix : Z) (acc : Z) (s : jsstring) : option Z :=
  match s with
  | [] => Some acc
  | c :: r =>
      match digit_in radix c with
      | Some v => radix_value radix (acc * radix + v) r
      | None => None
      end
  end.

(** ExponentPart, or nothing, up to the end of the literal. *)
Definition exponent_part (s : jsstring) : option Z :=
  match s with
  | [] => Some 0
  | c :: r =>
      if (c =? 101) || (c =? 69) then
        let (neg, r1) :=
          match r with
          | 45 :: r' => (true, r')
          | 43 :: r' => (false, r')
          | _ => (false, r)
          end in
        match span_digits r1 with
        | ((_ :: _) as ds, []) =>
            Some (if neg then - digits_value ds else digits_value ds)
        | _ => None
        end
      else None
  end.

(** StrUnsignedDecimalLiteral. *)
Definition unsigned_decimal (s : jsstring) : jsnum :=
  if str_eqb s (js "Infinity") then Infinity false
  else
    let (ip, r1) := span_digits s in
    let (fp, r2) :=
      match r1 with
      | 46 :: r => span_digits r
      | _ => ([], r1)
      end in
    if is_empty ip && is_empty fp then NaN
    else match exponent_part r2 with
         | Some e =>
             of_decimal false (digits_value (ip ++ fp))
               (e - Z.of_nat (List.length fp))
         | None => NaN
         end.

Definition non_decimal (radix : Z) (ds : jsstring) : jsnum :=
  match ds with
  | [] => NaN
  | _ => match radix_value radix 0 ds with
         | Some v => of_Z v
         | None => NaN
         end
  end.

Definition Number (str : jsstring) : jsnum :=
  match trim str with
  | [] => of_Z 0
  | 48 :: 120 :: ds | 48 :: 88 :: ds => non_decimal 16 ds
  | 48 :: 111 :: ds | 48 :: 79 :: ds => non_decimal 8 ds
  | 48 :: 98 :: ds | 48 :: 66 :: ds => non_decimal 2 ds
  | 43 :: s => unsigned_decimal s
  | 45 :: s => num_neg (unsigned_decimal s)
  | s => unsigned_decimal s
  end.

(** ** Time helpers *)

(** [toMinutes(timeStr)]; [None] is [null], also for the argument: a
    missing property reads as [undefined]. *)
Definition toMinutes (timeStr : option jsstring) : option jsnum :=
  match timeStr with
  | None => None
  | Some s =>
      if is_empty s || negb (includes s 58) then None
      else match map Number (split 58 s) with
           | h :: m :: _ =>
               if isNaN h || isNaN m then None
               else Some (num_add (num_mul h (of_Z 60)) m)
           | _ => None
           end
  end.

(** ** Sets

    A [Set] keeps its elements in insertion order; [eqb] is the
    SameValueZero comparison of the element type. *)
Module JSSet.
Section Ops.
Context {A : Type} (eqb : A -> A -> bool).

Definition has (s : list A) (x : A) : bool := existsb (eqb x) s.

Definition add (s : list A) (x : A) : list A :=
  if has s x then s else s ++ [x].

Definition delete (s : list A) (x : A) : list A :=
  filter (fun y => negb (eqb x y)) s.

(** [new Set(array)] *)
Definition from (l : list A) : list A := fold_left add l [].

(** [s.clear()] *)
Definition clear (s : list A) : list A := [].
End Ops.
End JSSet.

(** ** Sessions and conflicts *)

(** The fields of a session that the logic reads; [end_] is the
    property [end]. *)
Record Session := {
  session_id : jsstring;
  start : option jsstring;
  end_ : option jsstring
}.

Definition overlaps (a b : Session) : bool :=
  let aStart := toMinutes (start a) in
  let aEnd := toMinutes (end_ a) in
  let bStart := toMinutes (start b) in
  let bEnd := toMinutes (end_ b) in
  match aStart, aEnd, bStart, bEnd with
  | Some aStart, Some aEnd, Some bStart, Some bEnd =>
      if num_eqb aStart aEnd || num_eqb bStart bEnd then false
      else num_ltb aStart bEnd && num_ltb bStart aEnd
  | _, _, _, _ => false
  end.

(** The inner loop: [sessions[i]] against every later session. *)
Fixpoint findConflicts_inner (si : Session) (later : list Session)
    (conflicting : list jsstring) : list jsstring :=
  match later with
  | [] => conflicting
  | sj :: later' =>
      findConflicts_inner si later'
        (if overlaps si sj
         then JSSet.add str_eqb
                (JSSet.add str_eqb conflicting (session_id si))
                (session_id sj)
         else conflicting)
  end.

(** The outer loop. *)
Fixpoint findConflicts_outer (sessions : list Session)
    (conflicting : list jsstring) : list jsstring :=
  match sessions with
  | [] => conflicting
  | si :: later =>
      findConflicts_outer later (findConflicts_inner si later conflicting)
  end.

Definition findConflicts (sessions : list Session) : list jsstring :=
  findConflicts_outer sessions [].


(** ** Abrupt completions *)

Inductive error := URIError | SyntaxError | InvalidCharacterError | DOMException.

Inductive completion (A : Type) :=
| Normal (a : A)
| Throw (e : error).
Arguments Normal {A} a.
Arguments Throw {A} e.

Definition bind {A B} (c : completion A) (k : A -> completion B) : completion B :=
  match c with
  | Normal a => k a
  | Throw e => Throw e
  end.

Notation "'let*' x ':=' c 'in' k" := (bind c (fun x => k))
  (at level 10, x pattern, c at level 100, k at level 200).

(** [try { c } catch { return d }] *)
Definition try_catch {A} (c : completion A) (d : A) : A :=
  match c with
  | Normal a => a
  | Throw _ => d
  end.

(** ** JavaScript values that [JSON.parse] produces *)

#[warnings="-register-all"]
Inductive json :=
| JNull
| JBool (b : bool)
| JNum (n : jsnum)
| JStr (s : jsstring)
| JArr (elems : list json)
| JObj (props : list (jsstring * json)).

Fixpoint uint_chars (u : Decimal.uint) : jsstring :=
  match u with
  | Decimal.Nil => []
  | Decimal.D0 u' => 48 :: uint_chars u'
  | Decimal.D1 u' => 49 :: uint_chars u'
  | Decimal.D2 u' => 50 :: uint_chars u'
  | Decimal.D3 u' => 51 :: uint_chars u'
  | Decimal.D4 u' => 52 :: uint_chars u'
  | Decimal.D5 u' => 53 :: uint_chars u'
  | Decimal.D6 u' => 54 :: uint_chars u'
  | Decimal.D7 u' => 55 :: uint_chars u'
  | Decimal.D8 u' => 56 :: uint_chars u'
  | Decimal.D9 u' => 57 :: uint_chars u'
  end.

(** The decimal digits of a natural number. *)
Definition decimal_digits (n : Z) : jsstring := uint_chars (N.to_uint (Z.to_N n)).

Definition zeros (n : Z) : jsstring := repeat 48 (Z.to_nat n).

(** [a / b * 10^j] as a fraction. *)
Definition scale10 (a b j : Z) : Z * Z :=
  if 0 <=? j then (a * 10 ^ j, b) else (a, b * 10 ^ (- j)).

(** The [n] with [10^(n-1) <= a / b < 10^n], for [0 < a] and [0 < b]. *)
Definition decimal_exponent (a b : Z) : Z :=
  if b <=? a then Z.of_nat (List.length (decimal_digits (a / b)))
  else
    let l := Z.of_nat (List.length (decimal_digits (b / a))) in
    if a * 10 ^ (l - 1) =? b then 2 - l else 1 - l.

(** The candidates [(s, n)] with [k] digits for the value [a / b]: the
    integers next to [a / b * 10^(k-n)], the nearer one first, and the
    even one first when both are as near. *)
Definition candidates (a b n k : Z) : list (Z * Z) :=
  let (p, q) := scale10 a b (k - n) in
  let lo := p / q in
  let r := p mod q in
  let up := if lo + 1 =? 10 ^ k then (10 ^ (k - 1), n + 1) else (lo + 1, n) in
  if r =? 0 then [(lo, n)]
  else match 2 * r ?= q with
       | Lt => [(lo, n); up]
       | Gt => [up; (lo, n)]
       | Eq => if Z.even lo then [(lo, n); up] else [up; (lo, n)]
       end.

(** The digits [s] and the exponent [n] of Number::toString for the
    positive number [x = a / b]: as few digits [k] as give [x] back when
    [s * 10^(n-k)] is read as a Number, and of these the nearest to [x].
    Seventeen digits always give a binary64 value back. *)
Fixpoint shortest (fuel : nat) (x : jsnum) (a b n k : Z) : Z * Z :=
  match fuel with
  | O => hd (0, n) (candidates a b n k)
  | S fuel' =>
      match filter (fun c => num_eqb (of_decimal false (fst c) (snd c - k)) x)
                   (candidates a b n k) with
      | c :: _ => c
      | [] => shortest fuel' x a b n (k + 1)
      end
  end.

(** Number::toString, radix 10. *)
Definition Number_toString (x : jsnum) : jsstring :=
  match x with
  | S754_nan => js "NaN"
  | S754_infinity neg => if neg then js "-Infinity" else js "Infinity"
  | S754_zero _ => js "0"
  | S754_finite neg m e =>
      let (a, b) :=
        if 0 <=? e then (Zpos m * 2 ^ e, 1) else (Zpos m, 2 ^ (- e)) in
      let (digits, n) :=
        shortest 17 (S754_finite false m e) a b (decimal_exponent a b) 1 in
      let s := decimal_digits digits in
      let k := Z.of_nat (List.length s) in
      let body :=
        if (k <=? n) && (n <=? 21) then s ++ zeros (n - k)
        else if (0 <? n) && (n <=? 21) then
          firstn (Z.to_nat n) s ++ 46 :: skipn (Z.to_nat n) s
        else if (-6 <? n) && (n <=? 0) then 48 :: 46 :: zeros (- n) ++ s
        else
          let ex := (if n - 1 <? 0 then 45 else 43)
                    :: decimal_digits (Z.abs (n - 1)) in
          match s with
          | [d] => d :: 101 :: ex
          | d :: ds => d :: 46 :: ds ++ 101 :: ex
          | [] => []
          end in
      if neg then 45 :: body else body
  end.

Fixpoint join (sep : jsstring) (l : list jsstring) : jsstring :=
  match l with
  | [] => []
  | [x] => x
  | x :: r => x ++ sep ++ join sep r
  end.

(** ToString; an array joins its elements, [null] as the empty string. *)
Fixpoint ToString (v : json) : jsstring :=
  match v with
  | JNull => js "null"
  | JBool b => if b then js "true" else js "false"
  | JNum n => Number_toString n
  | JStr s => s
  | JArr l =>
      join [44] (map (fun x => match x with JNull => [] | _ => ToString x end) l)
  | JObj _ => js "[object Object]"
  end.

(** SameValueZero.  Every array or object that [JSON.parse] builds is a
    fresh reference, equal to no other element. *)
Definition sameValueZero (x y : json) : bool :=
  match x, y with
  | JNull, JNull => true
  | JBool a, JBool b => Bool.eqb a b
  | JNum a, JNum b => (isNaN a && isNaN b) || num_eqb a b
  | JStr a, JStr b => str_eqb a b
  | _, _ => false
  end.

(** ** [Array.prototype.sort] with the default comparator: stable, by the
    code-unit order of the elements' strings *)
Section Sort.
Context {A : Type} (key : A -> jsstring).

Fixpoint sort_insert (x : A) (l : list A) : list A :=
  match l with
  | [] => [x]
  | y :: r => if str_ltb (key y) (key x) then y :: sort_insert x r
              else x :: y :: r
  end.

Fixpoint sort_by (l : list A) : list A :=
  match l with
  | [] => []
  | x :: r => sort_insert x (sort_by r)
  end.

(** [a] may stand before [b]. *)
Definition in_order (a b : A) : Prop := str_ltb (key b) (key a) = false.
End Sort.

Definition Array_sort (l : list json) : list json := sort_by ToString l.

(** ** [JSON.stringify] *)

Definition hex_digit (v : Z) : Z := if v <? 10 then 48 + v else 87 + v.

(** UnicodeEscape: a backslash, [u] and four lower-case hex digits. *)
Definition unicode_escape (c : Z) : jsstring :=
  [92; 117; hex_digit (c / 4096); hex_digit (c / 256 mod 16);
   hex_digit (c / 16 mod 16); hex_digit (c mod 16)].

Definition is_high_surrogate (c : Z) : bool := (55296 <=? c) && (c <=? 56319).
Definition is_low_surrogate (c : Z) : bool := (56320 <=? c) && (c <=? 57343).

(** One code unit that is not part of a surrogate pair. *)
Definition quote_unit (c : Z) : jsstring :=
  if c =? 8 then [92; 98]
  else if c =? 9 then [92; 116]
  else if c =? 10 then [92; 110]
  else if c =? 12 then [92; 102]
  else if c =? 13 then [92; 114]
  else if c =? 34 then [92; 34]
  else if c =? 92 then [92; 92]
  else if (c <? 32) || is_high_surrogate c || is_low_surrogate c
  then unicode_escape c
  else [c].

Fixpoint quote_body (s : jsstring) : jsstring :=
  match s with
  | [] => []
  | c :: r =>
      match r with
      | d :: r' =>
          if is_high_surrogate c && is_low_surrogate d
          then c :: d :: quote_body r'
          else quote_unit c ++ quote_body r
      | [] => quote_unit c
      end
  end.

(** QuoteJSONString *)
Definition quote (s : jsstring) : jsstring := 34 :: quote_body s ++ [34].

Fixpoint JSON_stringify (v : json) : jsstring :=
  match v with
  | JNull => js "null"
  | JBool b => if b then js "true" else js "false"
  | JNum n => if isFinite n then Number_toString n else js "null"
  | JStr s => quote s
  | JArr l => 91 :: join [44] (map JSON_stringify l) ++ [93]
  | JObj ps =>
      123 :: join [44] (map (fun p => quote (fst p) ++ 58 :: JSON_stringify (snd p)) ps)
          ++ [125]
  end.

(** ** UTF-8

    [unescape(encodeURIComponent(s))] is the string whose characters are
    the UTF-8 bytes of [s]; [encodeURIComponent] throws a URIError on a
    lone surrogate. *)
Fixpoint utf8_encode (s : jsstring) : completion (list Z) :=
  match s with
  | [] => Normal []
  | c :: r =>
      if c <? 128 then
        let* bs := utf8_encode r in Normal (c :: bs)
      else if c <? 2048 then
        let* bs := utf8_encode r in
        Normal (192 + c / 64 :: 128 + c mod 64 :: bs)
      else if is_high_surrogate c then
        match r with
        | d :: r' =>
            if is_low_surrogate d then
              let cp := 65536 + (c - 55296) * 1024 + (d - 56320) in
              let* bs := utf8_encode r' in
              Normal (240 + cp / 262144 :: 128 + cp / 4096 mod 64
                      :: 128 + cp / 64 mod 64 :: 128 + cp mod 64 :: bs)
            else Throw URIError
        | [] => Throw URIError
        end
      else if is_low_surrogate c then Throw URIError
      else
        let* bs := utf8_encode r in
        Normal (224 + c / 4096 :: 128 + c / 64 mod 64 :: 128 + c mod 64 :: bs)
  end.

Definition in_range (lo hi b : Z) : bool := (lo <=? b) && (b <=? hi).

(** UTF16EncodeCodePoint *)
Definition utf16_units (cp : Z) : jsstring :=
  if cp <? 65536 then [cp]
  else [55296 + (cp - 65536) / 1024; 56320 + (cp - 65536) mod 1024].

(** [decodeURIComponent(escape(b))] decodes the byte string [b] as UTF-8
    and throws a URIError unless [b] is well-formed UTF-8: no overlong
    form, no encoded surrogate, nothing above U+10FFFF. *)
Fixpoint utf8_decode (b : list Z) : completion jsstring :=
  match b with
  | [] => Normal []
  | b0 :: r =>
      if b0 <? 128 then
        let* s := utf8_decode r in Normal (b0 :: s)
      else if in_range 194 223 b0 then
        match r with
        | b1 :: r1 =>
            if in_range 128 191 b1 then
              let* s := utf8_decode r1 in
              Normal ((b0 - 192) * 64 + (b1 - 128) :: s)
            else Throw URIError
        | _ => Throw URIError
        end
      else if in_range 224 239 b0 then
        match r with
        | b1 :: b2 :: r2 =>
            if in_range (if b0 =? 224 then 160 else 128)
                        (if b0 =? 237 then 159 else 191) b1
               && in_range 128 191 b2
            then
              let* s := utf8_decode r2 in
              Normal ((b0 - 224) * 4096 + (b1 - 128) * 64 + (b2 - 128) :: s)
            else Throw URIError
        | _ => Throw URIError
        end
      else if in_range 240 244 b0 then
        match r with
        | b1 :: b2 :: b3 :: r3 =>
            if in_range (if b0 =? 240 then 144 else 128)
                        (if b0 =? 244 then 143 else 191) b1
               && in_range 128 191 b2 && in_range 128 191 b3
            then
              let* s := utf8_decode r3 in
              Normal (utf16_units ((b0 - 240) * 262144 + (b1 - 128) * 4096
                                   + (b2 - 128) * 64 + (b3 - 128)) ++ s)
            else Throw URIError
        | _ => Throw URIError
        end
      else Throw URIError
  end.

(** ** Base64: [btoa] and [atob] *)

Definition b64_char (i : Z) : Z :=
  if i <? 26 then 65 + i
  else if i <? 52 then 71 + i
  else if i <? 62 then i - 4
  else if i =? 62 then 43
  else 47.

Definition b64_index (c : Z) : option Z :=
  if in_range 65 90 c then Some (c - 65)
  else if in_range 97 122 c then Some (c - 71)
  else if in_range 48 57 c then Some (c + 4)
  else if c =? 43 then Some 62
  else if c =? 47 then Some 63
  else None.

Fixpoint b64_encode (bs : list Z) : jsstring :=
  match bs with
  | [] => []
  | [a] => [b64_char (a / 4); b64_char (a mod 4 * 16); 61; 61]
  | [a; b] =>
      [b64_char (a / 4); b64_char (a mod 4 * 16 + b / 16);
       b64_char (b mod 16 * 4); 61]
  | a :: b :: c :: r =>
      b64_char (a / 4) :: b64_char (a mod 4 * 16 + b / 16)
      :: b64_char (b mod 16 * 4 + c / 64) :: b64_char (c mod 64)
      :: b64_encode r
  end.

(** [btoa(s)]: an InvalidCharacterError when a character is above U+00FF. *)
Definition btoa (s : jsstring) : completion jsstring :=
  if forallb (in_range 0 255) s then Normal (b64_encode s)
  else Throw InvalidCharacterError.

Definition is_ascii_whitespace (c : Z) : bool :=
  (c =? 9) || (c =? 10) || (c =? 12) || (c =? 13) || (c =? 32).

(** One or two [=] at the end of data whose length is a multiple of 4. *)
Definition strip_padding (s : jsstring) : jsstring :=
  if Z.of_nat (List.length s) mod 4 =? 0 then
    match rev s with
    | c1 :: r1 =>
        if c1 =? 61 then
          match r1 with
          | c2 :: r2 => if c2 =? 61 then rev r2 else rev r1
          | [] => rev r1
          end
        else s
    | [] => s
    end
  else s.

Fixpoint b64_indices (s : jsstring) : option (list Z) :=
  match s with
  | [] => Some []
  | c :: r =>
      match b64_index c, b64_indices r with
      | Some i, Some l => Some (i :: l)
      | _, _ => None
      end
  end.

(** Sextets to bytes; the bits left over at the end are dropped. *)
Fixpoint b64_bytes (l : list Z) : list Z :=
  match l with
  | a :: b :: c :: d :: r =>
      a * 4 + b / 16 :: b mod 16 * 16 + c / 4 :: c mod 4 * 64 + d
      :: b64_bytes r
  | [a; b; c] => [a * 4 + b / 16; b mod 16 * 16 + c / 4]
  | [a; b] => [a * 4 + b / 16]
  | _ => []
  end.

(** [atob(data)]: the forgiving-base64 decode of the HTML standard. *)
Definition atob (data : jsstring) : completion jsstring :=
  let d := strip_padding (filter (fun c => negb (is_ascii_whitespace c)) data) in
  if Z.of_nat (List.length d) mod 4 =? 1 then Throw InvalidCharacterError
  else match b64_indices d with
       | Some l => Normal (b64_bytes l)
       | None => Throw InvalidCharacterError
       end.

(** [s.replace(/c/g, d)] for single characters. *)
Definition replace_all (c d : Z) (s : jsstring) : jsstring :=
  map (fun x => if x =? c then d else x) s.

(** [s.replace(/=+$/, '')] *)
Fixpoint strip_trailing_eq (s : jsstring) : jsstring :=
  match s with
  | [] => []
  | c :: r =>
      match strip_trailing_eq r with
      | [] => if c =? 61 then [] else [c]
      | r' => c :: r'
      end
  end.

(** ** [JSON.parse] *)

Definition is_json_ws (c : Z) : bool :=
  (c =? 9) || (c =? 10) || (c =? 13) || (c =? 32).

Definition skip_ws (s : jsstring) : jsstring := drop_while is_json_ws s.

Definition hex4 (h1 h2 h3 h4 : Z) : option Z :=
  match digit_in 16 h1, digit_in 16 h2, digit_in 16 h3, digit_in 16 h4 with
  | Some a, Some b, Some c, Some d => Some (a * 4096 + b * 256 + c * 16 + d)
  | _, _, _, _ => None
  end.

(** The character a two-character escape stands for. *)
Definition escaped_char (e : Z) : option Z :=
  if (e =? 34) || (e =? 92) || (e =? 47) then Some e
  else if e =? 98 then Some 8
  else if e =? 102 then Some 12
  else if e =? 110 then Some 10
  else if e =? 114 then Some 13
  else if e =? 116 then Some 9
  else None.

Definition cons_fst {A B} (a : A) (p : option (list A * B)) : option (list A * B) :=
  match p with
  | Some (l, b) => Some (a :: l, b)
  | None => None
  end.

(** The characters of a string literal after its opening quote, and the
    text after its closing quote. *)
Fixpoint parse_string_body (s : jsstring) : option (jsstring * jsstring) :=
  match s with
  | [] => None
  | c :: r =>
      if c =? 34 then Some ([], r)
      else if c =? 92 then
        match r with
        | [] => None
        | e :: r1 =>
            if e =? 117 then
              match r1 with
              | h1 :: h2 :: h3 :: h4 :: r2 =>
                  match hex4 h1 h2 h3 h4 with
                  | Some u => cons_fst u (parse_string_body r2)
                  | None => None
                  end
              | _ => None
              end
            else
              match escaped_char e with
              | Some u => cons_fst u (parse_string_body r1)
              | None => None
              end
        end
      else if c <? 32 then None
      else cons_fst c (parse_string_body r)
  end.

(** A JSON number: an optional minus, then [0] or digits without a leading
    zero, an optional fraction, an optional exponent. *)
Definition parse_number (s : jsstring) : option (jsnum * jsstring) :=
  let (neg, s1) := match s with
                   | c :: r => if c =? 45 then (true, r) else (false, s)
                   | [] => (false, s)
                   end in
  let int_part :=
    match s1 with
    | c :: r => if c =? 48 then Some ([48], r)
                else if is_digit c then Some (span_digits s1)
                else None
    | [] => None
    end in
  match int_part with
  | None => None
  | Some (ip, s2) =>
      let frac :=
        match s2 with
        | c :: r =>
            if c =? 46 then
              match span_digits r with
              | ([], _) => None
              | (fp, s3) => Some (fp, s3)
              end
            else Some ([], s2)
        | [] => Some ([], s2)
        end in
      match frac with
      | None => None
      | Some (fp, s3) =>
          let expo :=
            match s3 with
            | c :: r =>
                if (c =? 101) || (c =? 69) then
                  let (eneg, r1) :=
                    match r with
                    | d :: r' => if d =? 45 then (true, r')
                                 else if d =? 43 then (false, r')
                                 else (false, r)
                    | [] => (false, r)
                    end in
                  match span_digits r1 with
                  | ([], _) => None
                  | (ds, s4) =>
                      Some (if eneg then - digits_value ds else digits_value ds, s4)
                  end
                else Some (0, s3)
            | [] => Some (0, s3)
            end in
          match expo with
          | None => None
          | Some (e, s4) =>
              let m := digits_value (ip ++ fp) in
              Some (of_decimal neg m (e - Z.of_nat (List.length fp)), s4)
          end
      end
  end.

Fixpoint strip_prefix (p s : jsstring) : option jsstring :=
  match p, s with
  | [], _ => Some s
  | x :: p', y :: s' => if x =? y then strip_prefix p' s' else None
  | _ :: _, [] => None
  end.

(** The index a property key denotes, when it is an array index; such
    keys are enumerated first, in ascending order. *)
Definition array_index (k : jsstring) : option Z :=
  match k with
  | [] => None
  | c :: r =>
      if forallb is_digit k && (negb (c =? 48) || is_empty r)
         && (digits_value k <=? 4294967294)
      then Some (digits_value k) else None
  end.

Fixpoint update_prop (k : jsstring) (v : json) (ps : list (jsstring * json))
  : option (list (jsstring * json)) :=
  match ps with
  | [] => None
  | (k', v') :: r =>
      if str_eqb k k' then Some ((k, v) :: r)
      else match update_prop k v r with
           | Some r' => Some ((k', v') :: r')
           | None => None
           end
  end.

Fixpoint insert_index (i : Z) (k : jsstring) (v : json)
    (ps : list (jsstring * json)) : list (jsstring * json) :=
  match ps with
  | [] => [(k, v)]
  | (k', v') :: r =>
      match array_index k' with
      | Some j => if j <? i then (k', v') :: insert_index i k v r
                  else (k, v) :: ps
      | None => (k, v) :: ps
      end
  end.

(** CreateDataProperty on the object under construction. *)
Definition define_prop (k : jsstring) (v : json) (ps : list (jsstring * json))
  : list (jsstring * json) :=
  match update_prop k v ps with
  | Some ps' => ps'
  | None =>
      match array_index k with
      | Some i => insert_index i k v ps
      | None => ps ++ [(k, v)]
      end
  end.

(** A value, then the elements of an array after its first bracket, then
    the members of an object; [fuel] bounds the number of nested calls. *)
Fixpoint parse_value (fuel : nat) (s : jsstring) : option (json * jsstring) :=
  match fuel with
  | O => None
  | S fuel' =>
      match skip_ws s with
      | [] => None
      | c :: r =>
          if c =? 34 then
            match parse_string_body r with
            | Some (str, r') => Some (JStr str, r')
            | None => None
            end
          else if c =? 91 then
            match skip_ws r with
            | d :: r' => if d =? 93 then Some (JArr [], r')
                         else parse_elements fuel' [] r
            | [] => None
            end
          else if c =? 123 then
            match skip_ws r with
            | d :: r' => if d =? 125 then Some (JObj [], r')
                         else parse_members fuel' [] r
            | [] => None
            end
          else
            match strip_prefix (js "true") (c :: r),
                  strip_prefix (js "false") (c :: r),
                  strip_prefix (js "null") (c :: r) with
            | Some r', _, _ => Some (JBool true, r')
            | _, Some r', _ => Some (JBool false, r')
            | _, _, Some r' => Some (JNull, r')
            | None, None, None =>
                match parse_number (c :: r) with
                | Some (n, r') => Some (JNum n, r')
                | None => None
                end
            end
      end
  end

with parse_elements (fuel : nat) (acc : list json) (s : jsstring)
  : option (json * jsstring) :=
  match fuel with
  | O => None
  | S fuel' =>
      match parse_value fuel' s with
      | Some (v, r) =>
          match skip_ws r with
          | c :: r' =>
              if c =? 44 then parse_elements fuel' (v :: acc) r'
              else if c =? 93 then Some (JArr (rev (v :: acc)), r')
              else None
          | [] => None
          end
      | None => None
      end
  end

with parse_members (fuel : nat) (acc : list (jsstring * json)) (s : jsstring)
  : option (json * jsstring) :=
  match fuel with
  | O => None
  | S fuel' =>
      match skip_ws s with
      | q :: r0 =>
          if q =? 34 then
            match parse_string_body r0 with
            | Some (k, r1) =>
                match skip_ws r1 with
                | c :: r2 =>
                    if c =? 58 then
                      match parse_value fuel' r2 with
                      | Some (v, r3) =>
                          match skip_ws r3 with
                          | d :: r4 =>
                              if d =? 44
                              then parse_members fuel' (define_prop k v acc) r4
                              else if d =? 125
                              then Some (JObj (define_prop k v acc), r4)
                              else None
                          | [] => None
                          end
                      | None => None
                      end
                    else None
                | [] => None
                end
            | None => None
            end
          else None
      | [] => None
      end
  end.

(** [JSON.parse(text)]: a SyntaxError unless [text] is one JSON value.
    Every nested call consumes a character, so the fuel is enough
    ([JSON_parse_fuel]). *)
Definition JSON_parse (text : jsstring) : completion json :=
  match parse_value (S (List.length text)) text with
  | Some (v, r) => if is_empty (skip_ws r) then Normal v else Throw SyntaxError
  | None => Throw SyntaxError
  end.

(** [Array.isArray(arr) ? arr : []] *)
Definition array_or_empty (v : json) : list json :=
  match v with
  | JArr l => l
  | _ => []
  end.
(** A literal in which ['] stands for the double quote. *)
Definition jq (s : string) : jsstring := replace_all 39 34 (js s).

(** ** The application *)

Definition LS_KEY : jsstring := js "ndss2026_starred_talks".
Definition HASH_PARAM : jsstring := js "a".

(** *** Encoding helpers *)

Definition encodeStarred (ids : list json) : completion jsstring :=
  if is_empty ids then Normal []
  else
    let json := JSON_stringify (JArr (Array_sort ids)) in
    let* bytes := utf8_encode json in
    let* b64 := btoa bytes in
    Normal (strip_trailing_eq (replace_all 47 95 (replace_all 43 45 b64))).

Definition decodeStarred (encoded : jsstring) : list json :=
  if is_empty encoded then []
  else
    try_catch
      (let b64 := replace_all 95 47 (replace_all 45 43 encoded) in
       let* bytes := atob b64 in
       let* json := utf8_decode bytes in
       let* arr := JSON_parse json in
       Normal (array_or_empty arr))
      [].

(** *** The browser: [window.location] and the [LS_KEY] slot of
    [localStorage] *)

Record Location := {
  pathname : jsstring;
  search : jsstring;
  hash : jsstring   (* empty, or [#] and the fragment *)
}.

Record Storage := {
  denied : bool;    (* any access throws *)
  full : bool;      (* [setItem] throws *)
  slot : option jsstring
}.

Definition getItem (st : Storage) : completion (option jsstring) :=
  if denied st then Throw DOMException else Normal (slot st).

Definition setItem (st : Storage) (v : jsstring) : completion Storage :=
  if denied st || full st then Throw DOMException
  else Normal {| denied := denied st; full := full st; slot := Some v |}.

(** [history.replaceState(null, '', url)] for the two URLs the
    application passes: the path and query, or a fragment. *)
Definition replaceState_path (loc : Location) : Location :=
  {| pathname := pathname loc; search := search loc; hash := [] |}.

Definition replaceState_fragment (loc : Location) (url : jsstring) : Location :=
  {| pathname := pathname loc; search := search loc; hash := url |}.

(** *** URL hash persistence *)

Definition writeHash (ids : list json) (loc : Location) : completion Location :=
  if is_empty ids then Normal (replaceState_path loc)
  else
    let* encoded := encodeStarred ids in
    Normal (replaceState_fragment loc (35 :: HASH_PARAM ++ 61 :: encoded)).

(** *** localStorage persistence *)

Definition loadStarredFromLS (st : Storage) : list json :=
  try_catch
    (let* raw := getItem st in
     match raw with
     | None => Normal []
     | Some raw =>
         if is_empty raw then Normal []
         else let* arr := JSON_parse raw in Normal (array_or_empty arr)
     end)
    [].

Definition saveStarredToLS (ids : list json) (st : Storage) : Storage :=
  try_catch (setItem st (JSON_stringify (JArr ids))) st.

(** *** Star management *)

Record World := {
  starred : list json;       (* the [Set], in insertion order *)
  location : Location;
  localStorage : Storage
}.

(** [persist()]: the world it leaves, and how it completes. *)
Definition persist (w : World) : World * completion unit :=
  let ids := starred w in
  let st := saveStarredToLS ids (localStorage w) in
  match writeHash ids (location w) with
  | Normal loc =>
      ({| starred := starred w; location := loc; localStorage := st |},
       Normal tt)
  | Throw e =>
      ({| starred := starred w; location := location w; localStorage := st |},
       Throw e)
  end.

Definition toggleStar (sessionId : jsstring) (w : World) : World * completion unit :=
  let s := starred w in
  let s' := if JSSet.has sameValueZero s (JStr sessionId)
            then JSSet.delete sameValueZero s (JStr sessionId)
            else JSSet.add sameValueZero s (JStr sessionId) in
  persist {| starred := s'; location := location w;
             localStorage := localStorage w |}.

(** [resetAgenda()], with the answer to its [confirm] dialog. *)
Definition resetAgenda (confirmed : bool) (w : World) : World * completion unit :=
  if negb confirmed then (w, Normal tt)
  else persist {| starred := JSSet.clear (starred w); location := location w;
                  localStorage := localStorage w |}.

Section Init.
(** [new URLSearchParams(query).get(name)], the query-string lookup of
    the platform; [None] is [null]. *)
Variable URLSearchParams_get : jsstring -> jsstring -> option jsstring.

(** [None] is [null]. *)
Definition readHashStarred (loc : Location) : option (list json) :=
  let hash := tl (hash loc) in
  if is_empty hash then None
  else match URLSearchParams_get hash HASH_PARAM with
       | None => None
       | Some encoded =>
           if is_empty encoded then None else Some (decodeStarred encoded)
       end.

(** Step 2 of [init()]: resolve the starred set. *)
Definition init (w : World) : World :=
  match readHashStarred (location w) with
  | Some ((_ :: _) as fromHash) =>
      {| starred := JSSet.from sameValueZero fromHash;
         location := location w;
         localStorage := saveStarredToLS fromHash (localStorage w) |}
  | _ =>
      {| starred := JSSet.from sameValueZero (loadStarredFromLS (localStorage w));
         location := location w;
         localStorage := localStorage w |}
  end.
End Init.

(** A query-string lookup for queries without escapes: the first
    [name=value] among the parts separated by [&]. *)
Definition plain_query_get (query name : jsstring) : option jsstring :=
  match
    filter (fun p => match strip_prefix (name ++ [61]) p with
                     | Some _ => true | None => str_eqb p name end)
           (split 38 query)
  with
  | p :: _ => match strip_prefix (name ++ [61]) p with
              | Some v => Some v
              | None => Some []
              end
  | [] => None
  end.

(** ** What the specification says, in its own words *)

(** The time pattern [H:MM] or [HH:MM], with the hour and the minute it
    denotes. *)
Definition parse_HMM (s : jsstring) : option (Z * Z) :=
  match s with
  | [h; c; m1; m2] =>
      if is_digit h && (c =? 58) && is_digit m1 && is_digit m2
      then Some (h - 48, (m1 - 48) * 10 + (m2 - 48)) else None
  | [h1; h2; c; m1; m2] =>
      if is_digit h1 && is_digit h2 && (c =? 58) && is_digit m1 && is_digit m2
      then Some ((h1 - 48) * 10 + (h2 - 48), (m1 - 48) * 10 + (m2 - 48))
      else None
  | _ => None
  end.

(** A 24-hour time of that pattern. *)
Definition matches_HMM (s : jsstring) : bool :=
  match parse_HMM s with
  | Some (h, m) => (h <? 24) && (m <? 60)
  | None => false
  end.

(** The times at which a session goes on: from its start on, before its
    end. *)
Definition goes_on (sStart sEnd t : jsnum) : Prop :=
  num_leb sStart t = true /\ num_ltb t sEnd = true.

(** [sorted(unique(ids))], said without a sort: a list in ascending
    order of code units, no string twice, is the sorted list of the
    distinct members of [ids] when it has the members of [ids]. *)
Definition ascending (l : list jsstring) : Prop :=
  StronglySorted (fun a b => str_ltb a b = true) l.

Definition sorted_unique_of (ids l : list jsstring) : Prop :=
  ascending l /\ forall x, In x l <-> In x ids.

(** The storage value the specification describes: the JSON array of the
    identifiers, sorted. *)
Definition sorted_json (ids : list json) : jsstring :=
  JSON_stringify (JArr (Array_sort ids)).

(** ** Notions for the round trip *)

Definition byte (b : Z) : Prop := 0 <= b <= 255.

(** The base64 text before its padding. *)
Fixpoint b64_unpadded (bs : list Z) : jsstring :=
  match bs with
  | [] => []
  | [a] => [b64_char (a / 4); b64_char (a mod 4 * 16)]
  | [a; b] =>
      [b64_char (a / 4); b64_char (a mod 4 * 16 + b / 16);
       b64_char (b mod 16 * 4)]
  | a :: b :: c :: r =>
      b64_char (a / 4) :: b64_char (a mod 4 * 16 + b / 16)
      :: b64_char (b mod 16 * 4 + c / 64) :: b64_char (c mod 64)
      :: b64_unpadded r
  end.

(** The six-bit values of the base64 text. *)
Fixpoint b64_sextets (bs : list Z) : list Z :=
  match bs with
  | [] => []
  | [a] => [a / 4; a mod 4 * 16]
  | [a; b] => [a / 4; a mod 4 * 16 + b / 16; b mod 16 * 4]
  | a :: b :: c :: r =>
      a / 4 :: a mod 4 * 16 + b / 16 :: b mod 16 * 4 + c / 64 :: c mod 64
      :: b64_sextets r
  end.

(** A character of the URL-safe base64 alphabet. *)
Definition b64url_char (c : Z) : Prop :=
  48 <= c <= 57 \/ 65 <= c <= 90 \/ 97 <= c <= 122 \/ c = 45 \/ c = 95.

(** Well-formed UTF-16: every surrogate is half of a pair. *)
Inductive wf16 : jsstring -> Prop :=
| wf16_nil : wf16 []
| wf16_unit c r :
    code_unit c -> ~ 55296 <= c <= 57343 -> wf16 r -> wf16 (c :: r)
| wf16_pair c d r :
    55296 <= c <= 56319 -> 56320 <= d <= 57343 -> wf16 r ->
    wf16 (c :: d :: r).

(** ** Sample data *)

Definition session (id s e : string) : Session :=
  {| session_id := js id; start := Some (js s); end_ := Some (js e) |}.

(** The three sessions of the specification's example, and a break. *)
Definition sessionA : Session := session "A" "09:00" "10:00".
Definition sessionB : Session := session "B" "09:30" "10:30".
Definition sessionC : Session := session "C" "10:30" "11:30".
Definition coffee : Session := session "coffee" "09:45" "09:45".

Definition page : Location :=
  {| pathname := js "/agenda/"; search := []; hash := [] |}.

Definition working (v : option jsstring) : Storage :=
  {| denied := false; full := false; slot := v |}.

(** A first visit: nothing starred, nothing stored, no link. *)
Definition fresh : World :=
  {| starred := []; location := page; localStorage := working None |}.

(** A visit through a link that carries [s1] and [s2], with [s3] stored. *)
Definition shared_link : World :=
  {| starred := [];
     location := {| pathname := js "/agenda/"; search := [];
                    hash := js "#a=WyJzMSIsInMyIl0" |};
     localStorage := working (Some (jq "['s3']")) |}.

(** A visit without a link, with a broken stored value. *)
Definition broken_storage : World :=
  {| starred := []; location := page;
     localStorage := working (Some (js "{bad")) |}.

(** ** Checks that run *)

Definition digit_chars : list Z := [48; 49; 50; 51; 52; 53; 54; 55; 56; 57].

(** The two numbers are the same value, bit for bit. *)
Definition num_same (x y : jsnum) : bool :=
  match x, y with
  | S754_zero a, S754_zero b | S754_infinity a, S754_infinity b => Bool.eqb a b
  | S754_nan, S754_nan => true
  | S754_finite a m e, S754_finite b n f =>
      Bool.eqb a b && (Zpos m =? Zpos n) && (e =? f)
  | _, _ => false
  end.

(** The parse gave the whole number [v]. *)
Definition minutes_is (r : option jsnum) (v : Z) : bool :=
  match r with
  | Some x => num_same x (of_Z v)
  | None => false
  end.

Definition check_HMM (h m1 m2 : Z) : bool :=
  minutes_is (toMinutes (Some [h; 58; m1; m2]))
             ((h - 48) * 60 + ((m1 - 48) * 10 + (m2 - 48))).

Definition check_HHMM (h1 h2 m1 m2 : Z) : bool :=
  minutes_is (toMinutes (Some [h1; h2; 58; m1; m2]))
             (((h1 - 48) * 10 + (h2 - 48)) * 60 + ((m1 - 48) * 10 + (m2 - 48))).

(** ** The agenda view *)

(** [x ?? d] *)
Definition nullish {A} (x : option A) (d : A) : A :=
  match x with
  | Some a => a
  | None => d
  end.

(** [Array.prototype.sort(comparefn)]: stable; an element goes behind
    those that the comparator puts before it (a negative result), and a
    [NaN] result counts as zero.  For a consistent comparator this is the
    one order the language allows.  For another one, which the comparator
    of the agenda is when a start time is [NaN], the language leaves the
    order to the implementation, and this is one order among those it
    may give: what is proved of the order is proved for consistent
    comparators only, the rest for any permutation. *)
Section SortWith.
Context {A : Type} (comparefn : A -> A -> jsnum).

Definition sorts_before (y x : A) : bool := num_ltb (comparefn y x) (of_Z 0).

Fixpoint sort_with_insert (x : A) (l : list A) : list A :=
  match l with
  | [] => [x]
  | y :: r => if sorts_before y x then y :: sort_with_insert x r
              else x :: y :: r
  end.

Fixpoint sort_with (l : list A) : list A :=
  match l with
  | [] => []
  | x :: r => sort_with_insert x (sort_with r)
  end.
End SortWith.

(** A day of the program: its sessions are the ones compared with each
    other. *)
Record Day := {
  day_id : jsstring;
  label : jsstring;
  sessions : list Session
}.

(** What [buildSessionCard] decides about a card: the session it shows
    and its classes [starred] and [conflict]. *)
Record Card := {
  card_session : Session;
  card_starred : bool;
  card_conflict : bool
}.

Definition buildSessionCard (starred : list json) (session : Session)
    (showConflict : bool) : Card :=
  {| card_session := session;
     card_starred := JSSet.has sameValueZero starred (JStr (session_id session));
     card_conflict := showConflict |}.

(** The part of the document that [renderAgenda] writes: the day groups
    of [#agenda-list] and the class [hidden] of [#agenda-empty] and of
    [#conflict-badge]. *)
Record AgendaDOM := {
  agenda_list : list (Day * list Card);
  agenda_empty_hidden : bool;
  conflict_badge_hidden : bool
}.

(** The comparator of the sort by start time. *)
Definition by_start (a b : Session) : jsnum :=
  let am := nullish (toMinutes (start a)) (of_Z 0) in
  let bm := nullish (toMinutes (start b)) (of_Z 0) in
  num_sub am bm.

(** The start of a session as that comparator reads it. *)
Definition start_key (s : Session) : jsnum :=
  nullish (toMinutes (start s)) (of_Z 0).

(** The state of the loop over the days. *)
Record AgendaLoop := {
  loop_groups : list (Day * list Card);
  hasAny : bool;
  hasConflicts : bool
}.

(** One turn of the loop of [renderAgenda]. *)
Definition renderAgenda_day (starred : list json) (st : AgendaLoop) (day : Day)
  : AgendaLoop :=
  let daySessions :=
    filter (fun s => JSSet.has sameValueZero starred (JStr (session_id s)))
           (sessions day) in
  if is_empty daySessions then st
  else
    let daySessions := sort_with by_start daySessions in
    let conflicts := findConflicts daySessions in
    {| loop_groups :=
         loop_groups st
         ++ [(day, map (fun session =>
                          buildSessionCard starred session
                            (JSSet.has str_eqb conflicts (session_id session)))
                       daySessions)];
       hasAny := true;
       hasConflicts := if is_empty conflicts then hasConflicts st else true |}.

(** [renderAgenda()]; [programData] is [None] before the program is
    loaded. *)
Definition renderAgenda (programData : option (list Day)) (starred : list json)
    (dom : AgendaDOM) : AgendaDOM :=
  match programData with
  | None =>
      {| agenda_list := [];
         agenda_empty_hidden := agenda_empty_hidden dom;
         conflict_badge_hidden := conflict_badge_hidden dom |}
  | Some days =>
      let st := fold_left (renderAgenda_day starred) days
                  {| loop_groups := []; hasAny := false;
                     hasConflicts := false |} in
      {| agenda_list := loop_groups st;
         agenda_empty_hidden := hasAny st;
         conflict_badge_hidden := negb (hasConflicts st) |}
  end.

(** The sessions of a day that are starred, as [renderAgenda] selects
    them. *)
Definition starred_sessions (starred : list json) (day : Day) : list Session :=
  filter (fun s => JSSet.has sameValueZero starred (JStr (session_id s)))
         (sessions day).

(** A day of three sessions, two of them at the same time. *)
Definition monday : Day :=
  {| day_id := js "mon"; label := js "Monday";
     sessions := [sessionC; sessionB; coffee; sessionA] |}.

(** ** The browse view *)

(** [s.includes(q)] for strings. *)
Fixpoint includes_str (s q : jsstring) : bool :=
  match strip_prefix q s with
  | Some _ => true
  | None => match s with
            | [] => false
            | _ :: r => includes_str r q
            end
  end.

(** An item of a session; [authors] may be missing. *)
Record Item := {
  item_title : jsstring;
  authors : option jsstring
}.

(** A session as the browse view reads it: the session of the conflict
    detector and the texts that the search looks at. *)
Record Entry := {
  entry_session : Session;
  title : jsstring;
  track : jsstring;
  room : jsstring;
  items : list Item
}.

Record BrowseDay := {
  browse_day_id : jsstring;
  browse_label : jsstring;
  entries : list Entry
}.

(** The day as the agenda view reads it. *)
Definition agenda_day (day : BrowseDay) : Day :=
  {| day_id := browse_day_id day; label := browse_label day;
     sessions := map entry_session (entries day) |}.

(** The controls of the browse view. *)
Record BrowseControls := {
  browseQuery : jsstring;
  browseDay : jsstring;
  browseStarred : bool
}.

(** The part of the document that [renderBrowse] writes: the day groups
    of [#browse-list] and the text of [#session-count]. *)
Record BrowseDOM := {
  browse_list : list (BrowseDay * list (Entry * Card));
  session_count : jsstring
}.

Record BrowseLoop := {
  browse_groups : list (BrowseDay * list (Entry * Card));
  totalShown : Z
}.

Section Browse.
(** [String.prototype.toLowerCase] of the platform. *)
Variable toLowerCase : jsstring -> jsstring.

(** The callback of [day.sessions.filter]. *)
Definition browse_filter (starred : list json) (ctl : BrowseControls)
    (q : jsstring) (s : Entry) : bool :=
  if browseStarred ctl
     && negb (JSSet.has sameValueZero starred
                (JStr (session_id (entry_session s))))
  then false
  else if is_empty q then true
  else if includes_str (toLowerCase (title s)) q then true
  else if includes_str (toLowerCase (track s)) q then true
  else if includes_str (toLowerCase (room s)) q then true
  else if existsb
            (fun i =>
               includes_str (toLowerCase (item_title i)) q
               || match authors i with
                  | Some a => negb (is_empty a)
                              && includes_str (toLowerCase a) q
                  | None => false
                  end)
            (items s)
  then true
  else false.

(** One turn of the loop of [renderBrowse]. *)
Definition renderBrowse_day (starred : list json) (ctl : BrowseControls)
    (q : jsstring) (st : BrowseLoop) (day : BrowseDay) : BrowseLoop :=
  if negb (is_empty (browseDay ctl))
     && negb (str_eqb (browse_day_id day) (browseDay ctl))
  then st
  else
    let filtered := filter (browse_filter starred ctl q) (entries day) in
    if is_empty filtered then st
    else
      {| browse_groups :=
           browse_groups st
           ++ [(day, map (fun s => (s, buildSessionCard starred
                                         (entry_session s) false))
                         filtered)];
         totalShown := totalShown st + Z.of_nat (List.length filtered) |}.

(** [renderBrowse()] *)
Definition renderBrowse (programData : option (list BrowseDay))
    (starred : list json) (ctl : BrowseControls) (dom : BrowseDOM)
  : BrowseDOM :=
  match programData with
  | None => {| browse_list := []; session_count := session_count dom |}
  | Some days =>
      let q := trim (toLowerCase (browseQuery ctl)) in
      let st := fold_left (renderBrowse_day starred ctl q) days
                  {| browse_groups := []; totalShown := 0 |} in
      {| browse_list := browse_groups st;
         session_count :=
           Number_toString (of_Z (totalShown st)) ++ js " session"
           ++ (if totalShown st =? 1 then [] else js "s") |}
  end.
End Browse.

(** A lower-casing for ASCII letters. *)
Definition ascii_lower (s : jsstring) : jsstring :=
  map (fun c => if (65 <=? c) && (c <=? 90) then c + 32 else c) s.

Definition entry (s : Session) (t : string) : Entry :=
  {| entry_session := s; title := js t; track := js "Main";
     room := js "Hall"; items := [] |}.

Definition browse_monday : BrowseDay :=
  {| browse_day_id := js "mon"; browse_label := js "Monday";
     entries := [entry sessionC "Closing"; entry sessionB "Fuzzing";
                 entry coffee "Coffee"; entry sessionA "Opening"] |}.

(** ** Tactics for conditions on integers *)

Ltac arith := Z.div_mod_to_equations; lia.

(** Decide the comparisons of the goal from the hypotheses, those
    between plain terms first. *)
Ltac plain t :=
  lazymatch t with
  | context [if _ then _ else _] => fail
  | _ => idtac
  end.

Ltac cond_step :=
  match goal with
  | |- context [?a <? ?b] =>
      plain a; plain b; destruct (Z.ltb_spec a b); try (exfalso; arith)
  | |- context [?a <=? ?b] =>
      plain a; plain b; destruct (Z.leb_spec a b); try (exfalso; arith)
  | |- context [?a =? ?b] =>
      plain a; plain b; destruct (Z.eqb_spec a b); try (exfalso; arith)
  end.

Ltac conds :=
  unfold in_range, is_high_surrogate, is_low_surrogate, is_digit,
    code_unit, byte in *;
  repeat (cond_step; cbn [andb orb negb]).

(** * Properties *)

(** ** Strings and numbers *)

Lemma str_eqb_eq (a b : jsstring) : str_eqb a b = true <-> a = b.
Proof.
  revert b; induction a as [|x a IH]; intros [|y b]; simpl; split;
    try congruence; intros H.
  - apply andb_true_iff in H as [Hx Hr].
    apply Z.eqb_eq in Hx. apply IH in Hr. congruence.
  - injection H as -> ->. rewrite Z.eqb_refl. simpl. now apply IH.
Qed.

Lemma str_eqb_refl (a : jsstring) : str_eqb a a = true.
Proof. now apply str_eqb_eq. Qed.

Lemma str_eqb_neq (a b : jsstring) : a <> b -> str_eqb a b = false.
Proof.
  intros H. destruct (str_eqb a b) eqn:E; [|reflexivity].
  now apply str_eqb_eq in E.
Qed.

(** ** Rounding

    Facts about the rounding of the standard library's [spec_float], for
    any precision. *)

Section RoundingFacts.
Variables prec emax : Z.
Hypothesis prec_pos : 0 < prec.

Lemma digits2_pos_bounds (m : positive) :
  2 ^ (Zpos (digits2_pos m) - 1) <= Zpos m < 2 ^ Zpos (digits2_pos m).
Proof.
  induction m as [m IH|m IH|]; cbn [digits2_pos].
  - rewrite Pos2Z.inj_succ.
    replace (Z.succ (Zpos (digits2_pos m)) - 1) with (Z.succ (Zpos (digits2_pos m) - 1)) by lia.
    rewrite !Z.pow_succ_r by lia. lia.
  - rewrite Pos2Z.inj_succ.
    replace (Z.succ (Zpos (digits2_pos m)) - 1) with (Z.succ (Zpos (digits2_pos m) - 1)) by lia.
    rewrite !Z.pow_succ_r by lia. lia.
  - cbn. lia.
Qed.

Lemma shr_1_m (r : shr_record) :
  0 <= shr_m r -> shr_m (shr_1 r) = shr_m r / 2.
Proof.
  destruct r as [m b s]. cbn [shr_m shr_1]. intros H.
  destruct m as [|[p|p|]|p]; cbn [shr_m]; try lia; try reflexivity.
  - apply Z.div_unique with 1; lia.
  - apply Z.div_unique with 0; lia.
Qed.

Lemma iter_shr_1_m (p : positive) :
  forall r, 0 <= shr_m r ->
            shr_m (iter_pos shr_1 p r) = shr_m r / 2 ^ Zpos p.
Proof.
  induction p as [p IH|p IH|]; intros r H; cbn [iter_pos].
  - assert (H1 : 0 <= shr_m (shr_1 r)).
    { rewrite shr_1_m by exact H. apply Z.div_pos; lia. }
    assert (H2 : 0 <= shr_m (iter_pos shr_1 p (shr_1 r))).
    { rewrite IH by exact H1. apply Z.div_pos; [exact H1|]. apply Z.pow_pos_nonneg; lia. }
    rewrite IH by exact H2. rewrite IH by exact H1. rewrite shr_1_m by exact H.
    rewrite !Z.div_div by (try apply Z.pow_pos_nonneg; lia).
    replace (Zpos p~1) with (1 + 2 * Zpos p) by lia.
    rewrite Z.pow_add_r, Z.pow_twice_r by lia. reflexivity.
  - assert (H2 : 0 <= shr_m (iter_pos shr_1 p r)).
    { rewrite IH by exact H. apply Z.div_pos; [exact H|]. apply Z.pow_pos_nonneg; lia. }
    rewrite IH by exact H2. rewrite IH by exact H.
    rewrite !Z.div_div by (try apply Z.pow_pos_nonneg; lia).
    replace (Zpos p~0) with (2 * Zpos p) by lia.
    now rewrite Z.pow_twice_r.
  - rewrite shr_1_m by exact H. reflexivity.
Qed.

Lemma shr_record_of_loc_m (m : Z) (l : SpecFloat.location) :
  shr_m (shr_record_of_loc m l) = m.
Proof. destruct l as [|[]]; reflexivity. Qed.

(** A shift that follows the format leaves the exponent in the range. *)
Lemma shr_fexp_exponent (m e : Z) (l : SpecFloat.location) :
  emin prec emax <= snd (shr_fexp prec emax m e l).
Proof.
  unfold shr_fexp, shr, fexp.
  destruct (Z.max (Zdigits2 m + e - prec) (emin prec emax) - e) eqn:E;
    cbn [snd]; lia.
Qed.

(** It does not shift a mantissa away when the exponent is in the range. *)
Lemma shr_fexp_positive (m e : Z) (l : SpecFloat.location) :
  0 < m -> emin prec emax <= e ->
  0 < shr_m (fst (shr_fexp prec emax m e l)).
Proof.
  intros M E. unfold shr_fexp, shr, fexp.
  destruct (Z.max (Zdigits2 m + e - prec) (emin prec emax) - e) as [|p|p] eqn:N;
    cbn [fst]; rewrite ?shr_record_of_loc_m; try exact M.
  rewrite iter_shr_1_m by (rewrite shr_record_of_loc_m; lia).
  rewrite shr_record_of_loc_m.
  destruct m as [|q|q]; try lia. cbn [Zdigits2] in N.
  pose proof (digits2_pos_bounds q) as [B _].
  apply Z.div_str_pos. split; [apply Z.pow_pos_nonneg; lia|].
  eapply Z.le_trans; [|exact B]. apply Z.pow_le_mono_r; lia.
Qed.

Lemma shr_fexp_nonneg (m e : Z) (l : SpecFloat.location) :
  0 <= m -> 0 <= shr_m (fst (shr_fexp prec emax m e l)).
Proof.
  intros M. unfold shr_fexp, shr.
  destruct (fexp prec emax (Zdigits2 m + e) - e) as [|p|p];
    cbn [fst]; rewrite ?shr_record_of_loc_m; try exact M.
  rewrite iter_shr_1_m by (rewrite shr_record_of_loc_m; lia).
  rewrite shr_record_of_loc_m. apply Z.div_pos; [exact M|].
  apply Z.pow_pos_nonneg; lia.
Qed.

Lemma round_nearest_even_le (m : Z) (l : SpecFloat.location) :
  m <= round_nearest_even m l.
Proof.
  destruct l as [|[]]; cbn [round_nearest_even]; try lia.
  destruct (Z.even m); lia.
Qed.

(** The result of a rounding has the sign that was given and an exponent
    in the range; it is no zero when the mantissa is positive and the
    exponent in the range. *)
Inductive rounded (s : bool) : spec_float -> Prop :=
| rounded_zero : rounded s (S754_zero s)
| rounded_infinity : rounded s (S754_infinity s)
| rounded_finite m e : emin prec emax <= e -> rounded s (S754_finite s m e).

Lemma binary_round_aux_rounded (s : bool) (m e : Z) (l : SpecFloat.location) :
  0 <= m ->
  rounded s (binary_round_aux prec emax s m e l)
  /\ (0 < m -> emin prec emax <= e ->
      binary_round_aux prec emax s m e l <> S754_zero s).
Proof.
  intros M. unfold binary_round_aux.
  pose proof (shr_fexp_nonneg m e l M) as N1.
  pose proof (shr_fexp_exponent m e l) as E1.
  pose proof (fun H => shr_fexp_positive m e l H) as P1.
  destruct (shr_fexp prec emax m e l) as [r1 e1]. cbn [fst snd] in *.
  set (m1 := round_nearest_even (shr_m r1) (loc_of_shr_record r1)).
  assert (L1 : shr_m r1 <= m1) by apply round_nearest_even_le.
  pose proof (shr_fexp_nonneg m1 e1 loc_Exact ltac:(lia)) as N2.
  pose proof (shr_fexp_exponent m1 e1 loc_Exact) as E2.
  pose proof (fun H => shr_fexp_positive m1 e1 loc_Exact H E1) as P2.
  destruct (shr_fexp prec emax m1 e1 loc_Exact) as [r2 e2]. cbn [fst snd] in *.
  destruct (shr_m r2) as [|q|q] eqn:Q; try lia.
  - split; [constructor|]. intros Hm He. specialize (P1 Hm He). lia.
  - destruct (e2 <=? emax - prec); split; try discriminate; now constructor.
Qed.

Lemma binary_round_aux_exponent (s : bool) (m e : Z) (l : SpecFloat.location) :
  match binary_round_aux prec emax s m e l with
  | S754_finite _ _ e' => emin prec emax <= e'
  | _ => True
  end.
Proof.
  unfold binary_round_aux.
  destruct (shr_fexp prec emax m e l) as [r1 e1].
  pose proof (shr_fexp_exponent
                (round_nearest_even (shr_m r1) (loc_of_shr_record r1))
                e1 loc_Exact) as E.
  destruct (shr_fexp prec emax _ e1 loc_Exact) as [r2 e2]. cbn [snd] in E.
  destruct (shr_m r2); try exact I.
  now destruct (e2 <=? emax - prec).
Qed.

Lemma shl_align_value (m : positive) (e e' : Z) :
  e' <= e -> Zpos (fst (shl_align m e e')) = Zpos m * 2 ^ (e - e').
Proof.
  intros H. unfold shl_align.
  destruct (e' - e) as [|p|p] eqn:E; cbn [fst]; try lia.
  - replace (e - e') with 0 by lia. lia.
  - replace (e - e') with (Zpos p) by lia.
    rewrite <- Z.shiftl_mul_pow2 by lia. cbn [Z.shiftl].
    apply (Pos.iter_swap_gen _ _ Zpos xO (Z.mul 2)). reflexivity.
Qed.

Lemma shl_align_exponent (m : positive) (e e' : Z) :
  snd (shl_align m e e') = Z.min e e'.
Proof.
  unfold shl_align. destruct (e' - e) eqn:E; cbn [snd]; lia.
Qed.

Lemma binary_round_rounded (s : bool) (m : positive) (e : Z) :
  rounded s (binary_round prec emax s m e)
  /\ (emin prec emax <= e -> binary_round prec emax s m e <> S754_zero s).
Proof.
  unfold binary_round.
  pose proof (shl_align_exponent m e (fexp prec emax (Zpos (digits2_pos m) + e))) as E.
  destruct (shl_align m e (fexp prec emax (Zpos (digits2_pos m) + e))) as [mz ez].
  cbn [snd] in E.
  destruct (binary_round_aux_rounded s (Zpos mz) ez loc_Exact ltac:(lia)) as [R N].
  split; [exact R|]. intros H. apply N; [lia|]. unfold fexp in E. lia.
Qed.
End RoundingFacts.


(** ** Numbers *)

Lemma round_ratio_in_range (s : bool) (m d : Z) : exponent_ok (round_ratio s m d).
Proof.
  unfold round_ratio. destruct (m =? 0); [exact I|].
  destruct (SFdiv_core_binary prec emax m 0 d 0) as [[q e] l].
  apply binary_round_aux_exponent.
Qed.

Lemma of_decimal_in_range (s : bool) (m e : Z) : exponent_ok (of_decimal s m e).
Proof. unfold of_decimal. destruct (0 <=? e); apply round_ratio_in_range. Qed.

Lemma of_Z_in_range (n : Z) : exponent_ok (of_Z n).
Proof. apply round_ratio_in_range. Qed.

Lemma num_neg_in_range (x : jsnum) : exponent_ok x -> exponent_ok (num_neg x).
Proof. now destruct x. Qed.

Lemma num_mul_in_range (x y : jsnum) : exponent_ok (num_mul x y).
Proof.
  destruct x as [a|a| |a m e], y as [b|b| |b n f]; try exact I.
  apply binary_round_aux_exponent.
Qed.

Lemma binary_normalize_in_range (m e : Z) (s : bool) :
  exponent_ok (binary_normalize prec emax m e s).
Proof.
  destruct m as [|p|p]; cbn [binary_normalize]; [exact I| |];
    unfold binary_round;
    destruct (shl_align p e _) as [mz ez]; apply binary_round_aux_exponent.
Qed.

Lemma num_add_in_range (x y : jsnum) :
  exponent_ok x -> exponent_ok y -> exponent_ok (num_add x y).
Proof.
  destruct x as [a|a| |a m e], y as [b|b| |b n f]; intros X Y;
    try exact I; try exact X; try exact Y;
    try (now destruct a, b).
  apply binary_normalize_in_range.
Qed.

(** *** The order *)

Lemma num_compare_antisym (x y : jsnum) :
  num_compare y x = option_map CompOpp (num_compare x y).
Proof.
  destruct x as [a|a| |a m e], y as [b|b| |b n f]; cbn [num_compare option_map];
    try reflexivity; try (now destruct a); try (now destruct b);
    try (now destruct a, b);
    now rewrite <- Qcompare_antisym.
Qed.

Lemma num_eqb_sym (x y : jsnum) : num_eqb x y = num_eqb y x.
Proof.
  unfold num_eqb. rewrite (num_compare_antisym x y).
  now destruct (num_compare x y) as [[]|].
Qed.

Lemma num_eqb_not_ltb (x y : jsnum) : num_eqb x y = true -> num_ltb y x = false.
Proof.
  unfold num_eqb, num_ltb. rewrite (num_compare_antisym x y).
  now destruct (num_compare x y) as [[]|].
Qed.

Lemma num_ltb_asym (x y : jsnum) : num_ltb x y = true -> num_ltb y x = false.
Proof.
  unfold num_ltb. rewrite (num_compare_antisym x y).
  now destruct (num_compare x y) as [[]|].
Qed.

Lemma num_ltb_eqb_false (x y : jsnum) :
  num_ltb x y = true -> num_eqb x y = false.
Proof. unfold num_ltb, num_eqb. now destruct (num_compare x y) as [[]|]. Qed.

Lemma num_ltb_leb (x y : jsnum) : num_ltb x y = true -> num_leb x y = true.
Proof. unfold num_ltb, num_leb. now destruct (num_compare x y) as [[]|]. Qed.

(** Of two numbers, one is not above the other. *)
Lemma num_leb_total (x y : jsnum) :
  isNaN x = false -> isNaN y = false ->
  num_ltb y x = false -> num_leb x y = true.
Proof.
  unfold num_ltb, num_leb. rewrite (num_compare_antisym x y).
  destruct x, y; try discriminate; cbn [num_compare option_map];
    try (now destruct s); try (now destruct s0); try (now destruct s, s0);
    now destruct (_ ?= _)%Q.
Qed.

Lemma num_leb_refl (x : jsnum) : isNaN x = false -> num_leb x x = true.
Proof.
  intros H. apply num_leb_total; try exact H.
  unfold num_ltb. pose proof (num_compare_antisym x x) as A.
  destruct (num_compare x x) as [[]|]; try reflexivity; discriminate.
Qed.

Lemma num_leb_isNaN (x y : jsnum) :
  num_leb x y = true -> isNaN x = false /\ isNaN y = false.
Proof. destruct x, y; try discriminate; now split. Qed.


Ltac order_spec le_alt :=
  split;
  [ intros H;
    first [ discriminate H
          | split; [reflexivity|split; [reflexivity|]];
            first [ left; lia
                  | right; split; [reflexivity|];
                    first [ apply Qle_refl
                          | apply (proj2 (le_alt _ _)); now destruct (_ ?= _)%Q ] ] ]
  | intros (H1 & H2 & [H|[H H']]);
    first [ reflexivity | discriminate | lia
          | exfalso; now apply Qlt_irrefl in H'
          | apply (proj1 (le_alt _ _)) in H'; now destruct (_ ?= _)%Q ] ].

Lemma num_leb_spec (x y : jsnum) :
  num_leb x y = true <->
  isNaN x = false /\ isNaN y = false
  /\ (num_class x < num_class y
      \/ num_class x = num_class y /\ (num_value x <= num_value y)%Q).
Proof.
  unfold num_leb.
  destruct x as [a|[]| |a m e], y as [b|[]| |b n f];
    cbn [num_compare isNaN num_class]; order_spec Qle_alt.
Qed.

Lemma num_ltb_spec (x y : jsnum) :
  num_ltb x y = true <->
  isNaN x = false /\ isNaN y = false
  /\ (num_class x < num_class y
      \/ num_class x = num_class y /\ (num_value x < num_value y)%Q).
Proof.
  unfold num_ltb.
  destruct x as [a|[]| |a m e], y as [b|[]| |b n f];
    cbn [num_compare isNaN num_class]; order_spec Qlt_alt.
Qed.

Lemma num_leb_trans (x y z : jsnum) :
  num_leb x y = true -> num_leb y z = true -> num_leb x z = true.
Proof.
  rewrite !num_leb_spec. intros (X & Y & H1) (_ & Z & H2).
  repeat split; try assumption.
  destruct H1 as [H1|[H1 L1]], H2 as [H2|[H2 L2]]; try (left; lia).
  right. split; [lia|]. now apply Qle_trans with (num_value y).
Qed.

Lemma num_leb_ltb_trans (x y z : jsnum) :
  num_leb x y = true -> num_ltb y z = true -> num_ltb x z = true.
Proof.
  rewrite num_leb_spec, !num_ltb_spec. intros (X & Y & H1) (_ & Z & H2).
  repeat split; try assumption.
  destruct H1 as [H1|[H1 L1]], H2 as [H2|[H2 L2]]; try (left; lia).
  right. split; [lia|]. now apply Qle_lt_trans with (num_value y).
Qed.

(** *** The sign of a difference *)

Lemma finite_value (s : bool) (m : positive) (e ez : Z) :
  ez <= e ->
  (num_value (S754_finite s m e)
   == inject_Z (cond_Zopp s (Zpos (fst (shl_align m e ez)))) * (2 # 1) ^ ez)%Q.
Proof.
  intros H. cbn [num_value]. rewrite shl_align_value by exact H.
  replace (cond_Zopp s (Zpos m * 2 ^ (e - ez)))
    with (cond_Zopp s (Zpos m) * 2 ^ (e - ez))%Z by (destruct s; cbn [cond_Zopp]; ring).
  rewrite inject_Z_mult, Zpower_Qpower by lia.
  rewrite <- Qmult_assoc. apply Qmult_comp; [reflexivity|].
  change (inject_Z 2) with (2 # 1)%Q. rewrite <- Qpower_plus by discriminate.
  now replace (e - ez + ez)%Z with e by lia.
Qed.

Lemma finite_ltb (sx : bool) (mx : positive) (ex : Z)
    (sy : bool) (my : positive) (ey : Z) :
  let ez := Z.min ex ey in
  num_ltb (S754_finite sx mx ex) (S754_finite sy my ey)
  = (cond_Zopp sx (Zpos (fst (shl_align mx ex ez)))
     <? cond_Zopp sy (Zpos (fst (shl_align my ey ez)))).
Proof.
  intros ez. unfold num_ltb. cbn [num_compare].
  rewrite (finite_value sx mx ex ez), (finite_value sy my ey ez) by lia.
  set (X := cond_Zopp sx _). set (Y := cond_Zopp sy _).
  assert (P : (0 < (2 # 1) ^ ez)%Q) by now apply Qpower_0_lt.
  destruct (Z.ltb_spec X Y) as [L|L].
  - assert (Q : (inject_Z X * (2 # 1) ^ ez < inject_Z Y * (2 # 1) ^ ez)%Q).
    { apply Qmult_lt_r; [exact P|]. now rewrite <- Zlt_Qlt. }
    apply (proj1 (Qlt_alt _ _)) in Q. now rewrite Q.
  - assert (Q : (inject_Z Y * (2 # 1) ^ ez <= inject_Z X * (2 # 1) ^ ez)%Q).
    { apply Qmult_le_r; [exact P|]. now rewrite <- Zle_Qle. }
    apply (proj1 (Qle_alt _ _)) in Q. rewrite <- Qcompare_antisym in Q.
    now destruct (_ ?= _)%Q.
Qed.

Lemma rounded_ltb_zero (s : bool) (x : jsnum) :
  rounded prec emax s x -> x <> S754_zero s ->
  num_ltb x (S754_zero false) = s.
Proof.
  intros [| |m e E] N; [easy|now destruct s|].
  unfold num_ltb. cbn [num_compare num_value].
  assert (P : (0 < (2 # 1) ^ e)%Q) by now apply Qpower_0_lt.
  destruct s; cbn [cond_Zopp].
  - assert (Q : (inject_Z (- Zpos m) * (2 # 1) ^ e < 0)%Q).
    { rewrite <- (Qmult_0_l ((2 # 1) ^ e)). apply Qmult_lt_r; [exact P|].
      reflexivity. }
    apply (proj1 (Qlt_alt _ _)) in Q. now rewrite Q.
  - assert (Q : (0 < inject_Z (Zpos m) * (2 # 1) ^ e)%Q).
    { rewrite <- (Qmult_0_l ((2 # 1) ^ e)). apply Qmult_lt_r; [exact P|].
      reflexivity. }
    apply (proj1 (Qgt_alt _ _)) in Q. now rewrite Q.
Qed.

(** [x - y] is negative exactly when [x < y]: a difference is not
    rounded to zero. *)
Lemma num_sub_ltb (x y : jsnum) :
  exponent_ok x -> exponent_ok y ->
  num_ltb (num_sub x y) (of_Z 0) = num_ltb x y.
Proof.
  change (of_Z 0) with (S754_zero false).
  destruct x as [a|a| |a m e], y as [b|b| |b n f]; intros X Y;
    try reflexivity;
    try (now destruct a); try (now destruct b); try (now destruct a, b).
  - (* 0 - finite *)
    cbn [num_sub SFsub].
    rewrite (rounded_ltb_zero (negb b)); [|now constructor|discriminate].
    unfold num_ltb. cbn [num_compare num_value].
    assert (P : (0 < (2 # 1) ^ f)%Q) by now apply Qpower_0_lt.
    destruct b; cbn [cond_Zopp negb].
    + assert (Q : (inject_Z (- Zpos n) * (2 # 1) ^ f < 0)%Q).
      { rewrite <- (Qmult_0_l ((2 # 1) ^ f)). now apply Qmult_lt_r. }
      apply (proj1 (Qgt_alt _ _)) in Q. now rewrite Q.
    + assert (Q : (0 < inject_Z (Zpos n) * (2 # 1) ^ f)%Q).
      { rewrite <- (Qmult_0_l ((2 # 1) ^ f)). now apply Qmult_lt_r. }
      apply (proj1 (Qlt_alt _ _)) in Q. now rewrite Q.
  - (* finite - finite *)
    rewrite finite_ltb. cbn [num_sub SFsub]. cbv zeta.
    set (ez := Z.min e f).
    set (U := cond_Zopp a _). set (V := cond_Zopp b _).
    cbn [exponent_ok] in X, Y.
    destruct (U - V) as [|p|p] eqn:D; cbn [binary_normalize].
    + symmetry. apply Z.ltb_ge. lia.
    + destruct (binary_round_rounded prec emax eq_refl false p ez) as [R _].
      replace (U <? V) with false by (symmetry; apply Z.ltb_ge; lia).
      destruct R as [| |m' e' E']; try reflexivity.
      unfold num_ltb. cbn [num_compare num_value cond_Zopp].
      assert (P : (0 < (2 # 1) ^ e')%Q) by now apply Qpower_0_lt.
      assert (Q : (0 < inject_Z (Zpos m') * (2 # 1) ^ e')%Q).
      { rewrite <- (Qmult_0_l ((2 # 1) ^ e')). now apply Qmult_lt_r. }
      apply (proj1 (Qgt_alt _ _)) in Q. now rewrite Q.
    + destruct (binary_round_rounded prec emax eq_refl true p ez) as [R N].
      replace (U <? V) with true by (symmetry; apply Z.ltb_lt; lia).
      apply (rounded_ltb_zero true); [exact R|]. apply N. unfold ez. lia.
Qed.

Lemma num_eqb_refl (x : jsnum) : isNaN x = false -> num_eqb x x = true.
Proof.
  intros H. unfold num_eqb. pose proof (num_compare_antisym x x) as A.
  destruct x as [a|[]| |a m e]; try discriminate; try reflexivity;
    cbn [num_compare] in *;
    destruct (_ ?= _)%Q; try reflexivity; discriminate.
Qed.

(** ** The conflict detector *)

(** The sessions the detector leaves out: a time is missing or does not
    parse, or start and end are the same time. *)
Inductive no_interval (s : Session) : Prop :=
| missing_start : start s = None -> no_interval s
| missing_end : end_ s = None -> no_interval s
| unparsable_start : toMinutes (start s) = None -> no_interval s
| unparsable_end : toMinutes (end_ s) = None -> no_interval s
| same_time_string : start s = end_ s -> no_interval s
| same_time : forall a e,
    toMinutes (start s) = Some a -> toMinutes (end_ s) = Some e ->
    num_eqb a e = true -> no_interval s.

Lemma overlaps_sym (a b : Session) : overlaps a b = overlaps b a.
Proof.
  unfold overlaps.
  destruct (toMinutes (start a)) as [aS|], (toMinutes (end_ a)) as [aE|],
    (toMinutes (start b)) as [bS|], (toMinutes (end_ b)) as [bE|];
    try reflexivity.
  rewrite (orb_comm (num_eqb aS aE)).
  now rewrite (andb_comm (num_ltb aS bE)).
Qed.

Lemma no_interval_overlaps_l (s t : Session) :
  no_interval s -> overlaps s t = false.
Proof.
  intros H. unfold overlaps.
  destruct H as [H|H|H|H|H|a e Ha He Hae].
  - now rewrite H.
  - rewrite H. simpl. now destruct (toMinutes (start s)).
  - now rewrite H.
  - rewrite H. now destruct (toMinutes (start s)).
  - rewrite <- H.
    destruct (toMinutes (start s)) as [x|]; [|reflexivity].
    destruct (toMinutes (start t)) as [bS|]; [|reflexivity].
    destruct (toMinutes (end_ t)) as [bE|]; [|reflexivity].
    destruct (isNaN x) eqn:N.
    + destruct x; try discriminate.
      now destruct (num_eqb S754_nan S754_nan || num_eqb bS bE).
    + rewrite num_eqb_refl by exact N. reflexivity.
  - rewrite Ha, He, Hae.
    destruct (toMinutes (start t)); [|reflexivity].
    now destruct (toMinutes (end_ t)).
Qed.


Section SetFacts.
Context {A : Type} (eqb : A -> A -> bool).

Lemma add_in (s : list A) (y x : A) :
  In x (JSSet.add eqb s y) -> In x s \/ x = y.
Proof.
  unfold JSSet.add. destruct (JSSet.has eqb s y); [now left|].
  intros H. apply in_app_or in H as [H|[H|[]]]; auto.
Qed.

Lemma has_app (s t : list A) (x : A) :
  JSSet.has eqb (s ++ t) x = JSSet.has eqb s x || JSSet.has eqb t x.
Proof. apply existsb_app. Qed.
End SetFacts.

Lemma findConflicts_inner_in (si : Session) (later : list Session) :
  forall conflicting x,
    In x (findConflicts_inner si later conflicting) ->
    In x conflicting \/
    exists sj, In sj later /\ overlaps si sj = true /\
               (x = session_id si \/ x = session_id sj).
Proof.
  induction later as [|sj later IH]; simpl; intros c x H; [now left|].
  apply IH in H as [H|(t & Ht & Ho & Hx)].
  - destruct (overlaps si sj) eqn:E; [|now left].
    apply add_in in H as [H| ->].
    + apply add_in in H as [H| ->]; [now left|].
      right. exists sj. auto.
    + right. exists sj. auto.
  - right. exists t. auto.
Qed.

(** Every identifier in the result belongs to a pair that overlaps. *)
Lemma findConflicts_outer_in (sessions : list Session) :
  forall conflicting x,
    In x (findConflicts_outer sessions conflicting) ->
    In x conflicting \/
    exists a b, In a sessions /\ In b sessions /\ overlaps a b = true /\
                (x = session_id a \/ x = session_id b).
Proof.
  induction sessions as [|si later IH]; simpl; intros c x H; [now left|].
  apply IH in H as [H|(a & b & Ha & Hb & Ho & Hx)].
  - apply findConflicts_inner_in in H as [H|(sj & Hj & Ho & Hx)]; [now left|].
    right. exists si, sj. auto.
  - right. exists a, b. auto.
Qed.

Lemma findConflicts_in (sessions : list Session) (x : jsstring) :
  In x (findConflicts sessions) ->
  exists a b, In a sessions /\ In b sessions /\ overlaps a b = true /\
              (x = session_id a \/ x = session_id b).
Proof.
  intros H. apply findConflicts_outer_in in H as [[]|H]. exact H.
Qed.

(** Two sessions of a list with distinct identifiers are one session when
    they carry the same identifier. *)
Lemma same_id_same_session (sessions : list Session) (s t : Session) :
  NoDup (map session_id sessions) -> In s sessions -> In t sessions ->
  session_id s = session_id t -> s = t.
Proof.
  induction sessions as [|u l IH]; simpl; intros Hnd Hs Ht E; [easy|].
  inversion Hnd as [|? ? Hnotin Hnd']; subst.
  destruct Hs as [->|Hs], Ht as [->|Ht]; auto.
  - exfalso. apply Hnotin. rewrite E. now apply in_map.
  - exfalso. apply Hnotin. rewrite <- E. now apply in_map.
Qed.






(** C5: two sessions with valid intervals that are not points conflict
    exactly when each starts before the other ends; when each of them
    ends after its start, that is exactly when there is a time at which
    both go on, the start of a session counted in and its end not; of
    the sessions A 09:00-10:00, B 09:30-10:30 and C 10:30-11:30 the
    result is A and B. *)
Theorem overlaps_half_open :
  (forall a b aStart aEnd bStart bEnd,
      toMinutes (start a) = Some aStart -> toMinutes (end_ a) = Some aEnd ->
      toMinutes (start b) = Some bStart -> toMinutes (end_ b) = Some bEnd ->
      num_eqb aStart aEnd = false -> num_eqb bStart bEnd = false ->
      (overlaps a b = true <->
       num_ltb aStart bEnd = true /\ num_ltb bStart aEnd = true))
  /\ (forall a b aStart aEnd bStart bEnd,
        toMinutes (start a) = Some aStart -> toMinutes (end_ a) = Some aEnd ->
        toMinutes (start b) = Some bStart -> toMinutes (end_ b) = Some bEnd ->
        num_ltb aStart aEnd = true -> num_ltb bStart bEnd = true ->
        (overlaps a b = true <->
         exists t, goes_on aStart aEnd t /\ goes_on bStart bEnd t))
  /\ findConflicts [sessionA; sessionB; sessionC]
     = [session_id sessionA; session_id sessionB]
  /\ overlaps sessionB sessionC = false.
Proof.
  assert (U : forall a b aS aE bS bE,
             toMinutes (start a) = Some aS -> toMinutes (end_ a) = Some aE ->
             toMinutes (start b) = Some bS -> toMinutes (end_ b) = Some bE ->
             num_eqb aS aE = false -> num_eqb bS bE = false ->
             (overlaps a b = true <->
              num_ltb aS bE = true /\ num_ltb bS aE = true)).
  { intros a b aS aE bS bE Ha1 Ha2 Hb1 Hb2 Na Nb. unfold overlaps.
    rewrite Ha1, Ha2, Hb1, Hb2, Na, Nb. simpl. apply andb_true_iff. }
  split; [exact U|split; [|split; vm_compute; reflexivity]].
  intros a b aS aE bS bE Ha1 Ha2 Hb1 Hb2 La Lb.
  assert (Na : num_eqb aS aE = false).
  { destruct (num_eqb aS aE) eqn:E; [|reflexivity].
    now rewrite (num_ltb_eqb_false aS aE La) in E. }
  assert (Nb : num_eqb bS bE = false).
  { destruct (num_eqb bS bE) eqn:E; [|reflexivity].
    now rewrite (num_ltb_eqb_false bS bE Lb) in E. }
  rewrite (U a b aS aE bS bE Ha1 Ha2 Hb1 Hb2 Na Nb). unfold goes_on.
  destruct (proj1 (num_ltb_spec _ _) La) as (NaS & _ & _).
  destruct (proj1 (num_ltb_spec _ _) Lb) as (NbS & _ & _).
  split.
  - intros [L1 L2]. destruct (num_ltb aS bS) eqn:C.
    + exists bS. repeat split; auto using num_ltb_leb, num_leb_refl.
    + exists aS. repeat split; auto using num_leb_refl, num_leb_total.
  - intros (t & [A1 A2] & [B1 B2]). split.
    + exact (num_leb_ltb_trans _ _ _ A1 B2).
    + exact (num_leb_ltb_trans _ _ _ B1 A2).
Qed.

Lemma overlaps_half_open_witness :
  overlaps sessionA sessionB = true <->
  num_ltb (of_Z 540) (of_Z 630) = true /\ num_ltb (of_Z 570) (of_Z 600) = true.
Proof.
  apply (proj1 overlaps_half_open sessionA sessionB);
    vm_compute; reflexivity.
Defined.

(** The times are binary64 numbers: [0.03 * 60] is rounded to
    1.7999999999999998, below the 1.8 of ["0:1.8"], so a session from
    ["0.03:00"] to ["0:1.8"] has an interval and conflicts; and
    ["0:30.00000000000000001"] is read as 30, so a session from ["0:30"]
    to it is a point and conflicts with nothing. *)
Example times_are_rounded :
  Number_toString (num_mul (Number (js "0.03")) (of_Z 60))
  = js "1.7999999999999998"
  /\ toMinutes (Some (js "0.03:00")) <> toMinutes (Some (js "0:1.8"))
  /\ overlaps (session "p" "0.03:00" "0:1.8") (session "q" "0:00" "1:00")
     = true
  /\ overlaps (session "a" "0:00" "0:1.8") (session "b" "0.03:00" "1:00")
     = true
  /\ toMinutes (Some (js "0:30.00000000000000001")) = Some (of_Z 30)
  /\ overlaps (session "p" "0:00" "1:00")
       (session "q" "0:30" "0:30.00000000000000001")
     = false.
Proof. repeat split; vm_compute; (reflexivity || discriminate). Qed.

(** C9: the overlap test is symmetric. *)
Theorem overlaps_symmetric (a b : Session) : overlaps a b = overlaps b a.
Proof. apply overlaps_sym. Qed.

(** ** Time parsing *)

Lemma is_digit_in (c : Z) : is_digit c = true -> In c digit_chars.
Proof.
  unfold is_digit, digit_chars. intros H.
  apply andb_true_iff in H as [H1 H2].
  apply Z.leb_le in H1. apply Z.leb_le in H2.
  assert (c = 48 \/ c = 49 \/ c = 50 \/ c = 51 \/ c = 52 \/ c = 53
          \/ c = 54 \/ c = 55 \/ c = 56 \/ c = 57) as E by lia.
  simpl. intuition.
Qed.

Lemma num_same_eq (x y : jsnum) : num_same x y = true -> x = y.
Proof.
  destruct x as [a|a| |a m e], y as [b|b| |b n f]; cbn [num_same];
    try discriminate; try reflexivity.
  - intros H. apply Bool.eqb_prop in H. now subst.
  - intros H. apply Bool.eqb_prop in H. now subst.
  - intros H. apply andb_true_iff in H as [H H3].
    apply andb_true_iff in H as [H1 H2].
    apply Bool.eqb_prop in H1. apply Z.eqb_eq in H2. apply Z.eqb_eq in H3.
    injection H2 as ->. now subst.
Qed.

Lemma minutes_is_eq (r : option jsnum) (v : Z) :
  minutes_is r v = true -> r = Some (of_Z v).
Proof.
  destruct r as [x|]; cbn [minutes_is]; [|discriminate].
  intros H. now rewrite (num_same_eq _ _ H).
Qed.

Lemma all_HMM :
  forallb (fun h => forallb (fun m1 => forallb (fun m2 =>
    check_HMM h m1 m2) digit_chars) digit_chars) digit_chars = true.
Proof. vm_compute. reflexivity. Qed.

Lemma all_HHMM :
  forallb (fun h1 => forallb (fun h2 => forallb (fun m1 => forallb (fun m2 =>
    check_HHMM h1 h2 m1 m2) digit_chars) digit_chars) digit_chars) digit_chars
  = true.
Proof. vm_compute. reflexivity. Qed.

Lemma toMinutes_HMM (s : jsstring) (h m : Z) :
  parse_HMM s = Some (h, m) -> toMinutes (Some s) = Some (of_Z (h * 60 + m)).
Proof.
  destruct s as [|c1 [|c2 [|c3 [|c4 [|c5 [|c6 s]]]]]]; simpl; try discriminate.
  - destruct (is_digit c1) eqn:D1; [|discriminate].
    destruct (c2 =? 58) eqn:C; [|discriminate].
    destruct (is_digit c3) eqn:D3; [|discriminate].
    destruct (is_digit c4) eqn:D4; [|discriminate].
    simpl. intros E. injection E as <- <-.
    apply Z.eqb_eq in C. subst c2.
    apply is_digit_in in D1, D3, D4.
    pose proof all_HMM as H.
    rewrite forallb_forall in H. specialize (H _ D1).
    rewrite forallb_forall in H. specialize (H _ D3).
    rewrite forallb_forall in H. specialize (H _ D4).
    now apply minutes_is_eq in H.
  - destruct (is_digit c1) eqn:D1; [|discriminate].
    destruct (is_digit c2) eqn:D2; [|discriminate].
    destruct (c3 =? 58) eqn:C; [|discriminate].
    destruct (is_digit c4) eqn:D4; [|discriminate].
    destruct (is_digit c5) eqn:D5; [|discriminate].
    simpl. intros E. injection E as <- <-.
    apply Z.eqb_eq in C. subst c3.
    apply is_digit_in in D1, D2, D4, D5.
    pose proof all_HHMM as H.
    rewrite forallb_forall in H. specialize (H _ D1).
    rewrite forallb_forall in H. specialize (H _ D2).
    rewrite forallb_forall in H. specialize (H _ D4).
    rewrite forallb_forall in H. specialize (H _ D5).
    now apply minutes_is_eq in H.
Qed.

Lemma split_nonempty (sep : Z) (s : jsstring) : split sep s <> [].
Proof.
  destruct s as [|c r]; simpl; [discriminate|].
  destruct (c =? sep); [discriminate|].
  destruct (split sep r); discriminate.
Qed.

(** A string that contains the separator splits into two fields at least. *)
Lemma split_includes (sep : Z) (s : jsstring) :
  includes s sep = true -> exists f1 f2 fs, split sep s = f1 :: f2 :: fs.
Proof.
  unfold includes. induction s as [|c r IH]; simpl; [discriminate|].
  intros H. rewrite (Z.eqb_sym sep c) in H.
  destruct (c =? sep) eqn:E.
  - pose proof (split_nonempty sep r) as N.
    destruct (split sep r) as [|f fs]; [easy|]. now exists [], f, fs.
  - simpl in H. destruct (IH H) as (f1 & f2 & fs & ->).
    now exists (c :: f1), f2, fs.
Qed.

(** X25: for every string of the form [H:MM] or [HH:MM], with the hour
    [h] and the minute [m] its digits denote, [toMinutes] returns the
    whole number [h * 60 + m], with no rounding. *)
Theorem toMinutes_valid (s : jsstring) (h m : Z) :
  parse_HMM s = Some (h, m) -> toMinutes (Some s) = Some (of_Z (h * 60 + m)).
Proof. apply toMinutes_HMM. Qed.

Lemma toMinutes_valid_witness :
  toMinutes (Some (js "09:30")) = Some (of_Z (9 * 60 + 30)).
Proof. apply (toMinutes_valid (js "09:30") 9 30). reflexivity. Defined.

(** C3: [toMinutes] returns a number for strings that are no time of
    the day, where it is documented to return [null]: for ["25:99"] it
    returns 1599, for [":"], whose fields are empty, it returns 0, and for
    ["9:5"] it returns 545. *)
Theorem toMinutes_invalid_not_null :
  matches_HMM (js "25:99") = false
  /\ toMinutes (Some (js "25:99")) = Some (of_Z 1599)
  /\ matches_HMM (js ":") = false
  /\ toMinutes (Some (js ":")) = Some (of_Z 0)
  /\ matches_HMM (js "9:5") = false
  /\ toMinutes (Some (js "9:5")) = Some (of_Z 545).
Proof. repeat split; vm_compute; reflexivity. Qed.

(** ** The starred set *)

Lemma sameValueZero_str_l (a : jsstring) (v : json) :
  sameValueZero (JStr a) v = true <-> v = JStr a.
Proof.
  destruct v; simpl; split; try congruence.
  - intros H. apply str_eqb_eq in H. congruence.
  - intros H. injection H as ->. apply str_eqb_refl.
Qed.

Lemma sameValueZero_str_r (a : jsstring) (v : json) :
  sameValueZero v (JStr a) = true <-> v = JStr a.
Proof.
  destruct v as [| |n| | |]; simpl; split; try congruence;
    try (destruct n; congruence).
  - intros H. apply str_eqb_eq in H. congruence.
  - intros H. injection H as ->. apply str_eqb_refl.
Qed.

Arguments sameValueZero : simpl never.

Lemma has_delete_same (s : list json) (id : jsstring) :
  JSSet.has sameValueZero (JSSet.delete sameValueZero s (JStr id)) (JStr id)
  = false.
Proof.
  unfold JSSet.has, JSSet.delete.
  induction s as [|y s IH]; simpl; [reflexivity|].
  destruct (sameValueZero (JStr id) y) eqn:E; simpl; [exact IH|].
  now rewrite E.
Qed.

Lemma has_delete_other (s : list json) (id : jsstring) (v : json) :
  v <> JStr id ->
  JSSet.has sameValueZero (JSSet.delete sameValueZero s (JStr id)) v
  = JSSet.has sameValueZero s v.
Proof.
  intros Hv. unfold JSSet.has, JSSet.delete.
  induction s as [|y s IH]; simpl; [reflexivity|].
  destruct (sameValueZero (JStr id) y) eqn:E; simpl.
  - apply sameValueZero_str_l in E. subst y.
    destruct (sameValueZero v (JStr id)) eqn:F; [|exact IH].
    now apply sameValueZero_str_r in F.
  - now rewrite IH.
Qed.

Lemma has_add (s : list json) (x v : json) :
  JSSet.has sameValueZero s x = false ->
  JSSet.has sameValueZero (JSSet.add sameValueZero s x) v
  = JSSet.has sameValueZero s v || sameValueZero v x.
Proof.
  intros H. unfold JSSet.add. rewrite H, has_app. simpl.
  now rewrite orb_false_r.
Qed.

Lemma persist_starred (w : World) : starred (fst (persist w)) = starred w.
Proof. unfold persist. now destruct (writeHash (starred w) (location w)). Qed.

Lemma persist_localStorage (w : World) :
  localStorage (fst (persist w)) = saveStarredToLS (starred w) (localStorage w).
Proof. unfold persist. now destruct (writeHash (starred w) (location w)). Qed.

Lemma saveStarredToLS_working (ids : list json) (st : Storage) :
  denied st = false -> full st = false ->
  slot (saveStarredToLS ids st) = Some (JSON_stringify (JArr ids)).
Proof.
  intros D F. unfold saveStarredToLS, setItem. now rewrite D, F.
Qed.

(** C10: [toggleStar(id)] flips the membership of [id] and leaves the
    membership of every other value as it was. *)
Theorem toggleStar_frame (w : World) (id : jsstring) :
  let w' := fst (toggleStar id w) in
  JSSet.has sameValueZero (starred w') (JStr id)
  = negb (JSSet.has sameValueZero (starred w) (JStr id))
  /\ forall v, v <> JStr id ->
       JSSet.has sameValueZero (starred w') v
       = JSSet.has sameValueZero (starred w) v.
Proof.
  cbv zeta. unfold toggleStar. rewrite persist_starred. cbn [starred].
  destruct (JSSet.has sameValueZero (starred w) (JStr id)) eqn:H; split.
  - apply has_delete_same.
  - intros v Hv. now apply has_delete_other.
  - rewrite has_add by exact H. rewrite H. simpl.
    now apply sameValueZero_str_l.
  - intros v Hv. rewrite has_add by exact H.
    destruct (sameValueZero v (JStr id)) eqn:E; [|apply orb_false_r].
    now apply sameValueZero_str_r in E.
Qed.

Lemma toggleStar_frame_witness :
  JSSet.has sameValueZero
    (starred (fst (toggleStar (js "s1") shared_link))) (JStr (js "s2"))
  = JSSet.has sameValueZero (starred shared_link) (JStr (js "s2")).
Proof.
  apply (proj2 (toggleStar_frame shared_link (js "s1"))). discriminate.
Defined.

(** C8: two calls of [toggleStar(x)] from the empty set end in the empty
    set, and the second call clears the link: the URL is the path and the
    query again, with no fragment. *)
Theorem toggleStar_twice (x : jsstring) (loc : Location) (st : Storage) :
  let w0 := {| starred := []; location := loc; localStorage := st |} in
  let w1 := fst (toggleStar x w0) in
  let w2 := fst (toggleStar x w1) in
  starred w1 = [JStr x]
  /\ starred w2 = []
  /\ snd (toggleStar x w1) = Normal tt
  /\ location w2 = replaceState_path (location w1)
  /\ hash (location w2) = [].
Proof.
  simpl.
  assert (E1 : starred (fst (toggleStar x
            {| starred := []; location := loc; localStorage := st |}))
          = [JStr x]).
  { unfold toggleStar. now rewrite persist_starred. }
  split; [exact E1|].
  set (w1 := fst (toggleStar x _)) in *.
  unfold toggleStar at 1 2 3 4. rewrite E1.
  unfold JSSet.has, JSSet.delete. simpl.
  rewrite (proj2 (sameValueZero_str_l x (JStr x)) eq_refl). simpl.
  unfold persist. simpl. auto.
Qed.

(** ** Persistence *)

(** C2, as the code has it: after [toggleStar] and after a confirmed
    [resetAgenda] the storage is what [saveStarredToLS] makes of the new
    set, and a storage that takes the write holds the JSON array of the
    identifiers in the insertion order of the set. *)
Theorem persist_storage_value (w : World) :
  (forall id,
      let w' := fst (toggleStar id w) in
      localStorage w' = saveStarredToLS (starred w') (localStorage w)
      /\ (denied (localStorage w) = false -> full (localStorage w) = false ->
          slot (localStorage w') = Some (JSON_stringify (JArr (starred w')))))
  /\ (let w' := fst (resetAgenda true w) in
      starred w' = []
      /\ localStorage w' = saveStarredToLS [] (localStorage w)
      /\ (denied (localStorage w) = false -> full (localStorage w) = false ->
          slot (localStorage w') = Some (JSON_stringify (JArr [])))).
Proof.
  split.
  - intros id. cbv zeta. unfold toggleStar.
    rewrite persist_starred, persist_localStorage. cbn [starred localStorage].
    split; [reflexivity|]. intros D F. now apply saveStarredToLS_working.
  - cbv zeta. unfold resetAgenda. cbn [negb].
    rewrite persist_starred, persist_localStorage. cbn [starred localStorage].
    repeat split. intros D F. now apply saveStarredToLS_working.
Qed.

Lemma persist_storage_value_witness :
  slot (localStorage (fst (toggleStar (js "a") (fst (toggleStar (js "b") fresh)))))
  = Some (jq "['b','a']").
Proof.
  apply (proj2 (proj1 (persist_storage_value (fst (toggleStar (js "b") fresh)))
                  (js "a"))); reflexivity.
Defined.

(** C2, as the specification words it, fails: star [b], then [a]; the
    stored value lists [b] first, the sorted array lists [a] first. *)
Lemma storage_is_not_sorted :
  let w := fst (toggleStar (js "a") (fst (toggleStar (js "b") fresh))) in
  starred w = [JStr (js "b"); JStr (js "a")]
  /\ slot (localStorage w) = Some (jq "['b','a']")
  /\ sorted_json (starred w) = jq "['a','b']"
  /\ slot (localStorage w) <> Some (sorted_json (starred w)).
Proof. vm_compute. repeat split. discriminate. Qed.

(** ** Reconciliation at startup *)

Section InitFacts.
Variable get : jsstring -> jsstring -> option jsstring.

(** No fragment, a fragment without the parameter, an empty parameter:
    no array comes from the link.  A parameter that does not decode, or
    decodes to no element, gives the empty array. *)
Lemma readHashStarred_no_set (loc : Location) :
  tl (hash loc) = []
  \/ get (tl (hash loc)) HASH_PARAM = None
  \/ get (tl (hash loc)) HASH_PARAM = Some []
  \/ (exists encoded, get (tl (hash loc)) HASH_PARAM = Some encoded
                      /\ decodeStarred encoded = []) ->
  readHashStarred get loc = None \/ readHashStarred get loc = Some [].
Proof.
  unfold readHashStarred.
  destruct (is_empty (tl (hash loc))) eqn:E; [now left|].
  intros [H|[H|[H|(encoded & H & D)]]].
  - now rewrite H in E.
  - rewrite H. now left.
  - rewrite H. now left.
  - rewrite H. destruct (is_empty encoded); [now left|]. right. now rewrite D.
Qed.

Lemma init_with_link (w : World) (fromHash : list json) :
  readHashStarred get (location w) = Some fromHash -> fromHash <> [] ->
  init get w
  = {| starred := JSSet.from sameValueZero fromHash;
       location := location w;
       localStorage := saveStarredToLS fromHash (localStorage w) |}.
Proof.
  intros R N. unfold init. rewrite R. now destruct fromHash.
Qed.

Lemma init_without_link (w : World) :
  readHashStarred get (location w) = None
  \/ readHashStarred get (location w) = Some [] ->
  init get w
  = {| starred := JSSet.from sameValueZero
                    (loadStarredFromLS (localStorage w));
       location := location w;
       localStorage := localStorage w |}.
Proof. intros [R|R]; unfold init; now rewrite R. Qed.

(** C1: a link that decodes to a non-empty array wins: its elements
    are the starred set and the array is written to the storage at
    once.  In every other case (no link, an empty one, one that does not
    decode) the starred set is what the storage decodes to and the
    storage is left as it was.  The location is not written. *)
Theorem init_precedence (w : World) :
  let w' := init get w in
  location w' = location w
  /\ (forall fromHash,
        readHashStarred get (location w) = Some fromHash ->
        fromHash <> [] ->
        starred w' = JSSet.from sameValueZero fromHash
        /\ localStorage w' = saveStarredToLS fromHash (localStorage w)
        /\ (denied (localStorage w) = false ->
            full (localStorage w) = false ->
            slot (localStorage w')
            = Some (JSON_stringify (JArr fromHash))))
  /\ (tl (hash (location w)) = []
      \/ get (tl (hash (location w))) HASH_PARAM = None
      \/ get (tl (hash (location w))) HASH_PARAM = Some []
      \/ (exists encoded,
             get (tl (hash (location w))) HASH_PARAM = Some encoded
             /\ decodeStarred encoded = []) ->
      starred w'
      = JSSet.from sameValueZero (loadStarredFromLS (localStorage w))
      /\ localStorage w' = localStorage w)
  /\ (readHashStarred get (location w) = None
      \/ readHashStarred get (location w) = Some [] ->
      starred w'
      = JSSet.from sameValueZero (loadStarredFromLS (localStorage w))
      /\ localStorage w' = localStorage w).
Proof.
  cbv zeta. split; [|split; [|split]].
  - unfold init. now destruct (readHashStarred get (location w)) as [[|v l]|].
  - intros fromHash R N. rewrite (init_with_link w fromHash R N).
    cbn [starred localStorage]. repeat split.
    intros D F. now apply saveStarredToLS_working.
  - intros H. apply readHashStarred_no_set in H.
    rewrite (init_without_link w H). split; reflexivity.
  - intros H. rewrite (init_without_link w H). split; reflexivity.
Qed.
End InitFacts.

Lemma init_precedence_witness :
  starred (init plain_query_get shared_link)
  = [JStr (js "s1"); JStr (js "s2")]
  /\ slot (localStorage (init plain_query_get shared_link))
     = Some (jq "['s1','s2']").
Proof.
  destruct (proj1 (proj2 (init_precedence plain_query_get shared_link))
              [JStr (js "s1"); JStr (js "s2")]) as (H1 & _ & H3).
  - reflexivity.
  - discriminate.
  - split; [exact H1|]. apply H3; reflexivity.
Defined.

(** ** Induction on lists, three elements at a time *)

Lemma list_ind3 {A} (P : list A -> Prop) :
  P [] -> (forall a, P [a]) -> (forall a b, P [a; b]) ->
  (forall a b c r, P r -> P (a :: b :: c :: r)) ->
  forall l, P l.
Proof.
  intros H0 H1 H2 H3 l.
  enough (P l /\ (forall a, P (a :: l)) /\ (forall a b, P (a :: b :: l)))
    by tauto.
  induction l as [|x l (IH0 & IH1 & IH2)]; auto.
Qed.

(** ** Base64 *)

Lemma b64_index_char (i : Z) : 0 <= i < 64 -> b64_index (b64_char i) = Some i.
Proof.
  intros H. unfold b64_index, b64_char.
  destruct (Z.ltb_spec i 26); [conds; f_equal; lia|].
  destruct (Z.ltb_spec i 52); [conds; f_equal; lia|].
  destruct (Z.ltb_spec i 62); [conds; f_equal; lia|].
  destruct (Z.eqb_spec i 62); conds; f_equal; lia.
Qed.

(** The alphabet of [btoa]: letters, digits, [+] and [/]. *)
Lemma b64_char_alphabet (i : Z) :
  0 <= i < 64 ->
  let c := b64_char i in
  48 <= c <= 57 \/ 65 <= c <= 90 \/ 97 <= c <= 122 \/ c = 43 \/ c = 47.
Proof. intros H. unfold b64_char. conds; lia. Qed.

Lemma b64_sextets_range (bs : list Z) :
  Forall byte bs -> Forall (fun i => 0 <= i < 64) (b64_sextets bs).
Proof.
  unfold byte. induction bs as [|a|a b|a b c r IH] using list_ind3; intros H.
  - constructor.
  - inversion_clear H. repeat constructor; arith.
  - inversion_clear H as [|? ? Ha H']. inversion_clear H'.
    repeat constructor; arith.
  - inversion_clear H as [|? ? Ha H']. inversion_clear H' as [|? ? Hb H''].
    inversion_clear H'' as [|? ? Hc Hr].
    cbn [b64_sextets]. repeat (constructor; [arith|]). now apply IH.
Qed.

Lemma b64_unpadded_sextets (bs : list Z) :
  b64_unpadded bs = map b64_char (b64_sextets bs).
Proof.
  induction bs as [|a|a b|a b c r IH] using list_ind3; try reflexivity.
  cbn [b64_unpadded b64_sextets map]. now rewrite IH.
Qed.

Lemma b64_indices_chars (l : list Z) :
  Forall (fun i => 0 <= i < 64) l -> b64_indices (map b64_char l) = Some l.
Proof.
  induction 1 as [|i l Hi _ IH]; [reflexivity|].
  cbn [map b64_indices]. now rewrite b64_index_char, IH.
Qed.

Lemma b64_bytes_sextets (bs : list Z) :
  Forall byte bs -> b64_bytes (b64_sextets bs) = bs.
Proof.
  unfold byte. induction bs as [|a|a b|a b c r IH] using list_ind3; intros H.
  - reflexivity.
  - inversion_clear H. cbn. f_equal. arith.
  - inversion_clear H as [|? ? Ha H']. inversion_clear H'.
    cbn. f_equal; [arith|]. f_equal. arith.
  - inversion_clear H as [|? ? Ha H']. inversion_clear H' as [|? ? Hb H''].
    inversion_clear H'' as [|? ? Hc Hr].
    cbn [b64_sextets b64_bytes]. rewrite IH by assumption.
    f_equal; [arith|]. f_equal; [arith|]. f_equal. arith.
Qed.

Lemma b64_sextets_length (bs : list Z) :
  Z.of_nat (List.length (b64_sextets bs)) mod 4 <> 1.
Proof.
  induction bs as [|a|a b|a b c r IH] using list_ind3; try (cbn; lia).
  cbn [b64_sextets List.length]. arith.
Qed.

Lemma b64_encode_padding (bs : list Z) :
  exists k, b64_encode bs = b64_unpadded bs ++ repeat 61 k.
Proof.
  induction bs as [|a|a b|a b c r [k IH]] using list_ind3.
  - now exists 0%nat.
  - now exists 2%nat.
  - now exists 1%nat.
  - exists k. cbn [b64_encode b64_unpadded]. now rewrite IH.
Qed.

Lemma strip_trailing_eq_padding (k : nat) : strip_trailing_eq (repeat 61 k) = [].
Proof. induction k as [|k IH]; [reflexivity|]. cbn. now rewrite IH. Qed.

Lemma strip_trailing_eq_app (t p : jsstring) :
  strip_trailing_eq p = [] -> strip_trailing_eq (t ++ p) = strip_trailing_eq t.
Proof.
  intros Hp. induction t as [|c r IH]; [exact Hp|].
  cbn [app strip_trailing_eq]. now rewrite IH.
Qed.

Lemma strip_trailing_eq_none (t : jsstring) :
  Forall (fun c => c <> 61) t -> strip_trailing_eq t = t.
Proof.
  induction 1 as [|c r Hc _ IH]; [reflexivity|].
  cbn [strip_trailing_eq]. rewrite IH. destruct r; [|reflexivity].
  now destruct (Z.eqb_spec c 61).
Qed.

Lemma replace_all_app (c d : Z) (s t : jsstring) :
  replace_all c d (s ++ t) = replace_all c d s ++ replace_all c d t.
Proof. apply map_app. Qed.

Lemma replace_all_padding (c d : Z) (k : nat) :
  c <> 61 -> replace_all c d (repeat 61 k) = repeat 61 k.
Proof.
  intros H. induction k as [|k IH]; [reflexivity|].
  cbn [repeat]. unfold replace_all in *. cbn [map]. rewrite IH.
  destruct (Z.eqb_spec 61 c); [lia|reflexivity].
Qed.

(** The two replacements of [encodeStarred] lead into the URL-safe
    alphabet, and the two of [decodeStarred] lead back. *)
Lemma url_safe_char (c : Z) :
  48 <= c <= 57 \/ 65 <= c <= 90 \/ 97 <= c <= 122 \/ c = 43 \/ c = 47 ->
  let u := (fun x => if x =? 47 then 95 else x)
             ((fun x => if x =? 43 then 45 else x) c) in
  b64url_char u
  /\ (fun x => if x =? 95 then 47 else x)
       ((fun x => if x =? 45 then 43 else x) u) = c.
Proof.
  intros A. cbv beta zeta. unfold b64url_char.
  destruct (Z.eqb_spec c 43) as [->|N1]; [cbn; lia|].
  destruct (Z.eqb_spec c 47) as [->|N2]; [cbn; lia|].
  destruct (Z.eqb_spec c 45); [lia|].
  destruct (Z.eqb_spec c 95); [lia|]. lia.
Qed.

Lemma url_safe_chars (l : list Z) :
  Forall (fun i => 0 <= i < 64) l ->
  Forall b64url_char (replace_all 47 95 (replace_all 43 45 (map b64_char l))).
Proof.
  induction 1 as [|i l Hi _ IH]; [constructor|].
  constructor; [|exact IH].
  exact (proj1 (url_safe_char _ (b64_char_alphabet i Hi))).
Qed.

Lemma url_safe_back (l : list Z) :
  Forall (fun i => 0 <= i < 64) l ->
  replace_all 95 47 (replace_all 45 43
    (replace_all 47 95 (replace_all 43 45 (map b64_char l))))
  = map b64_char l.
Proof.
  induction 1 as [|i l Hi _ IH]; [reflexivity|].
  unfold replace_all in *. cbn [map]. rewrite IH. f_equal.
  exact (proj2 (url_safe_char _ (b64_char_alphabet i Hi))).
Qed.

Lemma b64url_char_not_eq (t : jsstring) :
  Forall b64url_char t -> Forall (fun c => c <> 61) t.
Proof. apply Forall_impl. unfold b64url_char. lia. Qed.

Lemma atob_chars (l : list Z) :
  Forall (fun i => 0 <= i < 64) l ->
  Z.of_nat (List.length l) mod 4 <> 1 ->
  atob (map b64_char l) = Normal (b64_bytes l).
Proof.
  intros Hl Hlen. unfold atob.
  assert (A : Forall (fun c => 48 <= c <= 57 \/ 65 <= c <= 90
                        \/ 97 <= c <= 122 \/ c = 43 \/ c = 47)
                (map b64_char l)).
  { apply Forall_map. revert Hl. apply Forall_impl.
    intros i Hi. exact (b64_char_alphabet i Hi). }
  assert (F : filter (fun c => negb (is_ascii_whitespace c)) (map b64_char l)
              = map b64_char l).
  { induction A as [|c r Hc _ IH]; [reflexivity|].
    cbn [filter]. rewrite IH. unfold is_ascii_whitespace.
    conds; reflexivity. }
  rewrite F.
  assert (S : strip_padding (map b64_char l) = map b64_char l).
  { unfold strip_padding.
    destruct (Z.of_nat (List.length (map b64_char l)) mod 4 =? 0);
      [|reflexivity].
    destruct (rev (map b64_char l)) as [|c1 r1] eqn:R; [reflexivity|].
    assert (In c1 (map b64_char l)) as I.
    { apply in_rev. rewrite R. now left. }
    rewrite Forall_forall in A. specialize (A _ I).
    destruct (Z.eqb_spec c1 61); [lia|reflexivity]. }
  rewrite S, length_map.
  destruct (Z.eqb_spec (Z.of_nat (List.length l) mod 4) 1); [easy|].
  now rewrite b64_indices_chars.
Qed.

(** [btoa], the two replacements and the stripping of the padding, then
    the two replacements back and [atob]: the bytes return. *)
Lemma base64url_round_trip (bs : list Z) :
  Forall byte bs ->
  btoa bs = Normal (b64_encode bs)
  /\ (let e := strip_trailing_eq
                 (replace_all 47 95 (replace_all 43 45 (b64_encode bs))) in
      atob (replace_all 95 47 (replace_all 45 43 e)) = Normal bs
      /\ Forall b64url_char e
      /\ (bs <> [] -> e <> [])).
Proof.
  intros Hb. split.
  - unfold btoa.
    replace (forallb (in_range 0 255) bs) with true; [reflexivity|].
    symmetry. apply forallb_forall. rewrite Forall_forall in Hb.
    intros b I. specialize (Hb b I). unfold byte in Hb. conds. reflexivity.
  - cbv zeta. destruct (b64_encode_padding bs) as [k ->].
    rewrite !replace_all_app, !replace_all_padding by lia.
    rewrite strip_trailing_eq_app by apply strip_trailing_eq_padding.
    pose proof (b64_sextets_range bs Hb) as R.
    rewrite b64_unpadded_sextets.
    pose proof (url_safe_chars _ R) as U.
    rewrite strip_trailing_eq_none by now apply b64url_char_not_eq.
    rewrite url_safe_back by assumption.
    rewrite atob_chars by (assumption || apply b64_sextets_length).
    rewrite b64_bytes_sextets by assumption.
    repeat split; [exact U|].
    intros N E. apply N.
    destruct bs as [|a [|b [|c r]]]; [reflexivity|discriminate..].
Qed.

(** ** UTF-8 *)

Lemma utf8_decode_1 (c : Z) (bs : list Z) (s : jsstring) :
  0 <= c < 128 -> utf8_decode bs = Normal s ->
  utf8_decode (c :: bs) = Normal (c :: s).
Proof. intros H E. cbn [utf8_decode]. rewrite E. conds; reflexivity. Qed.

Lemma utf8_decode_2 (c : Z) (bs : list Z) (s : jsstring) :
  128 <= c < 2048 -> utf8_decode bs = Normal s ->
  utf8_decode (192 + c / 64 :: 128 + c mod 64 :: bs) = Normal (c :: s).
Proof.
  intros H E. cbn [utf8_decode]. rewrite E.
  conds; cbn [bind]; do 2 f_equal; arith.
Qed.

Lemma utf8_decode_3 (c : Z) (bs : list Z) (s : jsstring) :
  2048 <= c < 65536 -> ~ 55296 <= c <= 57343 ->
  utf8_decode bs = Normal s ->
  utf8_decode (224 + c / 4096 :: 128 + c / 64 mod 64 :: 128 + c mod 64 :: bs)
  = Normal (c :: s).
Proof.
  intros H N E. cbn [utf8_decode]. rewrite E.
  destruct (Z.eqb_spec (224 + c / 4096) 224);
    destruct (Z.eqb_spec (224 + c / 4096) 237);
    cbv iota; conds; cbn [bind]; do 2 f_equal; arith.
Qed.

Lemma utf8_decode_4 (c d : Z) (bs : list Z) (s : jsstring) :
  55296 <= c <= 56319 -> 56320 <= d <= 57343 ->
  utf8_decode bs = Normal s ->
  let cp := 65536 + (c - 55296) * 1024 + (d - 56320) in
  utf8_decode (240 + cp / 262144 :: 128 + cp / 4096 mod 64
               :: 128 + cp / 64 mod 64 :: 128 + cp mod 64 :: bs)
  = Normal (c :: d :: s).
Proof.
  intros Hc Hd E cp.
  assert (R : 65536 <= cp <= 1114111) by (unfold cp; lia).
  assert (Ec : 55296 + (cp - 65536) / 1024 = c) by (unfold cp; arith).
  assert (Ed : 56320 + (cp - 65536) mod 1024 = d) by (unfold cp; arith).
  clearbody cp. cbn [utf8_decode]. rewrite E.
  assert (V : (240 + cp / 262144 - 240) * 262144
              + (128 + cp / 4096 mod 64 - 128) * 4096
              + (128 + cp / 64 mod 64 - 128) * 64 + (128 + cp mod 64 - 128)
              = cp) by arith.
  rewrite V. unfold utf16_units.
  destruct (Z.eqb_spec (240 + cp / 262144) 240);
    destruct (Z.eqb_spec (240 + cp / 262144) 244);
    cbv iota; conds; cbn [bind app]; rewrite Ec, Ed; reflexivity.
Qed.

(** Well-formed UTF-16 survives the way through UTF-8. *)
Lemma utf8_round_trip (s : jsstring) :
  wf16 s ->
  exists bs, utf8_encode s = Normal bs /\ Forall byte bs
             /\ utf8_decode bs = Normal s.
Proof.
  induction 1 as [|c r Hc Hn _ (bs & He & Hb & Hd)
                  |c d r Hc Hd _ (bs & He & Hb & Hdec)].
  - exists []. repeat split. constructor.
  - cbn [utf8_encode]. rewrite He. cbn [bind]. unfold code_unit in Hc.
    destruct (Z.ltb_spec c 128); [|destruct (Z.ltb_spec c 2048)].
    + exists (c :: bs). repeat split.
      * constructor; [unfold byte; lia|exact Hb].
      * apply utf8_decode_1; [lia|exact Hd].
    + eexists. repeat split.
      * repeat (constructor; [unfold byte; arith|]). exact Hb.
      * apply utf8_decode_2; [lia|exact Hd].
    + conds; eexists; (repeat split;
        [repeat (constructor; [arith|]); exact Hb
        |apply utf8_decode_3; [lia|lia|exact Hd]]).
  - cbn [utf8_encode]. rewrite He. cbn [bind].
    conds; eexists; (repeat split;
      [repeat (constructor; [arith|]); exact Hb
      |apply (utf8_decode_4 c d bs r Hc Hd Hdec)]).
Qed.

(** ** JSON strings *)

Lemma wf16_app (a b : jsstring) : wf16 a -> wf16 b -> wf16 (a ++ b).
Proof.
  induction 1; intros Hb; cbn [app]; [exact Hb| |].
  - apply wf16_unit; auto.
  - apply wf16_pair; auto.
Qed.

Lemma wf16_ascii (l : jsstring) : Forall (fun c => 0 <= c < 128) l -> wf16 l.
Proof.
  induction 1 as [|c r Hc _ IH]; [constructor|].
  apply wf16_unit; [unfold code_unit; lia|lia|exact IH].
Qed.

Lemma hex_digit_range (v : Z) :
  0 <= v < 16 -> 48 <= hex_digit v <= 57 \/ 97 <= hex_digit v <= 102.
Proof. intros H. unfold hex_digit. conds; lia. Qed.

Lemma digit_in_hex_digit (v : Z) :
  0 <= v < 16 -> digit_in 16 (hex_digit v) = Some v.
Proof.
  intros H. unfold digit_in, hex_digit. cbv zeta.
  conds; f_equal; lia.
Qed.

Lemma hex4_unicode_escape (c : Z) :
  code_unit c ->
  hex4 (hex_digit (c / 4096)) (hex_digit (c / 256 mod 16))
       (hex_digit (c / 16 mod 16)) (hex_digit (c mod 16)) = Some c.
Proof.
  unfold code_unit, hex4. intros H.
  rewrite !digit_in_hex_digit by arith. f_equal. arith.
Qed.

Lemma unicode_escape_ascii (c : Z) :
  code_unit c -> Forall (fun x => 0 <= x < 128) (unicode_escape c).
Proof.
  unfold code_unit, unicode_escape. intros H.
  pose proof (hex_digit_range (c / 4096)).
  pose proof (hex_digit_range (c / 256 mod 16)).
  pose proof (hex_digit_range (c / 16 mod 16)).
  pose proof (hex_digit_range (c mod 16)).
  repeat constructor; try lia.
  all: match goal with
       | H : _ -> 48 <= hex_digit ?x <= 57 \/ _ |- _ <= hex_digit ?x =>
           assert (0 <= x < 16) as B by arith; specialize (H B); lia
       | H : _ -> 48 <= hex_digit ?x <= 57 \/ _ |- hex_digit ?x < _ =>
           assert (0 <= x < 16) as B by arith; specialize (H B); lia
       end.
Qed.

Lemma quote_unit_wf16 (c : Z) : code_unit c -> wf16 (quote_unit c).
Proof.
  intros H. unfold quote_unit.
  repeat match goal with
         | |- wf16 (if ?a =? ?b then _ else _) =>
             destruct (Z.eqb_spec a b);
             [apply wf16_ascii; repeat constructor; lia|]
         end.
  destruct ((c <? 32) || is_high_surrogate c || is_low_surrogate c) eqn:E.
  - apply wf16_ascii. now apply unicode_escape_ascii.
  - apply orb_false_iff in E as [E E3]. apply orb_false_iff in E as [E1 E2].
    unfold is_high_surrogate, is_low_surrogate in *.
    apply wf16_unit; [exact H| |constructor].
    apply andb_false_iff in E2, E3. lia.
Qed.

(** The ways [quote_body] takes a string apart. *)
Lemma quote_body_cases (P : jsstring -> Prop) :
  P [] ->
  (forall c d r,
      55296 <= c <= 56319 -> 56320 <= d <= 57343 ->
      quote_body (c :: d :: r) = c :: d :: quote_body r ->
      P r -> P (c :: d :: r)) ->
  (forall c r,
      quote_body (c :: r) = quote_unit c ++ quote_body r ->
      P r -> P (c :: r)) ->
  forall s, P s.
Proof.
  intros H0 Hpair Hunit s.
  enough (P s /\ forall c, P (c :: s)) by tauto.
  induction s as [|x s [IH1 IH2]].
  - split; [exact H0|]. intros c. apply Hunit; [|exact H0].
    cbn. now rewrite app_nil_r.
  - split; [apply IH2|]. intros c.
    destruct (is_high_surrogate c && is_low_surrogate x) eqn:E.
    + apply andb_true_iff in E as [E1 E2].
      unfold is_high_surrogate, is_low_surrogate in *.
      apply andb_true_iff in E1, E2.
      apply Hpair; [lia|lia| |exact IH1].
      cbn [quote_body]. unfold is_high_surrogate, is_low_surrogate.
      destruct E1 as [-> ->], E2 as [-> ->]. reflexivity.
    + apply Hunit; [|apply IH2].
      change (quote_body (c :: x :: s))
        with (if is_high_surrogate c && is_low_surrogate x
              then c :: x :: quote_body s
              else quote_unit c ++ quote_body (x :: s)).
      now rewrite E.
Qed.

Lemma quote_body_wf16 (s : jsstring) :
  Forall code_unit s -> wf16 (quote_body s).
Proof.
  induction s as [|c d r Hc Hd E IH|c r E IH] using quote_body_cases;
    intros H.
  - constructor.
  - rewrite E. inversion_clear H as [|? ? _ H']. inversion_clear H'.
    apply wf16_pair; auto.
  - rewrite E. inversion_clear H. apply wf16_app; auto.
    now apply quote_unit_wf16.
Qed.

Lemma parse_string_plain (c : Z) (t : jsstring) :
  32 <= c -> c <> 34 -> c <> 92 ->
  parse_string_body (c :: t) = cons_fst c (parse_string_body t).
Proof. intros H1 H2 H3. cbn [parse_string_body]. conds; reflexivity. Qed.

Lemma parse_string_escape (c : Z) (t : jsstring) :
  code_unit c ->
  parse_string_body (unicode_escape c ++ t) = cons_fst c (parse_string_body t).
Proof.
  intros H. unfold unicode_escape. cbn [app parse_string_body].
  rewrite hex4_unicode_escape by exact H. reflexivity.
Qed.

Lemma parse_string_quote_unit (c : Z) (t : jsstring) :
  code_unit c ->
  parse_string_body (quote_unit c ++ t) = cons_fst c (parse_string_body t).
Proof.
  intros H. unfold quote_unit.
  repeat match goal with
         | |- parse_string_body ((if ?a =? ?b then _ else _) ++ _) = _ =>
             destruct (Z.eqb_spec a b); [subst; reflexivity|]
         end.
  destruct ((c <? 32) || is_high_surrogate c || is_low_surrogate c) eqn:E.
  - now apply parse_string_escape.
  - apply orb_false_iff in E as [E _]. apply orb_false_iff in E as [E _].
    apply Z.ltb_ge in E. cbn [app]. now apply parse_string_plain.
Qed.

(** Reading a quoted string gives the string back. *)
Lemma parse_string_quote_body (s : jsstring) :
  Forall code_unit s ->
  forall t, parse_string_body (quote_body s ++ 34 :: t) = Some (s, t).
Proof.
  induction s as [|c d r Hc Hd E IH|c r E IH] using quote_body_cases;
    intros H t.
  - reflexivity.
  - rewrite E. inversion_clear H as [|? ? _ H']. inversion_clear H'.
    cbn [app]. rewrite !parse_string_plain by lia.
    now rewrite IH.
  - rewrite E. inversion_clear H. rewrite <- app_assoc.
    rewrite parse_string_quote_unit by assumption. now rewrite IH.
Qed.

(** ** JSON arrays of strings *)

Lemma JSON_stringify_strings (l : list jsstring) :
  JSON_stringify (JArr (map JStr l)) = 91 :: join [44] (map quote l) ++ [93].
Proof.
  cbn [JSON_stringify]. rewrite map_map. reflexivity.
Qed.

Lemma quote_wf16 (s : jsstring) : Forall code_unit s -> wf16 (quote s).
Proof.
  intros H. unfold quote.
  apply wf16_unit; [unfold code_unit; lia|lia|].
  apply wf16_app; [now apply quote_body_wf16|].
  apply wf16_ascii. repeat constructor; lia.
Qed.

Lemma join_quote_wf16 (l : list jsstring) :
  Forall (Forall code_unit) l -> wf16 (join [44] (map quote l)).
Proof.
  induction 1 as [|x l Hx Hl IH]; [constructor|].
  cbn [map join]. destruct (map quote l) eqn:E.
  - now apply quote_wf16.
  - apply wf16_app; [now apply quote_wf16|].
    apply (wf16_app [44]); [|exact IH].
    apply wf16_ascii. repeat constructor; lia.
Qed.

(** The text of an array of strings is well-formed UTF-16: a lone
    surrogate leaves [JSON.stringify] as an escape. *)
Lemma JSON_stringify_strings_wf16 (l : list jsstring) :
  Forall (Forall code_unit) l -> wf16 (JSON_stringify (JArr (map JStr l))).
Proof.
  intros H. rewrite JSON_stringify_strings.
  apply wf16_unit; [unfold code_unit; lia|lia|].
  apply wf16_app; [now apply join_quote_wf16|].
  apply wf16_ascii. repeat constructor; lia.
Qed.

Lemma join_quote_length (l : list jsstring) :
  (List.length l <= List.length (join [44%Z] (map quote l)))%nat.
Proof.
  induction l as [|x l IH]; [apply le_n|].
  cbn [map join]. destruct (map quote l) eqn:E.
  - destruct l; [|discriminate]. unfold quote. cbn. lia.
  - rewrite !length_app. unfold quote at 1. cbn [List.length] in *. lia.
Qed.

Lemma parse_value_string (fuel : nat) (x t : jsstring) :
  Forall code_unit x ->
  parse_value (S fuel) (quote x ++ t) = Some (JStr x, t).
Proof.
  intros H. unfold quote. cbn [app]. rewrite <- app_assoc. cbn [app].
  change (parse_value (S fuel) (34 :: quote_body x ++ 34 :: t))
    with (match parse_string_body (quote_body x ++ 34 :: t) with
          | Some (str, r') => Some (JStr str, r')
          | None => None
          end).
  now rewrite parse_string_quote_body.
Qed.

Lemma parse_elements_strings (l : list jsstring) :
  forall x fuel acc t,
    (List.length l + 2 <= fuel)%nat ->
    Forall code_unit x -> Forall (Forall code_unit) l ->
    parse_elements fuel acc (join [44] (map quote (x :: l)) ++ 93 :: t)
    = Some (JArr (rev acc ++ map JStr (x :: l)), t).
Proof.
  induction l as [|y l IH]; intros x fuel acc t Hf Hx Hl.
  - destruct fuel as [|[|f]]; [cbn in Hf; lia..|].
    cbn [map join].
    change (parse_elements (S (S f)) acc (quote x ++ 93 :: t))
      with (match parse_value (S f) (quote x ++ 93 :: t) with
            | Some (v, r) =>
                match skip_ws r with
                | c :: r' =>
                    if c =? 44 then parse_elements (S f) (v :: acc) r'
                    else if c =? 93 then Some (JArr (rev (v :: acc)), r')
                    else None
                | [] => None
                end
            | None => None
            end).
    rewrite parse_value_string by exact Hx. reflexivity.
  - destruct fuel as [|[|f]]; [cbn in Hf; lia..|].
    inversion_clear Hl as [|? ? Hy Hl'].
    change (join [44] (map quote (x :: y :: l)))
      with (quote x ++ [44] ++ join [44] (map quote (y :: l))).
    rewrite <- !app_assoc. cbn [app].
    change (parse_elements (S (S f)) acc
              (quote x ++ 44 :: join [44] (map quote (y :: l)) ++ 93 :: t))
      with (match parse_value (S f)
                    (quote x ++ 44 :: join [44] (map quote (y :: l)) ++ 93 :: t)
            with
            | Some (v, r) =>
                match skip_ws r with
                | c :: r' =>
                    if c =? 44 then parse_elements (S f) (v :: acc) r'
                    else if c =? 93 then Some (JArr (rev (v :: acc)), r')
                    else None
                | [] => None
                end
            | None => None
            end).
    rewrite parse_value_string by exact Hx.
    change (skip_ws (44 :: join [44] (map quote (y :: l)) ++ 93 :: t))
      with (44 :: join [44] (map quote (y :: l)) ++ 93 :: t).
    cbv iota. change (44 =? 44) with true. cbv iota.
    rewrite IH; [|cbn [List.length] in Hf; lia|exact Hy|exact Hl'].
    cbn [rev map]. now rewrite <- app_assoc.
Qed.

(** [JSON.parse] reads back what [JSON.stringify] wrote for an array of
    strings. *)
Lemma JSON_parse_stringify_strings (l : list jsstring) :
  Forall (Forall code_unit) l ->
  JSON_parse (JSON_stringify (JArr (map JStr l))) = Normal (JArr (map JStr l)).
Proof.
  intros H. destruct l as [|x l]; [reflexivity|].
  inversion_clear H as [|? ? Hx Hl].
  rewrite JSON_stringify_strings. unfold JSON_parse.
  set (body := join [44] (map quote (x :: l))).
  assert (B : exists b, body = 34 :: b).
  { unfold body. cbn [map join].
    destruct (map quote l); unfold quote; cbn [app]; eauto. }
  destruct B as [b B].
  assert (E : parse_value (S (List.length (91 :: body ++ [93])))
                (91 :: body ++ [93])
              = parse_elements (List.length (91 :: body ++ [93])) []
                  (body ++ [93])).
  { rewrite B. reflexivity. }
  rewrite E. unfold body.
  rewrite parse_elements_strings; [reflexivity| |exact Hx|exact Hl].
  pose proof (join_quote_length (x :: l)) as L.
  cbn [List.length] in *. rewrite length_app. cbn [List.length]. lia.
Qed.

(** ** The fuel of the parser *)

(** Take the matches of a parser equation apart; equations on recursive
    calls stay in the context. *)
Ltac parser_cases H :=
  repeat match type of H with
         | match ?x with _ => _ end = Some _ =>
             let E := fresh "E" in destruct x eqn:E; try discriminate H
         | (if ?x then _ else _) = Some _ =>
             let E := fresh "E" in destruct x eqn:E; try discriminate H
         | (let (_, _) := ?x in _) = Some _ =>
             let E := fresh "E" in destruct x eqn:E
         end.

(** Rewrite the goal with the equations of the context. *)
Ltac replay :=
  repeat match goal with
         | E : ?x = _ |- context [?x] => rewrite E
         end.

(** More fuel changes no result. *)
Lemma parse_fuel_mono (f : nat) :
  (forall f' s r, (f <= f')%nat ->
                  parse_value f s = Some r -> parse_value f' s = Some r)
  /\ (forall f' acc s r, (f <= f')%nat ->
                         parse_elements f acc s = Some r ->
                         parse_elements f' acc s = Some r)
  /\ (forall f' acc s r, (f <= f')%nat ->
                         parse_members f acc s = Some r ->
                         parse_members f' acc s = Some r).
Proof.
  induction f as [|f (IHv & IHe & IHm)];
    [repeat split; intros; discriminate|].
  repeat split.
  - intros [|f'] s r L H; [lia|]. apply le_S_n in L.
    simpl in H |- *. parser_cases H;
      first [exact H | exact (IHe _ _ _ _ L H) | exact (IHm _ _ _ _ L H)].
  - intros [|f'] acc s r L H; [lia|]. apply le_S_n in L.
    simpl in H |- *. parser_cases H;
      repeat match goal with
             | E : parse_value f _ = Some _ |- _ => apply (IHv _ _ _ L) in E
             end;
      replay; first [reflexivity | exact H | exact (IHe _ _ _ _ L H)].
  - intros [|f'] acc s r L H; [lia|]. apply le_S_n in L.
    simpl in H |- *. parser_cases H;
      repeat match goal with
             | E : parse_value f _ = Some _ |- _ => apply (IHv _ _ _ L) in E
             end;
      replay; first [reflexivity | exact H | exact (IHm _ _ _ _ L H)].
Qed.

(** What the pieces of the parser consume. *)
Lemma drop_while_length (p : Z -> bool) (s : jsstring) :
  (List.length (drop_while p s) <= List.length s)%nat.
Proof.
  induction s as [|c r IH]; cbn; [lia|]. destruct (p c); cbn; lia.
Qed.

Lemma skip_ws_cons (s : jsstring) (c : Z) (r : jsstring) :
  skip_ws s = c :: r -> (List.length r < List.length s)%nat.
Proof.
  intros E. pose proof (drop_while_length is_json_ws s) as L.
  unfold skip_ws in E. rewrite E in L. cbn in L. lia.
Qed.

Lemma parse_string_body_length (n : nat) :
  forall s x r,
    (List.length s <= n)%nat -> parse_string_body s = Some (x, r) ->
    (List.length r < List.length s)%nat.
Proof.
  induction n as [|n IH]; intros s x r L H.
  - destruct s; [discriminate|cbn in L; lia].
  - destruct s as [|c s]; [discriminate|]. cbn [List.length] in *.
    cbn [parse_string_body] in H. unfold cons_fst in H. parser_cases H.
    + injection H as _ <-. lia.
    + subst. cbn [List.length] in *.
      match goal with
      | E : parse_string_body _ = Some _ |- _ => apply IH in E; [|lia]
      end.
      injection H as _ <-. lia.
    + subst. cbn [List.length] in *.
      match goal with
      | E : parse_string_body _ = Some _ |- _ => apply IH in E; [|lia]
      end.
      injection H as _ <-. lia.
    + subst.
      match goal with
      | E : parse_string_body _ = Some _ |- _ => apply IH in E; [|lia]
      end.
      injection H as _ <-. lia.
Qed.

Lemma span_digits_length (s d r : jsstring) :
  span_digits s = (d, r) -> (List.length r <= List.length s)%nat.
Proof.
  revert d r. induction s as [|c s IH]; cbn; intros d r H.
  - injection H as _ <-. cbn. lia.
  - destruct (is_digit c).
    + destruct (span_digits s) as [d' r'] eqn:E.
      injection H as _ <-. specialize (IH _ _ eq_refl). lia.
    + injection H as _ <-. cbn. lia.
Qed.

Lemma strip_prefix_length (p s r : jsstring) :
  strip_prefix p s = Some r ->
  (List.length r + List.length p = List.length s)%nat.
Proof.
  revert s. induction p as [|x p IH]; intros [|y s] H; cbn in *;
    try discriminate.
  - injection H as <-. reflexivity.
  - injection H as <-. cbn. lia.
  - destruct (x =? y); [|discriminate]. apply IH in H. lia.
Qed.

(** Take every equation on a match apart. *)
Ltac break_eqs :=
  repeat match goal with
         | H : match ?x with _ => _ end = _ |- _ =>
             destruct x eqn:?; try discriminate H
         | H : (_, _) = (_, _) |- _ => injection H as ? ?
         | H : Some _ = Some _ |- _ => injection H as ?
         | H : span_digits _ = (_, _) |- _ => apply span_digits_length in H
         end.

Lemma parse_number_length (s : jsstring) (n : jsnum) (r : jsstring) :
  parse_number s = Some (n, r) -> (List.length r < List.length s)%nat.
Proof.
  unfold parse_number. intros H. break_eqs;
    subst; cbn [List.length] in *; lia.
Qed.

(** Add a fact to the context unless it is there. *)
Ltac learn H :=
  let T := type of H in
  lazymatch goal with
  | _ : T |- _ => fail
  | _ => pose proof H
  end.

(** The lengths that the equations of a parser run give. *)
Ltac consumed :=
  repeat match goal with
         | E : skip_ws ?s = ?c :: ?r |- _ => learn (skip_ws_cons s c r E)
         | E : parse_string_body ?s = Some (?x, ?r) |- _ =>
             learn (parse_string_body_length _ s x r (le_n _) E)
         | E : strip_prefix ?p ?s = Some ?r |- _ =>
             learn (strip_prefix_length p s r E)
         | E : parse_number ?s = Some (?n, ?r) |- _ =>
             learn (parse_number_length s n r E)
         | E : Some _ = Some _ |- _ => injection E as ? ?
         end;
  repeat match goal with
         | H : context [List.length (js ?x)] |- _ =>
             let n := eval vm_compute in (List.length (js x)) in
             change (List.length (js x)) with n in H
         end;
  subst; cbn [List.length] in *.

(** A successful run needs no more fuel than the characters it reads. *)
Lemma parse_fuel_bound (F : nat) :
  (forall s v r,
      parse_value F s = Some (v, r) ->
      (List.length r < List.length s)%nat
      /\ parse_value (List.length s - List.length r) s = Some (v, r))
  /\ (forall acc s v r,
        parse_elements F acc s = Some (v, r) ->
        (List.length r < List.length s)%nat
        /\ parse_elements (List.length s - List.length r) acc s = Some (v, r))
  /\ (forall acc s v r,
        parse_members F acc s = Some (v, r) ->
        (List.length r < List.length s)%nat
        /\ parse_members (List.length s - List.length r) acc s = Some (v, r)).
Proof.
  induction F as [|F (IHv & IHe & IHm)];
    [repeat split; intros; discriminate|].
  assert (Mv := fun f => proj1 (parse_fuel_mono f)).
  assert (Me := fun f => proj1 (proj2 (parse_fuel_mono f))).
  assert (Mm := fun f => proj2 (proj2 (parse_fuel_mono f))).
  split; [|split].
  - intros s v r H. cbn [parse_value parse_elements parse_members] in H. parser_cases H;
      repeat match goal with
             | E : parse_elements F _ _ = Some _ |- _ =>
                 apply IHe in E; destruct E as [? E]
             | E : parse_members F _ _ = Some _ |- _ =>
                 apply IHm in E; destruct E as [? E]
             end;
      consumed; (split; [lia|]);
      (destruct (List.length s - List.length r)%nat as [|k] eqn:K; [lia|]);
      cbn [parse_value parse_elements parse_members]; replay;
      first [reflexivity
            | eapply Me; [|eassumption]; lia
            | eapply Mm; [|eassumption]; lia].
  - intros acc s v r H. cbn [parse_value parse_elements parse_members] in H. parser_cases H;
      repeat match goal with
             | E : parse_value F _ = Some _ |- _ =>
                 apply IHv in E; destruct E as [? E]
             | E : parse_elements F _ _ = Some _ |- _ =>
                 apply IHe in E; destruct E as [? E]
             end;
      consumed; (split; [lia|]);
      (destruct (List.length s - List.length r)%nat as [|k] eqn:K; [lia|]);
      repeat match goal with
             | E : parse_value (_ - _) _ = Some _ |- _ =>
                 apply (Mv _ k) in E; [|lia]
             end;
      cbn [parse_value parse_elements parse_members]; replay;
      first [reflexivity | eapply Me; [|eassumption]; lia].
  - intros acc s v r H. cbn [parse_value parse_elements parse_members] in H. parser_cases H;
      repeat match goal with
             | E : parse_value F _ = Some _ |- _ =>
                 apply IHv in E; destruct E as [? E]
             | E : parse_members F _ _ = Some _ |- _ =>
                 apply IHm in E; destruct E as [? E]
             end;
      consumed; (split; [lia|]);
      (destruct (List.length s - List.length r)%nat as [|k] eqn:K; [lia|]);
      repeat match goal with
             | E : parse_value (_ - _) _ = Some _ |- _ =>
                 apply (Mv _ k) in E; [|lia]
             end;
      cbn [parse_value parse_elements parse_members]; replay;
      first [reflexivity | eapply Mm; [|eassumption]; lia].
Qed.

(** The fuel of [JSON_parse] is enough: no other amount of fuel finds a
    value where [JSON_parse] finds none. *)
Lemma JSON_parse_fuel (text : jsstring) (F : nat) (v : json) (r : jsstring) :
  parse_value F text = Some (v, r) ->
  parse_value (S (List.length text)) text = Some (v, r).
Proof.
  intros H. apply (proj1 (parse_fuel_bound F)) in H as [L H].
  eapply (proj1 (parse_fuel_mono _)); [|exact H]. lia.
Qed.

(** Numbers in JSON texts are rounded as well: [1e400] is read as
    [Infinity], which is written as [null]; [0.10000000000000000001] is
    read as [0.1]; and a number is written with as few digits as give it
    back. *)
Example JSON_numbers :
  JSON_parse (js "[1e400]") = Normal (JArr [JNum (Infinity false)])
  /\ JSON_stringify (JArr [JNum (Infinity false)]) = js "[null]"
  /\ JSON_parse (js "[0.10000000000000000001]")
     = JSON_parse (js "[0.1]")
  /\ JSON_stringify (JArr [JNum (num_add (Number (js "0.1")) (Number (js "0.2")));
                           JNum (Number (js "1e21"));
                           JNum (Number (js "123456789012345678901"));
                           JNum (Number (js "-0"));
                           JNum (Number (js "5e-324"));
                           JNum (Number (js "0.000001234"))])
     = js "[0.30000000000000004,1e+21,123456789012345680000,0,5e-324,0.000001234]".
Proof. repeat split; vm_compute; reflexivity. Qed.

(** Nested arrays and objects parse with the fuel of [JSON_parse]. *)
Example JSON_parse_nested :
  JSON_parse (jq " [[[[ ]]], {'k': [null, true, {'1': -2.5e1}]}] ")
  = Normal (JArr [JArr [JArr [JArr []]];
                  JObj [(js "k", JArr [JNull; JBool true;
                                       JObj [(js "1", JNum (of_Z (-25)))]])]]).
Proof. reflexivity. Qed.

(** ** Sorting *)

Lemma str_ltb_asym (a b : jsstring) : str_ltb a b = true -> str_ltb b a = false.
Proof.
  revert b. induction a as [|x a IH]; intros [|y b]; cbn; try easy.
  intros H. apply orb_true_iff in H as [H|H].
  - apply Z.ltb_lt in H.
    destruct (Z.ltb_spec y x); [lia|]. destruct (Z.eqb_spec y x); [lia|].
    reflexivity.
  - apply andb_true_iff in H as [E H]. apply Z.eqb_eq in E. subst y.
    rewrite Z.ltb_irrefl, Z.eqb_refl. cbn. now apply IH.
Qed.

Lemma str_ltb_irrefl (a : jsstring) : str_ltb a a = false.
Proof.
  induction a as [|x a IH]; [reflexivity|]. cbn.
  now rewrite Z.ltb_irrefl, Z.eqb_refl, IH.
Qed.

Lemma str_ltb_total (a b : jsstring) :
  str_ltb a b = false -> str_ltb b a = false -> a = b.
Proof.
  revert b. induction a as [|x a IH]; intros [|y b]; cbn; try easy.
  intros H1 H2.
  apply orb_false_iff in H1 as [L1 E1]. apply orb_false_iff in H2 as [L2 E2].
  apply Z.ltb_ge in L1, L2. assert (x = y) by lia. subst y.
  rewrite Z.eqb_refl in E1, E2. cbn in E1, E2. f_equal. now apply IH.
Qed.

Lemma str_ltb_trans (a b c : jsstring) :
  str_ltb a b = true -> str_ltb b c = true -> str_ltb a c = true.
Proof.
  revert b c. induction a as [|x a IH]; intros [|y b] [|z c]; cbn; try easy.
  intros H1 H2.
  apply orb_true_iff in H1. apply orb_true_iff in H2. apply orb_true_iff.
  destruct H1 as [H1|H1], H2 as [H2|H2];
    rewrite ?andb_true_iff, ?Z.ltb_lt, ?Z.eqb_eq in *.
  - left. lia.
  - left. lia.
  - left. lia.
  - right. destruct H1 as [-> H1], H2 as [-> H2]. split; [reflexivity|].
    now apply (IH b c).
Qed.

Lemma str_le_lt_trans (x z y : jsstring) :
  str_ltb z x = false -> str_ltb z y = true -> str_ltb x y = true.
Proof.
  intros H1 H2. destruct (str_ltb x y) eqn:E; [reflexivity|].
  destruct (str_ltb y x) eqn:F.
  - rewrite (str_ltb_trans z y x H2 F) in H1. discriminate.
  - rewrite (str_ltb_total x y E F) in H1. congruence.
Qed.

Section SortFacts.
Context {A : Type} (key : A -> jsstring).

Lemma sort_insert_perm (x : A) (l : list A) :
  Permutation (sort_insert key x l) (x :: l).
Proof.
  induction l as [|y l IH]; cbn; [apply Permutation_refl|].
  destruct (str_ltb (key y) (key x)); [|apply Permutation_refl].
  apply perm_trans with (y :: x :: l); [now apply perm_skip|apply perm_swap].
Qed.

Lemma sort_by_perm (l : list A) : Permutation (sort_by key l) l.
Proof.
  induction l as [|x l IH]; cbn; [constructor|].
  apply perm_trans with (x :: sort_by key l);
    [apply sort_insert_perm|now apply perm_skip].
Qed.

Lemma sort_insert_sorted (x : A) (l : list A) :
  Sorted (in_order key) l -> Sorted (in_order key) (sort_insert key x l).
Proof.
  induction 1 as [|y l Hs IH Hd]; cbn; [repeat constructor|].
  destruct (str_ltb (key y) (key x)) eqn:E.
  - constructor; [exact IH|].
    destruct Hd as [|z l' Hz]; cbn.
    + constructor. unfold in_order. now apply str_ltb_asym.
    + destruct (str_ltb (key z) (key x)); constructor;
        [exact Hz|unfold in_order; now apply str_ltb_asym].
  - repeat constructor; assumption.
Qed.

Lemma sort_by_sorted (l : list A) : Sorted (in_order key) (sort_by key l).
Proof.
  induction l as [|x l IH]; cbn; [constructor|].
  now apply sort_insert_sorted.
Qed.

Lemma sort_by_Forall (P : A -> Prop) (l : list A) :
  Forall P l -> Forall P (sort_by key l).
Proof.
  intros H. eapply Permutation_Forall; [|exact H].
  apply Permutation_sym, sort_by_perm.
Qed.
End SortFacts.

Lemma sort_insert_strings (x : jsstring) (l : list jsstring) :
  sort_insert ToString (JStr x) (map JStr l)
  = map JStr (sort_insert (fun s => s) x l).
Proof.
  induction l as [|y l IH]; [reflexivity|].
  cbn [map sort_insert ToString].
  destruct (str_ltb y x); [|reflexivity]. cbn [map]. now rewrite IH.
Qed.

(** On strings the sort of the platform is the sort of the strings. *)
Lemma Array_sort_strings (l : list jsstring) :
  Array_sort (map JStr l) = map JStr (sort_by (fun s => s) l).
Proof.
  unfold Array_sort. induction l as [|x l IH]; [reflexivity|].
  cbn [map sort_by]. now rewrite IH, sort_insert_strings.
Qed.

(** The sort puts distinct strings in ascending order and keeps them. *)
Lemma sort_by_ascending (l : list jsstring) :
  NoDup l -> sorted_unique_of l (sort_by (fun s => s) l).
Proof.
  intros D. assert (P := sort_by_perm (fun s : jsstring => s) l).
  split.
  - apply Sorted_StronglySorted.
    + intros a b c. apply str_ltb_trans.
    + assert (D' : NoDup (sort_by (fun s => s) l))
        by (apply (Permutation_NoDup (Permutation_sym P)); exact D).
      pose proof (sort_by_sorted (fun s : jsstring => s) l) as S.
      clear P D. induction S as [|a r _ IH Hd]; constructor.
      * apply IH. now inversion D'.
      * destruct Hd as [|b r' Hab]; constructor.
        unfold in_order in Hab. destruct (str_ltb a b) eqn:E; [reflexivity|].
        rewrite (str_ltb_total a b E Hab) in D'.
        inversion_clear D' as [|? ? N _]. destruct N. now left.
  - intros x. split; apply Permutation_in;
      [exact P|apply Permutation_sym; exact P].
Qed.

(** There is one such list only. *)
Lemma sorted_unique_of_unique (ids l l' : list jsstring) :
  sorted_unique_of ids l -> sorted_unique_of ids l' -> l = l'.
Proof.
  intros [A M] [A' M'].
  assert (S : forall x, In x l <-> In x l')
    by (intros x; now rewrite M, M').
  clear M M'. revert l' A' S.
  induction A as [|a r Ar IH Fa]; intros l' A' S.
  - destruct l' as [|b r']; [reflexivity|]. destruct (proj2 (S b)). now left.
  - destruct A' as [|b r' Ar' Fb]; [destruct (proj1 (S a)); now left|].
    rewrite Forall_forall in Fa, Fb.
    assert (E : a = b).
    { destruct (proj1 (S a) ltac:(now left)) as [E|I]; [now symmetry|].
      destruct (proj2 (S b) ltac:(now left)) as [E|I']; [exact E|].
      pose proof (Fa _ I') as L1. pose proof (Fb _ I) as L2.
      now rewrite (str_ltb_asym _ _ L1) in L2. }
    subst b. f_equal. apply IH; [exact Ar'|].
    intros x. split; intros I.
    + destruct (proj1 (S x) ltac:(now right)) as [E|I']; [|exact I'].
      subst x. pose proof (Fa _ I) as L. now rewrite str_ltb_irrefl in L.
    + destruct (proj2 (S x) ltac:(now right)) as [E|I']; [|exact I'].
      subst x. pose proof (Fb _ I) as L. now rewrite str_ltb_irrefl in L.
Qed.

(** ** The link encoding *)

Lemma encode_decode_strings (l : list jsstring) :
  l <> [] -> Forall (Forall code_unit) l ->
  exists encoded,
    encodeStarred (map JStr l) = Normal encoded
    /\ Forall b64url_char encoded
    /\ decodeStarred encoded = map JStr (sort_by (fun s => s) l).
Proof.
  intros N H. unfold encodeStarred.
  destruct l as [|x l]; [easy|]. cbn [map is_empty].
  change (JStr x :: map JStr l) with (map JStr (x :: l)).
  rewrite Array_sort_strings.
  set (sorted := sort_by (fun s => s) (x :: l)).
  assert (Hs : Forall (Forall code_unit) sorted) by now apply sort_by_Forall.
  destruct (utf8_round_trip _ (JSON_stringify_strings_wf16 sorted Hs))
    as (bs & He & Hb & Hd).
  rewrite He. cbn [bind].
  destruct (base64url_round_trip bs Hb) as (Hbtoa & Hatob & Hurl & Hne).
  rewrite Hbtoa. cbn [bind]. eexists. split; [reflexivity|].
  split; [exact Hurl|].
  unfold decodeStarred.
  assert (Nb : bs <> []).
  { intros ->. rewrite JSON_stringify_strings in He. cbn in He.
    destruct (utf8_encode _); discriminate. }
  specialize (Hne Nb).
  destruct (strip_trailing_eq _) as [|c e] eqn:E; [easy|].
  cbn [is_empty]. rewrite Hatob. cbn [bind]. rewrite Hd. cbn [bind].
  rewrite JSON_parse_stringify_strings by exact Hs. reflexivity.
Qed.

(** With strings starred, [persist] completes normally: the URIError
    of [encodeURIComponent] does not arise. *)
Lemma persist_completes (w : World) (l : list jsstring) :
  starred w = map JStr l -> Forall (Forall code_unit) l ->
  snd (persist w) = Normal tt.
Proof.
  intros E H. unfold persist, writeHash. rewrite E.
  destruct l as [|x l]; [reflexivity|].
  destruct (encode_decode_strings (x :: l) ltac:(discriminate) H)
    as (encoded & -> & _).
  reflexivity.
Qed.

(** C6: for a non-empty set of identifier strings, decoding the link
    encoding gives its members in ascending order, each once, and that
    is the only list it can be; the empty set encodes to the empty
    string, and writing it leaves the URL without a fragment. *)
Theorem link_round_trip :
  (forall ids : list jsstring,
      ids <> [] -> NoDup ids -> Forall (Forall code_unit) ids ->
      exists encoded decoded,
        encodeStarred (map JStr ids) = Normal encoded
        /\ decodeStarred encoded = map JStr decoded
        /\ sorted_unique_of ids decoded
        /\ forall l, sorted_unique_of ids l -> l = decoded)
  /\ encodeStarred [] = Normal []
  /\ (forall loc,
        writeHash [] loc = Normal (replaceState_path loc)
        /\ hash (replaceState_path loc) = []).
Proof.
  split; [|split; [reflexivity|intros loc; split; reflexivity]].
  intros ids N D H.
  destruct (encode_decode_strings ids N H) as (encoded & E & _ & Dec).
  exists encoded, (sort_by (fun s => s) ids).
  pose proof (sort_by_ascending ids D) as S.
  repeat split; try assumption; try apply S.
  intros l Hl. exact (sorted_unique_of_unique ids _ _ Hl S).
Qed.

Lemma link_round_trip_witness :
  exists encoded decoded,
    encodeStarred [JStr (js "s2"); JStr (js "s1")] = Normal encoded
    /\ decodeStarred encoded = map JStr decoded
    /\ sorted_unique_of [js "s2"; js "s1"] decoded
    /\ forall l, sorted_unique_of [js "s2"; js "s1"] l -> l = decoded.
Proof.
  apply (proj1 link_round_trip [js "s2"; js "s1"]).
  - discriminate.
  - repeat constructor; simpl; intuition discriminate.
  - repeat constructor; unfold code_unit; lia.
Defined.

(** The example of the round trip: [s2] and [s1] come back as [s1],
    [s2]. *)
Example link_round_trip_example :
  encodeStarred [JStr (js "s2"); JStr (js "s1")] = Normal (js "WyJzMSIsInMyIl0")
  /\ decodeStarred (js "WyJzMSIsInMyIl0") = [JStr (js "s1"); JStr (js "s2")].
Proof. split; vm_compute; reflexivity. Qed.

(** What [saveStarredToLS] stored, [loadStarredFromLS] reads back. *)
Lemma storage_round_trip (ids : list jsstring) (st : Storage) :
  denied st = false -> full st = false ->
  Forall (Forall code_unit) ids ->
  loadStarredFromLS (saveStarredToLS (map JStr ids) st) = map JStr ids.
Proof.
  intros D F H. unfold saveStarredToLS, setItem. rewrite D, F.
  cbn [orb try_catch]. unfold loadStarredFromLS, getItem.
  cbn [denied slot bind].
  rewrite JSON_parse_stringify_strings by exact H.
  rewrite JSON_stringify_strings. reflexivity.
Qed.

(** ** Defensive decoding *)

(** Every failure inside [decodeStarred] ends in the empty array. *)
Lemma decodeStarred_failures (encoded : jsstring) :
  let b64 := replace_all 95 47 (replace_all 45 43 encoded) in
  (encoded = [] -> decodeStarred encoded = [])
  /\ (forall e, atob b64 = Throw e -> decodeStarred encoded = [])
  /\ (forall bytes e,
        atob b64 = Normal bytes -> utf8_decode bytes = Throw e ->
        decodeStarred encoded = [])
  /\ (forall bytes text e,
        atob b64 = Normal bytes -> utf8_decode bytes = Normal text ->
        JSON_parse text = Throw e ->
        decodeStarred encoded = [])
  /\ (forall bytes text v,
        atob b64 = Normal bytes -> utf8_decode bytes = Normal text ->
        JSON_parse text = Normal v -> (forall l, v <> JArr l) ->
        decodeStarred encoded = []).
Proof.
  cbv zeta. unfold decodeStarred.
  destruct encoded as [|c r]; [repeat split|]. cbn [is_empty].
  split; [discriminate|].
  split; [intros e ->; reflexivity|].
  split; [intros bytes e H1 H2; rewrite H1; cbn [bind]; now rewrite H2|].
  split.
  - intros bytes text e H1 H2 H3. rewrite H1. cbn [bind].
    rewrite H2. cbn [bind]. now rewrite H3.
  - intros bytes text v H1 H2 H3 Hv. rewrite H1. cbn [bind].
    rewrite H2. cbn [bind]. rewrite H3. cbn.
    destruct v; try reflexivity. now destruct (Hv elems).
Qed.

(** [decodeStarred] returns the empty array, or the array that the
    three decoding steps arrive at. *)
Lemma decodeStarred_total (encoded : jsstring) :
  decodeStarred encoded = []
  \/ exists bytes text l,
       atob (replace_all 95 47 (replace_all 45 43 encoded)) = Normal bytes
       /\ utf8_decode bytes = Normal text
       /\ JSON_parse text = Normal (JArr l)
       /\ decodeStarred encoded = l.
Proof.
  unfold decodeStarred. destruct encoded as [|c r]; [now left|].
  cbn [is_empty].
  destruct (atob _) as [bytes|] eqn:A; [|now left]. cbn [bind].
  destruct (utf8_decode bytes) as [text|] eqn:U; [|now left]. cbn [bind].
  destruct (JSON_parse text) as [v|] eqn:P; [|now left]. cbn [bind].
  destruct v; try (now left). right. now exists bytes, text, elems.
Qed.

(** Every failure inside [loadStarredFromLS] ends in the empty array. *)
Lemma loadStarredFromLS_failures (st : Storage) :
  (denied st = true -> loadStarredFromLS st = [])
  /\ (slot st = None -> loadStarredFromLS st = [])
  /\ (slot st = Some [] -> loadStarredFromLS st = [])
  /\ (forall raw e,
        slot st = Some raw -> JSON_parse raw = Throw e ->
        loadStarredFromLS st = [])
  /\ (forall raw v,
        slot st = Some raw -> JSON_parse raw = Normal v ->
        (forall l, v <> JArr l) ->
        loadStarredFromLS st = []).
Proof.
  unfold loadStarredFromLS, getItem.
  split; [intros ->; reflexivity|].
  destruct (denied st); [repeat split|]. cbn [bind].
  split; [intros ->; reflexivity|].
  split; [intros ->; reflexivity|].
  split.
  - intros raw e -> P. destruct raw; [reflexivity|].
    cbn [is_empty]. now rewrite P.
  - intros raw v -> P Hv. destruct raw; [reflexivity|].
    cbn [is_empty]. rewrite P. cbn.
    destruct v; try reflexivity. now destruct (Hv elems).
Qed.

(** C7: decoding a link or a stored value always returns an array, the
    empty one after a bad base64 alphabet, invalid UTF-8, invalid JSON or
    JSON that is no array; and [init], which reads the stored value when
    the link supplies no set, ends with the empty starred set when the
    stored value does not decode. *)
Theorem decoding_is_defensive :
  (forall encoded,
      let b64 := replace_all 95 47 (replace_all 45 43 encoded) in
      (decodeStarred encoded = []
       \/ exists bytes text l,
            atob b64 = Normal bytes /\ utf8_decode bytes = Normal text
            /\ JSON_parse text = Normal (JArr l)
            /\ decodeStarred encoded = l)
      /\ (forall e, atob b64 = Throw e -> decodeStarred encoded = [])
      /\ (forall bytes e,
            atob b64 = Normal bytes -> utf8_decode bytes = Throw e ->
            decodeStarred encoded = [])
      /\ (forall bytes text e,
            atob b64 = Normal bytes -> utf8_decode bytes = Normal text ->
            JSON_parse text = Throw e ->
            decodeStarred encoded = [])
      /\ (forall bytes text v,
            atob b64 = Normal bytes -> utf8_decode bytes = Normal text ->
            JSON_parse text = Normal v -> (forall l, v <> JArr l) ->
            decodeStarred encoded = []))
  /\ (forall st raw,
        slot st = Some raw ->
        (exists e, JSON_parse raw = Throw e)
        \/ (exists v, JSON_parse raw = Normal v /\ forall l, v <> JArr l) ->
        loadStarredFromLS st = [])
  /\ (forall get w raw,
        slot (localStorage w) = Some raw ->
        (exists e, JSON_parse raw = Throw e)
        \/ (exists v, JSON_parse raw = Normal v /\ forall l, v <> JArr l) ->
        readHashStarred get (location w) = None
        \/ readHashStarred get (location w) = Some [] ->
        starred (init get w) = []
        /\ localStorage (init get w) = localStorage w).
Proof.
  assert (L : forall st raw,
             slot st = Some raw ->
             (exists e, JSON_parse raw = Throw e)
             \/ (exists v, JSON_parse raw = Normal v
                           /\ forall l, v <> JArr l) ->
             loadStarredFromLS st = []).
  { intros st raw Hs [[e P]|(v & P & Hv)].
    - exact (proj1 (proj2 (proj2 (proj2 (loadStarredFromLS_failures st))))
               raw e Hs P).
    - exact (proj2 (proj2 (proj2 (proj2 (loadStarredFromLS_failures st))))
               raw v Hs P Hv). }
  split; [|split; [exact L|]].
  - intros encoded. split; [apply decodeStarred_total|].
    exact (proj2 (decodeStarred_failures encoded)).
  - intros get w raw Hs Hbad Hlink.
    rewrite (init_without_link get w Hlink). cbn [starred localStorage].
    now rewrite (L _ raw Hs Hbad).
Qed.

Lemma decoding_is_defensive_witness :
  starred (init plain_query_get broken_storage) = []
  /\ localStorage (init plain_query_get broken_storage)
     = localStorage broken_storage.
Proof.
  apply (proj2 (proj2 decoding_is_defensive)
           plain_query_get broken_storage (js "{bad")).
  - reflexivity.
  - left. exists SyntaxError. reflexivity.
  - left. reflexivity.
Defined.

(** The four kinds of malformed link the specification names. *)
Example decodeStarred_malformed :
  decodeStarred (js "!!!") = []          (* no base64 *)
  /\ decodeStarred (js "_w") = []        (* the byte 255: no UTF-8 *)
  /\ decodeStarred (js "e2JhZA") = []    (* the text {bad: no JSON *)
  /\ decodeStarred (js "InMxIg") = [].   (* a JSON string: no array *)
Proof. repeat split. Qed.

(** * Further properties of the code *)

(** ** Sets of strings *)

Lemma has_str_in (s : list jsstring) (x : jsstring) :
  JSSet.has str_eqb s x = true <-> In x s.
Proof.
  unfold JSSet.has. rewrite existsb_exists. split.
  - intros (y & Hy & E). apply str_eqb_eq in E. now subst.
  - intros H. exists x. split; [exact H|apply str_eqb_refl].
Qed.

Lemma add_keeps {A} (eqb : A -> A -> bool) (s : list A) (y x : A) :
  In x s -> In x (JSSet.add eqb s y).
Proof.
  intros H. unfold JSSet.add. destruct (JSSet.has eqb s y); [exact H|].
  apply in_or_app. now left.
Qed.

Lemma add_str_in (s : list jsstring) (y : jsstring) :
  In y (JSSet.add str_eqb s y).
Proof.
  unfold JSSet.add. destruct (JSSet.has str_eqb s y) eqn:E.
  - now apply has_str_in.
  - apply in_or_app. right. now left.
Qed.

Lemma add_str_NoDup (s : list jsstring) (y : jsstring) :
  NoDup s -> NoDup (JSSet.add str_eqb s y).
Proof.
  intros H. unfold JSSet.add. destruct (JSSet.has str_eqb s y) eqn:E;
    [exact H|].
  apply NoDup_app; [exact H|repeat constructor; easy|].
  intros x Hx [<-|[]]. apply has_str_in in Hx. congruence.
Qed.

(** ** The pairs behind the conflicts *)

Lemma findConflicts_inner_keeps (si : Session) (later : list Session) :
  forall conflicting x,
    In x conflicting -> In x (findConflicts_inner si later conflicting).
Proof.
  induction later as [|sj later IH]; intros c x H; cbn [findConflicts_inner];
    [exact H|].
  apply IH. destruct (overlaps si sj); [|exact H]. now do 2 apply add_keeps.
Qed.

Lemma findConflicts_outer_keeps (sessions : list Session) :
  forall conflicting x,
    In x conflicting -> In x (findConflicts_outer sessions conflicting).
Proof.
  induction sessions as [|si later IH]; intros c x H;
    cbn [findConflicts_outer]; [exact H|].
  apply IH. now apply findConflicts_inner_keeps.
Qed.

Lemma findConflicts_inner_adds (si sj : Session) (l1 l2 : list Session) :
  overlaps si sj = true ->
  forall conflicting,
    In (session_id si) (findConflicts_inner si (l1 ++ sj :: l2) conflicting)
    /\ In (session_id sj) (findConflicts_inner si (l1 ++ sj :: l2) conflicting).
Proof.
  intros H. induction l1 as [|b l1 IH]; intros c;
    cbn [app findConflicts_inner]; [|apply IH].
  rewrite H. split; apply findConflicts_inner_keeps.
  - apply add_keeps, add_str_in.
  - apply add_str_in.
Qed.

Lemma findConflicts_outer_adds (a b : Session) (l1 l2 l3 : list Session) :
  overlaps a b = true ->
  forall conflicting,
    In (session_id a)
       (findConflicts_outer (l1 ++ a :: l2 ++ b :: l3) conflicting)
    /\ In (session_id b)
         (findConflicts_outer (l1 ++ a :: l2 ++ b :: l3) conflicting).
Proof.
  intros H. induction l1 as [|c l1 IH]; intros cf;
    cbn [app findConflicts_outer]; [|apply IH].
  destruct (findConflicts_inner_adds a b l2 l3 H cf) as [Ha Hb].
  split; now apply findConflicts_outer_keeps.
Qed.

Lemma findConflicts_inner_pair (si : Session) (later : list Session) :
  forall conflicting x,
    In x (findConflicts_inner si later conflicting) ->
    In x conflicting \/
    exists l1 sj l2, later = l1 ++ sj :: l2 /\ overlaps si sj = true /\
                     (x = session_id si \/ x = session_id sj).
Proof.
  induction later as [|sj later IH]; cbn [findConflicts_inner];
    intros c x H; [now left|].
  apply IH in H as [H|(l1 & t & l2 & -> & Ho & Hx)].
  - destruct (overlaps si sj) eqn:E; [|now left].
    apply add_in in H as [H| ->].
    + apply add_in in H as [H| ->]; [now left|].
      right. exists [], sj, later. auto.
    + right. exists [], sj, later. auto.
  - right. exists (sj :: l1), t, l2. auto.
Qed.

Lemma findConflicts_outer_pair (sessions : list Session) :
  forall conflicting x,
    In x (findConflicts_outer sessions conflicting) ->
    In x conflicting \/
    exists l1 a l2 b l3,
      sessions = l1 ++ a :: l2 ++ b :: l3 /\ overlaps a b = true /\
      (x = session_id a \/ x = session_id b).
Proof.
  induction sessions as [|si later IH]; cbn [findConflicts_outer];
    intros c x H; [now left|].
  apply IH in H as [H|(l1 & a & l2 & b & l3 & -> & Ho & Hx)].
  - apply findConflicts_inner_pair in H as [H|(l2 & sj & l3 & -> & Ho & Hx)];
      [now left|].
    right. exists [], si, l2, sj, l3. auto.
  - right. exists (si :: l1), a, l2, b, l3. auto.
Qed.

Lemma perm_pair {A} (l1 : list A) (a : A) (l2 : list A) (b : A) (l3 : list A) :
  Permutation (l1 ++ a :: l2 ++ b :: l3) (a :: b :: l1 ++ l2 ++ l3).
Proof.
  apply Permutation_sym, Permutation_cons_app.
  rewrite (app_assoc l1 l2 (b :: l3)), (app_assoc l1 l2 l3).
  apply Permutation_cons_app. reflexivity.
Qed.

(** An identifier is in the result exactly when its session is one of
    two sessions of the list that overlap. *)
Lemma findConflicts_iff (sessions : list Session) (x : jsstring) :
  In x (findConflicts sessions) <->
  exists a b rest,
    Permutation sessions (a :: b :: rest) /\ overlaps a b = true
    /\ x = session_id a.
Proof.
  split.
  - intros H. apply findConflicts_outer_pair in H as [[]|H].
    destruct H as (l1 & a & l2 & b & l3 & -> & Ho & [->| ->]).
    + exists a, b, (l1 ++ l2 ++ l3). repeat split; [|exact Ho].
      apply perm_pair.
    + exists b, a, (l1 ++ l2 ++ l3).
      repeat split; [|now rewrite overlaps_sym].
      apply perm_trans with (a :: b :: l1 ++ l2 ++ l3);
        [apply perm_pair|apply perm_swap].
  - intros (a & b & rest & P & Ho & ->).
    assert (Ia : In a sessions).
    { apply (Permutation_in a (Permutation_sym P)). now left. }
    apply in_split in Ia as (l1 & l2 & ->).
    apply Permutation_sym, Permutation_cons_app_inv in P.
    assert (Ib : In b (l1 ++ l2)).
    { apply (Permutation_in b P). now left. }
    apply in_app_or in Ib as [Ib|Ib]; apply in_split in Ib as (m1 & m2 & ->).
    + rewrite overlaps_sym in Ho. rewrite <- app_assoc. cbn [app].
      apply (findConflicts_outer_adds b a m1 m2 l2 Ho).
    + apply (findConflicts_outer_adds a b l1 m1 m2 Ho).
Qed.

(** X1: the result of [findConflicts] holds an identifier exactly when
    the list has two sessions, one before the other, that overlap and the
    identifier is that of one of them. *)
Theorem findConflicts_pairs (sessions : list Session) (x : jsstring) :
  In x (findConflicts sessions) <->
  exists l1 a l2 b l3,
    sessions = l1 ++ a :: l2 ++ b :: l3 /\ overlaps a b = true
    /\ (x = session_id a \/ x = session_id b).
Proof.
  split.
  - intros H. now apply findConflicts_outer_pair in H as [[]|H].
  - intros (l1 & a & l2 & b & l3 & -> & Ho & [->| ->]);
      now apply (findConflicts_outer_adds a b l1 l2 l3 Ho).
Qed.

(** X2: the set of identifiers that [findConflicts] returns does not
    depend on the order of the sessions. *)
Theorem findConflicts_order_independent (l l' : list Session) (x : jsstring) :
  Permutation l l' ->
  (In x (findConflicts l) <-> In x (findConflicts l')).
Proof.
  intros P. rewrite !findConflicts_iff.
  split; intros (a & b & rest & Q & H); exists a, b, rest; split; auto.
  - apply perm_trans with l; [now apply Permutation_sym|exact Q].
  - apply perm_trans with l'; [exact P|exact Q].
Qed.

Lemma findConflicts_order_independent_witness :
  In (session_id sessionA) (findConflicts [sessionA; sessionB; sessionC])
  <-> In (session_id sessionA) (findConflicts [sessionC; sessionB; sessionA]).
Proof.
  apply findConflicts_order_independent.
  apply perm_trans with [sessionB; sessionC; sessionA].
  - apply (Permutation_cons_append [sessionB; sessionC] sessionA).
  - apply perm_swap.
Defined.

Lemma findConflicts_inner_NoDup (si : Session) (later : list Session) :
  forall conflicting,
    NoDup conflicting -> NoDup (findConflicts_inner si later conflicting).
Proof.
  induction later as [|sj later IH]; intros c H; cbn [findConflicts_inner];
    [exact H|].
  apply IH. destruct (overlaps si sj); [|exact H]. now do 2 apply add_str_NoDup.
Qed.

Lemma findConflicts_outer_NoDup (sessions : list Session) :
  forall conflicting,
    NoDup conflicting -> NoDup (findConflicts_outer sessions conflicting).
Proof.
  induction sessions as [|si later IH]; intros c H;
    cbn [findConflicts_outer]; [exact H|].
  apply IH. now apply findConflicts_inner_NoDup.
Qed.

Lemma findConflicts_NoDup (sessions : list Session) :
  NoDup (findConflicts sessions).
Proof. apply findConflicts_outer_NoDup. constructor. Qed.

(** X3: the result of [findConflicts] lists no identifier twice, and it
    lists identifiers of sessions of the list only. *)
Theorem findConflicts_is_set (sessions : list Session) :
  NoDup (findConflicts sessions)
  /\ forall x, In x (findConflicts sessions) -> In x (map session_id sessions).
Proof.
  split; [apply findConflicts_NoDup|].
  intros x H. apply findConflicts_in in H as (a & b & Ha & Hb & _ & [->| ->]);
    now apply in_map.
Qed.

Lemma not_in_nil {A} (l : list A) : (forall x, ~ In x l) -> l = [].
Proof. destruct l as [|a l]; [reflexivity|]. intros H. destruct (H a). now left. Qed.

(** X4: [findConflicts] returns the empty set exactly when no session of
    the list overlaps a later one; so for the empty list, for a single
    session, and for sessions each of which has a time missing or not
    read, or ends at the time at which it starts. *)
Theorem findConflicts_empty (sessions : list Session) :
  (findConflicts sessions = [] <->
   forall l1 a l2 b l3,
     sessions = l1 ++ a :: l2 ++ b :: l3 -> overlaps a b = false)
  /\ ((List.length sessions <= 1)%nat -> findConflicts sessions = [])
  /\ (Forall no_interval sessions -> findConflicts sessions = []).
Proof.
  assert (E : (forall l1 a l2 b l3,
                  sessions = l1 ++ a :: l2 ++ b :: l3 -> overlaps a b = false)
              -> findConflicts sessions = []).
  { intros H. apply not_in_nil. intros x Hx.
    apply findConflicts_outer_pair in Hx as [[]|Hx].
    destruct Hx as (l1 & a & l2 & b & l3 & E & Ho & _).
    rewrite (H _ _ _ _ _ E) in Ho. discriminate. }
  split; [split; [|exact E]|split].
  - intros H l1 a l2 b l3 ->.
    destruct (overlaps a b) eqn:Ho; [|reflexivity].
    destruct (findConflicts_outer_adds a b l1 l2 l3 Ho []) as [Ha _].
    unfold findConflicts in H. rewrite H in Ha. destruct Ha.
  - intros L. apply E. intros l1 a l2 b l3 ->.
    rewrite !length_app in L. cbn [List.length] in L.
    rewrite length_app in L. cbn [List.length] in L. lia.
  - intros F. apply E. intros l1 a l2 b l3 ->.
    apply no_interval_overlaps_l.
    rewrite Forall_forall in F. apply F. apply in_or_app. right. now left.
Qed.

Lemma findConflicts_empty_witness :
  findConflicts [coffee; session "lunch" "12:00" "12:00"] = [].
Proof.
  apply (proj2 (proj2 (findConflicts_empty
                         [coffee; session "lunch" "12:00" "12:00"]))).
  repeat constructor; apply same_time_string; reflexivity.
Defined.

(** X5: a session that starts at the time at which another one ends does
    not overlap it, in either order of the arguments. *)
Theorem overlaps_back_to_back (a b : Session) (e s : jsnum) :
  toMinutes (end_ a) = Some e -> toMinutes (start b) = Some s ->
  num_eqb e s = true ->
  overlaps a b = false /\ overlaps b a = false.
Proof.
  intros He Hs E.
  assert (H : overlaps a b = false).
  { unfold overlaps. rewrite He, Hs.
    destruct (toMinutes (start a)) as [aS|]; [|reflexivity].
    destruct (toMinutes (end_ b)) as [bE|]; [|reflexivity].
    destruct (num_eqb aS e || num_eqb s bE); [reflexivity|].
    apply num_eqb_not_ltb in E. rewrite E. apply andb_false_r. }
  split; [exact H|]. now rewrite overlaps_sym.
Qed.

Lemma overlaps_back_to_back_witness :
  overlaps sessionB sessionC = false /\ overlaps sessionC sessionB = false.
Proof.
  apply (overlaps_back_to_back sessionB sessionC (of_Z 630) (of_Z 630));
    vm_compute; reflexivity.
Defined.

Lemma split_app (sep : Z) (s t : jsstring) :
  split sep (s ++ sep :: t) = split sep s ++ split sep t.
Proof.
  induction s as [|c r IH]; cbn [app split].
  - now rewrite Z.eqb_refl.
  - rewrite IH. destruct (c =? sep); [reflexivity|].
    pose proof (split_nonempty sep r) as N.
    now destruct (split sep r).
Qed.

(** X6: [toMinutes] reads the first two fields only: what follows a
    further colon, seconds for one, does not change the result. *)
Theorem toMinutes_ignores_further_fields (s t : jsstring) :
  includes s 58 = true ->
  toMinutes (Some (s ++ 58 :: t)) = toMinutes (Some s).
Proof.
  intros I. unfold toMinutes.
  assert (I' : includes (s ++ 58 :: t) 58 = true).
  { unfold includes in *. rewrite existsb_app, I. reflexivity. }
  rewrite I, I', split_app.
  destruct (split_includes 58 s I) as (f1 & f2 & fs & ->).
  destruct s as [|c r]; [discriminate|]. reflexivity.
Qed.

Lemma toMinutes_ignores_further_fields_witness :
  toMinutes (Some (js "09:30" ++ 58 :: js "15")) = toMinutes (Some (js "09:30")).
Proof. apply toMinutes_ignores_further_fields. reflexivity. Defined.

(** ** The agenda view *)

Section SortWithFacts.
Context {A : Type} (comparefn : A -> A -> jsnum).

Lemma sort_with_insert_perm (x : A) (l : list A) :
  Permutation (sort_with_insert comparefn x l) (x :: l).
Proof.
  induction l as [|y l IH]; cbn; [apply Permutation_refl|].
  destruct (sorts_before comparefn y x); [|apply Permutation_refl].
  apply perm_trans with (y :: x :: l); [now apply perm_skip|apply perm_swap].
Qed.

Lemma sort_with_perm (l : list A) : Permutation (sort_with comparefn l) l.
Proof.
  induction l as [|x l IH]; cbn; [constructor|].
  apply perm_trans with (x :: sort_with comparefn l);
    [apply sort_with_insert_perm|now apply perm_skip].
Qed.

(** On elements that the comparator orders as a total preorder does,
    every element of the result is in order with every later one. *)
Variable R : A -> A -> Prop.
Variable P : A -> Prop.
Hypothesis R_trans : forall x y z, R x y -> R y z -> R x z.
Hypothesis before_R : forall x y,
  P x -> P y -> sorts_before comparefn y x = true -> R y x.
Hypothesis not_before_R : forall x y,
  P x -> P y -> sorts_before comparefn y x = false -> R x y.

Lemma sort_with_insert_sorted (x : A) (l : list A) :
  P x -> Forall P l -> StronglySorted R l ->
  StronglySorted R (sort_with_insert comparefn x l).
Proof.
  intros Px. induction l as [|y l IH]; cbn [sort_with_insert]; intros Pl S.
  - repeat constructor.
  - inversion_clear Pl as [|? ? Py Pl']. inversion_clear S as [|? ? S' F].
    destruct (sorts_before comparefn y x) eqn:E.
    + constructor; [now apply IH|].
      eapply Permutation_Forall;
        [apply Permutation_sym, sort_with_insert_perm|].
      constructor; [now apply before_R|exact F].
    + assert (Rxy : R x y) by now apply not_before_R.
      constructor; [now constructor|]. constructor; [exact Rxy|].
      eapply Forall_impl; [|exact F]. intros z Ryz.
      now apply R_trans with y.
Qed.

Lemma sort_with_sorted (l : list A) :
  Forall P l -> StronglySorted R (sort_with comparefn l).
Proof.
  induction l as [|x l IH]; cbn [sort_with]; intros Pl; [constructor|].
  inversion_clear Pl as [|? ? Px Pl'].
  apply sort_with_insert_sorted; [exact Px| |now apply IH].
  eapply Permutation_Forall; [apply Permutation_sym, sort_with_perm|exact Pl'].
Qed.
End SortWithFacts.

(** [Number] returns zero, or what one of the three kinds of literal
    denotes. *)
Lemma Number_cases (Q : jsnum -> Prop) :
  Q (of_Z 0) -> (forall r ds, Q (non_decimal r ds)) ->
  (forall s, Q (unsigned_decimal s)) ->
  (forall s, Q (num_neg (unsigned_decimal s))) ->
  forall str, Q (Number str).
Proof.
  intros H0 Hn Hu Hm str. unfold Number.
  destruct (trim str) as [|c1 t]; [exact H0|].
  destruct c1 as [|p|p]; try apply Hu.
  do 6 (try (destruct p as [p|p|]; try apply Hu)); [apply Hm|].
  destruct t as [|c2 ds]; [apply Hu|].
  destruct c2 as [|p|p]; try apply Hu.
  do 7 (try (destruct p as [p|p|]; try apply Hu; try apply Hn)).
Qed.

Lemma Number_exponent_ok (str : jsstring) : exponent_ok (Number str).
Proof.
  assert (U : forall s, exponent_ok (unsigned_decimal s)).
  { intros s. unfold unsigned_decimal.
    destruct (str_eqb s (js "Infinity")); [exact I|].
    destruct (span_digits s) as [ip r1].
    destruct (match r1 with 46 :: r => span_digits r | _ => ([], r1) end)
      as [fp r2].
    destruct (is_empty ip && is_empty fp); [exact I|].
    destruct (exponent_part r2); [apply of_decimal_in_range|exact I]. }
  apply Number_cases; [apply of_Z_in_range| |exact U|].
  - intros radix ds. unfold non_decimal. destruct ds; [exact I|].
    destruct (radix_value radix 0 _); [apply of_Z_in_range|exact I].
  - intros s. apply num_neg_in_range, U.
Qed.

Lemma toMinutes_exponent_ok (timeStr : option jsstring) (x : jsnum) :
  toMinutes timeStr = Some x -> exponent_ok x.
Proof.
  unfold toMinutes. destruct timeStr as [s|]; [|discriminate].
  destruct (is_empty s || negb (includes s 58)); [discriminate|].
  destruct (map Number (split 58 s)) as [|h [|m r]] eqn:E; try discriminate.
  destruct (isNaN h || isNaN m); [discriminate|].
  intros H. injection H as <-.
  apply num_add_in_range; [apply num_mul_in_range|].
  assert (I : In m (map Number (split 58 s))) by (rewrite E; right; now left).
  apply in_map_iff in I as (f & <- & _). apply Number_exponent_ok.
Qed.

(** The start of a session as the agenda sorts it: a time that is
    missing or not read counts as 0. *)
Lemma start_key_exponent_ok (a : Session) : exponent_ok (start_key a).
Proof.
  unfold start_key. destruct (toMinutes (start a)) as [x|] eqn:E;
    [now apply (toMinutes_exponent_ok (start a))|apply of_Z_in_range].
Qed.

Lemma sorts_before_by_start (a b : Session) :
  sorts_before by_start a b = num_ltb (start_key a) (start_key b).
Proof.
  unfold sorts_before, by_start. apply num_sub_ltb; apply start_key_exponent_ok.
Qed.

Section AgendaFacts.
Variable starred : list json.

#[warnings="-notation-for-abbreviation"]
Local Notation day_sorted day :=
  (sort_with by_start (starred_sessions starred day)).
#[warnings="-notation-for-abbreviation"]
Local Notation day_cards day :=
  (map (fun session =>
          buildSessionCard starred session
            (JSSet.has str_eqb (findConflicts (day_sorted day))
               (session_id session)))
       (day_sorted day)).
#[warnings="-notation-for-abbreviation"]
Local Notation day_group day :=
  (match starred_sessions starred day with
   | [] => []
   | _ :: _ => [(day, day_cards day)]
   end).

Lemma renderAgenda_day_spec (st : AgendaLoop) (day : Day) :
  loop_groups (renderAgenda_day starred st day)
  = loop_groups st ++ day_group day
  /\ hasAny (renderAgenda_day starred st day)
     = hasAny st || negb (is_empty (starred_sessions starred day))
  /\ hasConflicts (renderAgenda_day starred st day)
     = hasConflicts st
       || negb (is_empty (findConflicts (day_sorted day))).
Proof.
  unfold renderAgenda_day. fold (starred_sessions starred day).
  destruct (starred_sessions starred day) as [|s l] eqn:E.
  - cbn. now rewrite app_nil_r, !orb_false_r.
  - cbn [is_empty negb loop_groups hasAny hasConflicts].
    repeat split.
    + now rewrite orb_true_r.
    + destruct (findConflicts _); cbn; [now rewrite orb_false_r|].
      now rewrite orb_true_r.
Qed.

Lemma renderAgenda_loop (days : list Day) :
  forall st,
    loop_groups (fold_left (renderAgenda_day starred) days st)
    = loop_groups st ++ flat_map (fun day => day_group day) days
    /\ hasAny (fold_left (renderAgenda_day starred) days st)
       = hasAny st
         || existsb (fun day => negb (is_empty (starred_sessions starred day)))
                    days
    /\ hasConflicts (fold_left (renderAgenda_day starred) days st)
       = hasConflicts st
         || existsb (fun day =>
                       negb (is_empty (findConflicts (day_sorted day))))
                    days.
Proof.
  induction days as [|day days IH]; intros st; cbn [fold_left flat_map existsb].
  - now rewrite app_nil_r, !orb_false_r.
  - destruct (IH (renderAgenda_day starred st day)) as (G & H1 & H2).
    destruct (renderAgenda_day_spec st day) as (G' & H1' & H2').
    rewrite G, H1, H2, G', H1', H2'.
    now rewrite <- app_assoc, !orb_assoc.
Qed.

(** A group of the view is the group of one of the days. *)
Lemma agenda_group_inv (days : list Day) (dom : AgendaDOM)
    (day : Day) (cards : list Card) :
  In (day, cards) (agenda_list (renderAgenda (Some days) starred dom)) ->
  In day days /\ starred_sessions starred day <> []
  /\ cards = day_cards day.
Proof.
  cbn [renderAgenda agenda_list].
  rewrite (proj1 (renderAgenda_loop days _)). cbn [loop_groups app].
  intros H. apply in_flat_map in H as (d & Hd & H).
  destruct (starred_sessions starred d) eqn:E; [destruct H|].
  destruct H as [H|[]]. injection H as -> <-.
  rewrite E. repeat split; [exact Hd|discriminate].
Qed.
Lemma agenda_group_intro (days : list Day) (dom : AgendaDOM) (day : Day) :
  In day days -> starred_sessions starred day <> [] ->
  In (day, day_cards day)
     (agenda_list (renderAgenda (Some days) starred dom)).
Proof.
  intros Hd N. cbn [renderAgenda agenda_list].
  rewrite (proj1 (renderAgenda_loop days _)). cbn [loop_groups app].
  apply in_flat_map. exists day. split; [exact Hd|].
  destruct (starred_sessions starred day); [easy|]. now left.
Qed.

Lemma day_cards_sessions (day : Day) :
  map card_session (day_cards day) = day_sorted day.
Proof. rewrite map_map. cbn. apply map_id. Qed.

Lemma day_sorted_in (day : Day) (s : Session) :
  In s (day_sorted day) <->
  In s (sessions day)
  /\ JSSet.has sameValueZero starred (JStr (session_id s)) = true.
Proof.
  split.
  - intros H. apply (Permutation_in s (sort_with_perm by_start _)) in H.
    now apply filter_In in H.
  - intros H.
    apply (Permutation_in s (Permutation_sym (sort_with_perm by_start _))).
    now apply filter_In.
Qed.
End AgendaFacts.

Lemma starred_sessions_NoDup (starred : list json) (day : Day) :
  NoDup (map session_id (sessions day)) ->
  NoDup (map session_id (starred_sessions starred day)).
Proof.
  unfold starred_sessions. generalize (sessions day) as l.
  induction l as [|a l IH]; cbn [filter map]; intros H; [constructor|].
  inversion_clear H as [|? ? N H'].
  destruct (JSSet.has sameValueZero starred (JStr (session_id a)));
    cbn [map]; [|auto].
  constructor; [|auto]. intros I. apply N.
  apply in_map_iff in I as (x & E & I). apply filter_In in I as [I _].
  rewrite <- E. now apply in_map.
Qed.

Lemma perm_two {A} (l : list A) (a b : A) :
  In a l -> In b l -> a <> b -> exists rest, Permutation l (a :: b :: rest).
Proof.
  intros Ia Ib N. apply in_split in Ia as (l1 & l2 & ->).
  assert (I : In b (l1 ++ l2)).
  { apply in_app_or in Ib as [I|[E|I]]; [| |]; try (apply in_or_app; auto).
    now destruct N. }
  apply in_split in I as (m1 & m2 & E).
  exists (m1 ++ m2).
  apply perm_trans with (a :: l1 ++ l2);
    [apply Permutation_sym, Permutation_middle|].
  apply perm_skip. rewrite E. apply Permutation_sym, Permutation_middle.
Qed.

Lemma StronglySorted_map {A B} (f : A -> B) (R : B -> B -> Prop) (l : list A) :
  StronglySorted (fun a b => R (f a) (f b)) l -> StronglySorted R (map f l).
Proof.
  induction 1 as [|a l S IH F]; cbn [map]; constructor; [exact IH|].
  now apply Forall_map.
Qed.

(** X7: the agenda shows one group for every day that has a starred
    session, in the order of the program; the cards of a group are the
    starred sessions of its day, each once, all with the class
    [starred]. *)
Theorem renderAgenda_groups (days : list Day) (starred : list json)
    (dom : AgendaDOM) :
  let view := renderAgenda (Some days) starred dom in
  map fst (agenda_list view)
  = filter (fun day => negb (is_empty (starred_sessions starred day))) days
  /\ forall day cards,
       In (day, cards) (agenda_list view) ->
       Permutation (map card_session cards) (starred_sessions starred day)
       /\ Forall (fun c => card_starred c = true) cards.
Proof.
  cbv zeta. split.
  - cbn [renderAgenda agenda_list].
    rewrite (proj1 (renderAgenda_loop starred days _)). cbn [loop_groups app].
    induction days as [|day days IH]; [reflexivity|].
    cbn [flat_map filter]. rewrite map_app, IH.
    now destruct (starred_sessions starred day).
  - intros day cards H.
    apply agenda_group_inv in H as (_ & _ & ->). split.
    + rewrite day_cards_sessions. apply sort_with_perm.
    + apply Forall_map, Forall_forall. intros s I.
      now apply day_sorted_in in I as [_ I].
Qed.

(** X8: when no start time of a starred session of the day is [NaN],
    the cards of the group stand in the order of their start times: every
    card starts no later than every card behind it; a start time that is
    missing or not read counts as 0. *)
Theorem renderAgenda_sorted (days : list Day) (starred : list json)
    (dom : AgendaDOM) (day : Day) (cards : list Card) :
  In (day, cards) (agenda_list (renderAgenda (Some days) starred dom)) ->
  (forall s, In s (starred_sessions starred day) ->
             isNaN (start_key s) = false) ->
  StronglySorted
    (fun c1 c2 =>
       num_leb (start_key (card_session c1)) (start_key (card_session c2))
       = true)
    cards.
Proof.
  intros H N. apply agenda_group_inv in H as (_ & _ & ->).
  apply StronglySorted_map. cbn [card_session buildSessionCard].
  apply sort_with_sorted
    with (P := fun s => isNaN (start_key s) = false).
  - intros x y z. apply num_leb_trans.
  - intros x y _ _. rewrite sorts_before_by_start. apply num_ltb_leb.
  - intros x y Px Py. rewrite sorts_before_by_start.
    now apply num_leb_total.
  - apply Forall_forall. exact N.
Qed.

Lemma renderAgenda_sorted_witness :
  StronglySorted
    (fun c1 c2 =>
       num_leb (start_key (card_session c1)) (start_key (card_session c2))
       = true)
    (map (fun p => buildSessionCard [JStr (js "C"); JStr (js "A")]
                     (fst p) (snd p))
         [(sessionA, false); (sessionC, false)]).
Proof.
  apply (renderAgenda_sorted [monday] [JStr (js "C"); JStr (js "A")]
           {| agenda_list := []; agenda_empty_hidden := false;
              conflict_badge_hidden := true |} monday).
  - left. vm_compute. reflexivity.
  - intros s H. vm_compute in H.
    destruct H as [<-|[<-|[]]]; vm_compute; reflexivity.
Defined.

(** X9: in a day whose sessions have distinct identifiers, a card
    carries the class [conflict] exactly when its session overlaps
    another starred session of the same day. *)
Theorem renderAgenda_conflict (days : list Day) (starred : list json)
    (dom : AgendaDOM) (day : Day) (cards : list Card) (c : Card) :
  NoDup (map session_id (sessions day)) ->
  In (day, cards) (agenda_list (renderAgenda (Some days) starred dom)) ->
  In c cards ->
  (card_conflict c = true <->
   exists t, In t (starred_sessions starred day) /\ t <> card_session c
             /\ overlaps (card_session c) t = true).
Proof.
  intros Hnd H Hc. apply agenda_group_inv in H as (_ & _ & ->).
  apply in_map_iff in Hc as (s & <- & Hs). cbn [card_conflict card_session].
  set (sorted := sort_with by_start (starred_sessions starred day)) in *.
  assert (P : Permutation sorted (starred_sessions starred day))
    by apply sort_with_perm.
  assert (Hnd' : NoDup (map session_id sorted)).
  { apply (Permutation_NoDup (Permutation_sym (Permutation_map _ P))).
    now apply starred_sessions_NoDup. }
  cbn [card_conflict card_session buildSessionCard].
  rewrite has_str_in, findConflicts_iff. split.
  - intros (a & b & rest & Q & Ho & E).
    assert (Ia : In a sorted).
    { apply (Permutation_in a (Permutation_sym Q)). now left. }
    assert (Ib : In b sorted).
    { apply (Permutation_in b (Permutation_sym Q)). right. now left. }
    apply (same_id_same_session sorted s a Hnd' Hs Ia) in E. subst a.
    exists b. split; [now apply (Permutation_in b P)|]. split; [|exact Ho].
    intros ->.
    pose proof (Permutation_NoDup (Permutation_map session_id Q) Hnd') as N.
    cbn [map] in N. inversion_clear N as [|? ? N' _]. apply N'. now left.
  - intros (t & It & Nt & Ho).
    apply (Permutation_in t (Permutation_sym P)) in It.
    destruct (perm_two sorted s t Hs It) as [rest Q]; [congruence|].
    now exists s, t, rest.
Qed.

Lemma renderAgenda_conflict_witness :
  card_conflict (buildSessionCard (map JStr [js "A"; js "B"; js "C"])
                   sessionA true) = true <->
  exists t, In t (starred_sessions (map JStr [js "A"; js "B"; js "C"]) monday)
            /\ t <> sessionA /\ overlaps sessionA t = true.
Proof.
  apply (renderAgenda_conflict [monday] (map JStr [js "A"; js "B"; js "C"])
           {| agenda_list := []; agenda_empty_hidden := false;
              conflict_badge_hidden := true |} monday
           (map (fun p => buildSessionCard (map JStr [js "A"; js "B"; js "C"])
                            (fst p) (snd p))
                [(sessionA, true); (sessionB, true); (sessionC, false)])).
  - repeat constructor; simpl; intuition discriminate.
  - left. reflexivity.
  - left. reflexivity.
Defined.

(** X10: [renderAgenda] hides the empty-agenda message exactly when some
    day has a starred session, and shows the conflict badge exactly when
    some card of the view has the class [conflict]; before the program
    is loaded it empties the list and leaves both as they are. *)
Theorem renderAgenda_flags (days : list Day) (starred : list json)
    (dom : AgendaDOM) :
  let view := renderAgenda (Some days) starred dom in
  (agenda_empty_hidden view = true <->
   exists day, In day days /\ starred_sessions starred day <> [])
  /\ (conflict_badge_hidden view = false <->
      exists day cards c,
        In (day, cards) (agenda_list view) /\ In c cards
        /\ card_conflict c = true)
  /\ renderAgenda None starred dom
     = {| agenda_list := [];
          agenda_empty_hidden := agenda_empty_hidden dom;
          conflict_badge_hidden := conflict_badge_hidden dom |}.
Proof.
  cbv zeta. split; [|split; [|reflexivity]].
  - cbn [renderAgenda agenda_empty_hidden].
    rewrite (proj1 (proj2 (renderAgenda_loop starred days _))).
    cbn [hasAny orb]. rewrite existsb_exists.
    split; intros (day & Hd & H); exists day; (split; [exact Hd|]).
    + now destruct (starred_sessions starred day).
    + now destruct (starred_sessions starred day).
  - split.
    + cbn [renderAgenda conflict_badge_hidden]. intros H.
      apply negb_false_iff in H.
      rewrite (proj2 (proj2 (renderAgenda_loop starred days _))) in H.
      cbn [hasConflicts orb] in H.
      apply existsb_exists in H as (day & Hd & H).
      set (sorted := sort_with by_start (starred_sessions starred day)) in *.
      destruct (findConflicts sorted) as [|x l] eqn:E; [discriminate|].
      assert (Hx : In x (findConflicts sorted)) by (rewrite E; now left).
      pose proof Hx as Hx'.
      apply findConflicts_in in Hx' as (a & b & Ia & Ib & _ & Ex).
      assert (exists s, In s sorted /\ x = session_id s) as (s & Is & ->)
        by (destruct Ex; eauto).
      assert (N : starred_sessions starred day <> []).
      { intros N. unfold sorted in Is. now rewrite N in Is. }
      eexists day, _, _. split; [exact (agenda_group_intro starred days dom day Hd N)|].
      split.
      * apply in_map. exact Is.
      * cbn [card_conflict buildSessionCard]. now apply has_str_in.
    + intros (day & cards & c & H & Hc & E).
      pose proof H as H'.
      apply agenda_group_inv in H' as (Hd & _ & ->).
      apply in_map_iff in Hc as (s & <- & Hs).
      cbn [card_conflict buildSessionCard] in E.
      cbn [renderAgenda conflict_badge_hidden]. apply negb_false_iff.
      rewrite (proj2 (proj2 (renderAgenda_loop starred days _))).
      cbn [hasConflicts orb]. apply existsb_exists. exists day.
      split; [exact Hd|].
      apply has_str_in in E. now destruct (findConflicts _).
Qed.

Lemma findConflicts_is_set_witness :
  In (session_id sessionA) (map session_id [sessionA; sessionB; sessionC]).
Proof.
  apply (proj2 (findConflicts_is_set [sessionA; sessionB; sessionC])).
  vm_compute. left. reflexivity.
Defined.

Lemma renderAgenda_groups_witness :
  Permutation
    (map card_session
       (map (fun p => buildSessionCard [JStr (js "C"); JStr (js "A")]
                        (fst p) (snd p))
            [(sessionA, false); (sessionC, false)]))
    (starred_sessions [JStr (js "C"); JStr (js "A")] monday)
  /\ Forall (fun c => card_starred c = true)
       (map (fun p => buildSessionCard [JStr (js "C"); JStr (js "A")]
                        (fst p) (snd p))
            [(sessionA, false); (sessionC, false)]).
Proof.
  apply (proj2 (renderAgenda_groups [monday] [JStr (js "C"); JStr (js "A")]
                  {| agenda_list := []; agenda_empty_hidden := false;
                     conflict_badge_hidden := true |}) monday).
  left. reflexivity.
Defined.

Lemma sort_insert_comm (x y : jsstring) (l : list jsstring) :
  sort_insert (fun s => s) x (sort_insert (fun s => s) y l)
  = sort_insert (fun s => s) y (sort_insert (fun s => s) x l).
Proof.
  induction l as [|z l IH]; cbn [sort_insert].
  - destruct (str_ltb y x) eqn:A, (str_ltb x y) eqn:B; try reflexivity.
    + rewrite (str_ltb_asym _ _ A) in B. discriminate.
    + now rewrite (str_ltb_total x y B A).
  - destruct (str_ltb z y) eqn:Zy, (str_ltb z x) eqn:Zx; cbn [sort_insert];
      rewrite ?Zy, ?Zx.
    + now rewrite IH.
    + now rewrite (str_le_lt_trans x z y Zx Zy).
    + now rewrite (str_le_lt_trans y z x Zy Zx).
    + destruct (str_ltb y x) eqn:A, (str_ltb x y) eqn:B; rewrite ?Zy, ?Zx;
        try reflexivity.
      * rewrite (str_ltb_asym _ _ A) in B. discriminate.
      * now rewrite (str_ltb_total x y B A).
Qed.

(** Sorting strings forgets the order they came in. *)
Lemma sort_by_permutation (l l' : list jsstring) :
  Permutation l l' -> sort_by (fun s => s) l = sort_by (fun s => s) l'.
Proof.
  induction 1 as [|x l l' _ IH|x y l|l l' l'' _ IH1 _ IH2]; cbn [sort_by].
  - reflexivity.
  - now rewrite IH.
  - apply sort_insert_comm.
  - now rewrite IH1.
Qed.

(** ** More on the link *)

(** X11: the link encoding depends on which identifiers are starred, not
    on the order in which they were starred: lists with the same
    members, each as often, encode alike and write the same URL. *)
Theorem encodeStarred_order_independent (l l' : list jsstring) :
  Permutation l l' ->
  encodeStarred (map JStr l) = encodeStarred (map JStr l')
  /\ forall loc, writeHash (map JStr l) loc = writeHash (map JStr l') loc.
Proof.
  intros P.
  assert (E : encodeStarred (map JStr l) = encodeStarred (map JStr l')).
  { unfold encodeStarred. rewrite !Array_sort_strings.
    rewrite (sort_by_permutation l l' P).
    destruct l as [|x l], l' as [|x' l']; try reflexivity.
    - now apply Permutation_nil in P.
    - now apply Permutation_sym, Permutation_nil in P. }
  split; [exact E|]. intros loc. unfold writeHash. rewrite E.
  destruct l as [|x l], l' as [|x' l']; try reflexivity.
  - now apply Permutation_nil in P.
  - now apply Permutation_sym, Permutation_nil in P.
Qed.

Lemma encodeStarred_order_independent_witness :
  encodeStarred (map JStr [js "b"; js "a"])
  = encodeStarred (map JStr [js "a"; js "b"]).
Proof.
  apply (proj1 (encodeStarred_order_independent [js "b"; js "a"]
                  [js "a"; js "b"] (perm_swap _ _ _))).
Defined.

(** X12: the encoding of a non-empty list of strings is not empty and
    consists of letters, digits, [-] and [_] only: it needs no escaping
    in a URL fragment and has no padding. *)
Theorem encodeStarred_url_safe (l : list jsstring) :
  l <> [] -> Forall (Forall code_unit) l ->
  exists encoded,
    encodeStarred (map JStr l) = Normal encoded
    /\ encoded <> []
    /\ Forall b64url_char encoded.
Proof.
  intros N H.
  destruct (encode_decode_strings l N H) as (encoded & E & U & D).
  exists encoded. repeat split; [exact E| |exact U].
  intros ->. cbn in D.
  assert (P := sort_by_perm (fun s : jsstring => s) l).
  destruct (sort_by (fun s => s) l); [|discriminate].
  apply Permutation_nil in P. contradiction.
Qed.

Lemma encodeStarred_url_safe_witness :
  exists encoded,
    encodeStarred (map JStr [js "s1"; js "s2"]) = Normal encoded
    /\ encoded <> []
    /\ Forall b64url_char encoded.
Proof.
  apply encodeStarred_url_safe.
  - discriminate.
  - repeat constructor; unfold code_unit; lia.
Defined.

(** ** Sets of identifier strings *)

Lemma sameValueZero_strings (a b : jsstring) :
  sameValueZero (JStr a) (JStr b) = str_eqb a b.
Proof. reflexivity. Qed.

Lemma has_strings (l : list jsstring) (x : jsstring) :
  JSSet.has sameValueZero (map JStr l) (JStr x) = JSSet.has str_eqb l x.
Proof.
  unfold JSSet.has. induction l as [|y l IH]; [reflexivity|].
  cbn [map existsb]. now rewrite IH, sameValueZero_strings.
Qed.

Lemma not_in_has (l : list jsstring) (x : jsstring) :
  ~ In x l -> JSSet.has str_eqb l x = false.
Proof.
  intros N. destruct (JSSet.has str_eqb l x) eqn:E; [|reflexivity].
  now apply has_str_in in E.
Qed.

Lemma add_strings (l : list jsstring) (x : jsstring) :
  JSSet.add sameValueZero (map JStr l) (JStr x)
  = map JStr (JSSet.add str_eqb l x).
Proof.
  unfold JSSet.add. rewrite has_strings.
  destruct (JSSet.has str_eqb l x); [reflexivity|]. now rewrite map_app.
Qed.

Lemma delete_strings (l : list jsstring) (x : jsstring) :
  JSSet.delete sameValueZero (map JStr l) (JStr x)
  = map JStr (JSSet.delete str_eqb l x).
Proof.
  unfold JSSet.delete. induction l as [|y l IH]; [reflexivity|].
  cbn [map filter]. rewrite IH, sameValueZero_strings.
  now destruct (str_eqb x y).
Qed.

Lemma from_strings_acc (l : list jsstring) :
  forall acc,
    fold_left (JSSet.add sameValueZero) (map JStr l) (map JStr acc)
    = map JStr (fold_left (JSSet.add str_eqb) l acc).
Proof.
  induction l as [|x l IH]; intros acc; [reflexivity|].
  cbn [map fold_left]. now rewrite add_strings, IH.
Qed.

Lemma from_NoDup_acc (l : list jsstring) :
  forall acc, NoDup (acc ++ l) ->
              fold_left (JSSet.add str_eqb) l acc = acc ++ l.
Proof.
  induction l as [|x l IH]; intros acc H; cbn [fold_left].
  - now rewrite app_nil_r.
  - unfold JSSet.add at 2. rewrite not_in_has.
    + rewrite IH; rewrite <- app_assoc; [reflexivity|exact H].
    + apply NoDup_remove_2 in H. intros I. apply H. apply in_or_app. now left.
Qed.

(** [new Set] of a list of distinct strings keeps the list. *)
Lemma from_strings (l : list jsstring) :
  NoDup l -> JSSet.from sameValueZero (map JStr l) = map JStr l.
Proof.
  intros H. unfold JSSet.from.
  change (@nil json) with (map JStr []).
  rewrite (from_strings_acc l []). now rewrite (from_NoDup_acc l []).
Qed.

Lemma delete_str_NoDup (l : list jsstring) (x : jsstring) :
  NoDup l -> NoDup (JSSet.delete str_eqb l x) /\ ~ In x (JSSet.delete str_eqb l x).
Proof.
  intros H. unfold JSSet.delete. split.
  - now apply NoDup_filter.
  - intros I. apply filter_In in I as [_ I]. now rewrite str_eqb_refl in I.
Qed.

(** ** The lookup of the link parameter *)

Lemma split_no_sep (sep : Z) (s : jsstring) :
  ~ In sep s -> split sep s = [s].
Proof.
  induction s as [|c r IH]; intros N; [reflexivity|].
  cbn [split]. destruct (Z.eqb_spec c sep) as [->|_].
  - destruct N. now left.
  - rewrite IH; [reflexivity|]. intros I. apply N. now right.
Qed.

Lemma strip_prefix_app (p s : jsstring) : strip_prefix p (p ++ s) = Some s.
Proof.
  induction p as [|x p IH]; [reflexivity|].
  cbn [app strip_prefix]. now rewrite Z.eqb_refl.
Qed.

(** The plain lookup finds the parameter that [writeHash] writes. *)
Lemma plain_query_get_param (e : jsstring) :
  Forall b64url_char e ->
  plain_query_get (HASH_PARAM ++ 61 :: e) HASH_PARAM = Some e.
Proof.
  intros H. unfold plain_query_get. rewrite split_no_sep.
  - cbn [filter].
    change (HASH_PARAM ++ 61 :: e) with ((HASH_PARAM ++ [61]) ++ e).
    now rewrite strip_prefix_app.
  - intros [I|[I|I]]; try discriminate.
    rewrite Forall_forall in H. specialize (H _ I).
    unfold b64url_char in H. lia.
Qed.

(** ** Sharing and reloading *)

Lemma persist_location_strings (w : World) (l : list jsstring) :
  starred w = map JStr l -> l <> [] -> Forall (Forall code_unit) l ->
  exists encoded,
    encoded <> [] /\ Forall b64url_char encoded
    /\ decodeStarred encoded = map JStr (sort_by (fun s => s) l)
    /\ hash (location (fst (persist w))) = 35 :: HASH_PARAM ++ 61 :: encoded.
Proof.
  intros E N H.
  destruct (encode_decode_strings l N H) as (encoded & En & U & D).
  exists encoded.
  assert (Ne : encoded <> []).
  { intros ->. cbn in D.
    assert (P := sort_by_perm (fun s : jsstring => s) l).
    destruct (sort_by (fun s => s) l); [|discriminate].
    apply Permutation_nil in P. contradiction. }
  repeat split; try assumption.
  unfold persist, writeHash. rewrite E, En.
  destruct l; [easy|]. reflexivity.
Qed.

Section Sharing.
Variable get : jsstring -> jsstring -> option jsstring.
Hypothesis get_param : forall e,
  Forall b64url_char e -> get (HASH_PARAM ++ 61 :: e) HASH_PARAM = Some e.

Lemma readHashStarred_written (w : World) (l : list jsstring) :
  starred w = map JStr l -> l <> [] -> Forall (Forall code_unit) l ->
  readHashStarred get (location (fst (persist w)))
  = Some (map JStr (sort_by (fun s => s) l)).
Proof.
  intros E N H.
  destruct (persist_location_strings w l E N H) as (e & Ne & U & D & Hh).
  unfold readHashStarred. rewrite Hh. cbn [tl].
  rewrite (get_param e U).
  destruct e; [easy|]. cbn [is_empty app HASH_PARAM js]. now rewrite D.
Qed.

(** X13: the URL that [persist] writes for a non-empty set of strings
    restores the set where it is opened: [readHashStarred] gives the
    identifiers in ascending order, each once, and [init], whatever the
    visitor has stored, ends with exactly these starred and writes them
    to the visitor's storage. *)
Theorem share_link_round_trip (w : World) (l : list jsstring) (st : Storage) :
  starred w = map JStr l -> l <> [] -> NoDup l ->
  Forall (Forall code_unit) l ->
  let shared := location (fst (persist w)) in
  let visitor :=
    init get {| starred := []; location := shared; localStorage := st |} in
  exists ids,
    sorted_unique_of l ids
    /\ readHashStarred get shared = Some (map JStr ids)
    /\ starred visitor = map JStr ids
    /\ localStorage visitor = saveStarredToLS (map JStr ids) st
    /\ forall x,
         JSSet.has sameValueZero (starred visitor) (JStr x)
         = JSSet.has sameValueZero (starred w) (JStr x).
Proof.
  intros E N D H. cbv zeta. exists (sort_by (fun s => s) l).
  split; [now apply sort_by_ascending|].
  pose proof (readHashStarred_written w l E N H) as R.
  assert (P := sort_by_perm (fun s : jsstring => s) l).
  assert (Ns : map JStr (sort_by (fun s => s) l) <> []).
  { destruct (sort_by (fun s => s) l); [|discriminate].
    apply Permutation_nil in P. contradiction. }
  rewrite (init_with_link get
             {| starred := []; location := location (fst (persist w));
                localStorage := st |} _ R Ns).
  cbn [starred localStorage].
  rewrite from_strings
    by (apply (Permutation_NoDup (Permutation_sym P)); exact D).
  repeat split; [exact R|].
  intros x. rewrite E, !has_strings.
  destruct (JSSet.has str_eqb l x) eqn:F.
  - apply has_str_in. apply has_str_in in F.
    now apply (Permutation_in x (Permutation_sym P)).
  - apply not_in_has. intros I. apply (Permutation_in x P) in I.
    apply has_str_in in I. congruence.
Qed.
End Sharing.

Lemma share_link_round_trip_witness :
  let shared :=
    location (fst (persist
      {| starred := map JStr [js "s2"; js "s1"]; location := page;
         localStorage := working None |})) in
  let visitor :=
    init plain_query_get
      {| starred := []; location := shared;
         localStorage := working (Some (jq "['s3']")) |} in
  exists ids,
    sorted_unique_of [js "s2"; js "s1"] ids
    /\ readHashStarred plain_query_get shared = Some (map JStr ids)
    /\ starred visitor = map JStr ids
    /\ localStorage visitor
       = saveStarredToLS (map JStr ids) (working (Some (jq "['s3']")))
    /\ forall x,
         JSSet.has sameValueZero (starred visitor) (JStr x)
         = JSSet.has sameValueZero (map JStr [js "s2"; js "s1"]) (JStr x).
Proof.
  apply (share_link_round_trip plain_query_get plain_query_get_param
           {| starred := map JStr [js "s2"; js "s1"]; location := page;
              localStorage := working None |}
           [js "s2"; js "s1"] (working (Some (jq "['s3']")))).
  - reflexivity.
  - discriminate.
  - repeat constructor; simpl; intuition discriminate.
  - repeat constructor; unfold code_unit; lia.
Defined.

Lemma saveStarredToLS_again (ids : list json) (st : Storage) :
  saveStarredToLS ids (saveStarredToLS ids st) = saveStarredToLS ids st.
Proof.
  unfold saveStarredToLS, setItem.
  destruct (denied st) eqn:D, (full st) eqn:F; cbn; rewrite ?D, ?F;
    reflexivity.
Qed.

Lemma init_location (get : jsstring -> jsstring -> option jsstring) (w : World) :
  location (init get w) = location w.
Proof.
  unfold init. now destruct (readHashStarred get (location w)) as [[|v l]|].
Qed.

(** X14: what [persist] stored comes back when the page is opened
    without a link: for distinct strings and a storage that takes the
    write, [init] ends with the same identifiers in the same order and
    leaves the storage as it is. *)
Theorem reload_from_storage
    (get : jsstring -> jsstring -> option jsstring)
    (w : World) (l : list jsstring) (loc : Location) :
  starred w = map JStr l -> NoDup l -> Forall (Forall code_unit) l ->
  denied (localStorage w) = false -> full (localStorage w) = false ->
  hash loc = [] ->
  let stored := localStorage (fst (persist w)) in
  let reloaded :=
    init get {| starred := []; location := loc; localStorage := stored |} in
  starred reloaded = map JStr l /\ localStorage reloaded = stored.
Proof.
  intros E N H D F Hh. cbv zeta.
  assert (R : readHashStarred get loc = None \/ readHashStarred get loc = Some []).
  { apply readHashStarred_no_set. left. now rewrite Hh. }
  rewrite (init_without_link get
             {| starred := []; location := loc;
                localStorage := localStorage (fst (persist w)) |} R).
  cbn [starred localStorage]. split; [|reflexivity].
  rewrite persist_localStorage, E, storage_round_trip by assumption.
  now apply from_strings.
Qed.

Lemma reload_from_storage_witness :
  starred (init plain_query_get
             {| starred := []; location := page;
                localStorage := localStorage (fst (persist
                  {| starred := map JStr [js "b"; js "a"]; location := page;
                     localStorage := working None |})) |})
  = map JStr [js "b"; js "a"].
Proof.
  apply (reload_from_storage plain_query_get
           {| starred := map JStr [js "b"; js "a"]; location := page;
              localStorage := working None |} [js "b"; js "a"] page);
    try reflexivity.
  - repeat constructor; simpl; intuition discriminate.
  - repeat constructor; unfold code_unit; lia.
Defined.

(** X15: a confirmed [resetAgenda] removes the fragment from the URL,
    and the next [init] ends with nothing starred when the storage took
    the write or is not accessible at all; when the storage only rejects
    writes, the old stored set comes back. *)
Theorem reset_then_reload
    (get : jsstring -> jsstring -> option jsstring) (w : World) :
  let w' := fst (resetAgenda true w) in
  hash (location w') = []
  /\ (full (localStorage w) = false \/ denied (localStorage w) = true ->
      starred (init get w') = [])
  /\ (denied (localStorage w) = false -> full (localStorage w) = true ->
      starred (init get w')
      = JSSet.from sameValueZero (loadStarredFromLS (localStorage w))).
Proof.
  cbv zeta.
  assert (L : location (fst (resetAgenda true w))
              = replaceState_path (location w)) by reflexivity.
  assert (S : localStorage (fst (resetAgenda true w))
              = saveStarredToLS [] (localStorage w)) by reflexivity.
  assert (R : readHashStarred get (location (fst (resetAgenda true w))) = None
              \/ readHashStarred get (location (fst (resetAgenda true w)))
                 = Some []).
  { apply readHashStarred_no_set. left. now rewrite L. }
  rewrite (init_without_link get _ R), L, S. cbn [starred hash replaceState_path].
  split; [reflexivity|]. split.
  - unfold saveStarredToLS, setItem, loadStarredFromLS, getItem.
    destruct (localStorage w) as [d f sl]. cbn [denied full slot].
    destruct d; [reflexivity|]. intros [->|F]; [reflexivity|discriminate].
  - intros D F. unfold saveStarredToLS, setItem. now rewrite D, F.
Qed.

Lemma reset_then_reload_witness :
  starred (init plain_query_get (fst (resetAgenda true shared_link))) = [].
Proof.
  apply (proj1 (proj2 (reset_then_reload plain_query_get shared_link))).
  left. reflexivity.
Defined.

(** X16: two calls of [toggleStar(id)] leave the membership of every
    value as it was, whatever was starred before. *)
Theorem toggleStar_twice_membership (w : World) (id : jsstring) (v : json) :
  JSSet.has sameValueZero
    (starred (fst (toggleStar id (fst (toggleStar id w))))) v
  = JSSet.has sameValueZero (starred w) v.
Proof.
  unfold toggleStar at 1. rewrite persist_starred. cbn [starred].
  unfold toggleStar. rewrite !persist_starred. cbn [starred].
  destruct (JSSet.has sameValueZero (starred w) (JStr id)) eqn:H.
  - rewrite has_delete_same, has_add by apply has_delete_same.
    destruct (sameValueZero v (JStr id)) eqn:E.
    + apply sameValueZero_str_r in E. subst v. rewrite H. apply orb_true_r.
    + rewrite orb_false_r. apply has_delete_other.
      intros ->. now rewrite (proj2 (sameValueZero_str_r id (JStr id)) eq_refl) in E.
  - rewrite has_add by exact H.
    rewrite (proj2 (sameValueZero_str_l id (JStr id)) eq_refl), orb_true_r.
    destruct (sameValueZero v (JStr id)) eqn:E.
    + apply sameValueZero_str_r in E. subst v. now rewrite has_delete_same, H.
    + rewrite has_delete_other, has_add by
        (exact H ||
         (intros ->;
          now rewrite (proj2 (sameValueZero_str_r id (JStr id)) eq_refl) in E)).
      now rewrite E, orb_false_r.
Qed.

(** X17: on a set of distinct strings [toggleStar] keeps the strings
    distinct and keeps their order: a starred identifier is taken out
    from where it stands, another one is put at the end. *)
Theorem toggleStar_order (w : World) (l : list jsstring) (id : jsstring) :
  starred w = map JStr l -> NoDup l ->
  let s' := starred (fst (toggleStar id w)) in
  (In id l -> s' = map JStr (filter (fun y => negb (str_eqb id y)) l))
  /\ (~ In id l -> s' = map JStr (l ++ [id]))
  /\ exists l', s' = map JStr l' /\ NoDup l'.
Proof.
  intros E N. cbv zeta. unfold toggleStar. rewrite persist_starred.
  cbn [starred]. rewrite E, has_strings, delete_strings, add_strings.
  destruct (JSSet.has str_eqb l id) eqn:H.
  - apply has_str_in in H. repeat split; [easy|].
    eexists. split; [reflexivity|]. now apply delete_str_NoDup.
  - assert (Ni : ~ In id l) by (intros I; apply has_str_in in I; congruence).
    unfold JSSet.add. rewrite H. repeat split; [easy|].
    eexists. split; [reflexivity|].
    apply NoDup_app; [exact N|repeat constructor; easy|].
    intros x Ix [<-|[]]. contradiction.
Qed.

Lemma toggleStar_order_witness :
  starred (fst (toggleStar (js "s1")
                  {| starred := map JStr [js "s1"; js "s2"; js "s3"];
                     location := page; localStorage := working None |}))
  = map JStr (filter (fun y => negb (str_eqb (js "s1") y))
                [js "s1"; js "s2"; js "s3"]).
Proof.
  apply (proj1 (toggleStar_order
                  {| starred := map JStr [js "s1"; js "s2"; js "s3"];
                     location := page; localStorage := working None |}
                  [js "s1"; js "s2"; js "s3"] (js "s1") eq_refl
                  ltac:(repeat constructor; simpl; intuition discriminate))).
  left. reflexivity.
Defined.

(** X18: running the reconciliation of [init] again changes nothing. *)
Theorem init_idempotent
    (get : jsstring -> jsstring -> option jsstring) (w : World) :
  init get (init get w) = init get w.
Proof.
  unfold init at 1. rewrite init_location.
  unfold init.
  destruct (readHashStarred get (location w)) as [[|v l]|]; cbn;
    try reflexivity.
  now rewrite saveStarredToLS_again.
Qed.

(** X19: the storage has no part in what [toggleStar] does to the set
    and to the URL, and a storage that rejects the write is left as it
    was. *)
Theorem toggleStar_storage_independent (id : jsstring) (w : World)
    (st : Storage) :
  let w' := fst (toggleStar id w) in
  let v' := fst (toggleStar id {| starred := starred w;
                                  location := location w;
                                  localStorage := st |}) in
  starred v' = starred w' /\ location v' = location w'
  /\ snd (toggleStar id {| starred := starred w; location := location w;
                            localStorage := st |})
     = snd (toggleStar id w)
  /\ (denied (localStorage w) = true \/ full (localStorage w) = true ->
      localStorage w' = localStorage w).
Proof.
  cbv zeta. unfold toggleStar. cbn [starred location localStorage].
  set (s' := if JSSet.has sameValueZero (starred w) (JStr id) then _ else _).
  unfold persist. cbn [starred location localStorage].
  destruct (writeHash s' (location w)); cbn; repeat split;
    intros H; unfold saveStarredToLS, setItem;
    destruct H as [-> | ->]; rewrite ?orb_true_r; reflexivity.
Qed.

Lemma toggleStar_storage_independent_witness :
  localStorage (fst (toggleStar (js "s1")
                  {| starred := []; location := page;
                     localStorage := {| denied := false; full := true;
                                        slot := Some (jq "['s3']") |} |}))
  = {| denied := false; full := true; slot := Some (jq "['s3']") |}.
Proof.
  apply (proj2 (proj2 (proj2 (toggleStar_storage_independent (js "s1")
           {| starred := []; location := page;
              localStorage := {| denied := false; full := true;
                                 slot := Some (jq "['s3']") |} |}
           (working None))))).
  right. reflexivity.
Defined.

(** ** Links in standard base64 *)

Lemma b64_encode_shape (bs : list Z) :
  exists k, (k <= 2)%nat
            /\ b64_encode bs = map b64_char (b64_sextets bs) ++ repeat 61 k
            /\ Z.of_nat (List.length (b64_encode bs)) mod 4 = 0.
Proof.
  induction bs as [|a|a b|a b c r (k & K & E & L)] using list_ind3.
  - exists 0%nat. repeat split. lia.
  - exists 2%nat. repeat split. lia.
  - exists 1%nat. repeat split. lia.
  - exists k. split; [exact K|]. cbn [b64_encode b64_sextets map app].
    rewrite E. split; [reflexivity|].
    rewrite <- E. cbn [List.length]. arith.
Qed.

Lemma replace_all_id (c d : Z) (s : jsstring) :
  Forall (fun x => x <> c) s -> replace_all c d s = s.
Proof.
  induction 1 as [|x s Hx _ IH]; [reflexivity|].
  unfold replace_all in *. cbn [map]. rewrite IH.
  now destruct (Z.eqb_spec x c).
Qed.

Lemma strip_padding_padded (u : jsstring) (k : nat) :
  Forall (fun c => c <> 61) u -> (k <= 2)%nat ->
  Z.of_nat (List.length (u ++ repeat 61 k)) mod 4 = 0 ->
  strip_padding (u ++ repeat 61 k) = u.
Proof.
  intros U K L. unfold strip_padding. rewrite L. cbn [Z.eqb].
  rewrite rev_app_distr, rev_repeat.
  assert (Eu : rev (rev u) = u) by apply rev_involutive.
  destruct (rev u) as [|c r] eqn:R.
  - cbn in Eu. subst u.
    destruct k as [|[|[|k]]]; [reflexivity..|lia].
  - assert (Hc : c <> 61).
    { rewrite Forall_forall in U. apply U. rewrite <- Eu.
      apply -> in_rev. now left. }
    destruct k as [|[|[|k]]]; [| | |lia]; cbn [repeat app].
    + destruct (Z.eqb_spec c 61); [easy|]. apply app_nil_r.
    + change (61 =? 61) with true. cbv iota.
      destruct (Z.eqb_spec c 61); [easy|exact Eu].
    + change (61 =? 61) with true. cbv iota. exact Eu.
Qed.

(** [atob] of what [btoa] wrote, padding and all. *)
Lemma atob_btoa (bs : list Z) :
  Forall byte bs -> atob (b64_encode bs) = Normal bs.
Proof.
  intros Hb. destruct (b64_encode_shape bs) as (k & K & E & L).
  pose proof (b64_sextets_range bs Hb) as R.
  assert (A : Forall (fun c => 48 <= c <= 57 \/ 65 <= c <= 90
                        \/ 97 <= c <= 122 \/ c = 43 \/ c = 47)
                (map b64_char (b64_sextets bs))).
  { apply Forall_map. revert R. apply Forall_impl.
    intros i Hi. exact (b64_char_alphabet i Hi). }
  unfold atob.
  assert (F : filter (fun c => negb (is_ascii_whitespace c)) (b64_encode bs)
              = b64_encode bs).
  { rewrite E, filter_app. f_equal.
    - clear E L. induction A as [|c r Hc _ IH]; [reflexivity|].
      cbn [filter]. rewrite IH. unfold is_ascii_whitespace.
      conds; reflexivity.
    - clear. induction k as [|k IH]; [reflexivity|].
      cbn [repeat filter]. now rewrite IH. }
  rewrite F. rewrite E in L |- *.
  rewrite strip_padding_padded; [|revert A; apply Forall_impl; lia|exact K|exact L].
  rewrite length_map.
  destruct (Z.eqb_spec (Z.of_nat (List.length (b64_sextets bs)) mod 4) 1) as [X|_];
    [now apply b64_sextets_length in X|].
  rewrite b64_indices_chars by exact R.
  now rewrite b64_bytes_sextets.
Qed.

(** X20: [decodeStarred] also reads the standard base64 text, with [+],
    [/] and padding, of the UTF-8 bytes of a JSON array of strings, and
    returns the array in the order of the text. *)
Theorem decodeStarred_standard_base64 (l : list jsstring) :
  Forall (Forall code_unit) l ->
  exists bytes b64,
    utf8_encode (JSON_stringify (JArr (map JStr l))) = Normal bytes
    /\ btoa bytes = Normal b64
    /\ decodeStarred b64 = map JStr l.
Proof.
  intros H.
  destruct (utf8_round_trip _ (JSON_stringify_strings_wf16 l H))
    as (bs & He & Hb & Hd).
  exists bs, (b64_encode bs). split; [exact He|].
  split; [exact (proj1 (base64url_round_trip bs Hb))|].
  unfold decodeStarred.
  assert (Nb : bs <> []).
  { intros ->. rewrite JSON_stringify_strings in He. cbn in He.
    destruct (utf8_encode _); discriminate. }
  destruct (b64_encode bs) as [|c e] eqn:E.
  { destruct bs as [|a [|b [|c r]]]; [easy|discriminate..]. }
  cbn [is_empty]. rewrite <- E.
  destruct (b64_encode_shape bs) as (k & K & Es & _).
  assert (A : Forall (fun x => x <> 45 /\ x <> 95) (b64_encode bs)).
  { rewrite Es. apply Forall_app. split.
    - apply Forall_map. pose proof (b64_sextets_range bs Hb) as R.
      revert R. apply Forall_impl. intros i Hi.
      pose proof (b64_char_alphabet i Hi) as B. cbv zeta in B. lia.
    - clear. induction k; cbn; constructor; [lia|assumption]. }
  rewrite (replace_all_id 45 43)
    by (revert A; apply Forall_impl; intros x [X _]; exact X).
  rewrite (replace_all_id 95 47)
    by (revert A; apply Forall_impl; intros x [_ X]; exact X).
  rewrite atob_btoa by exact Hb. cbn [bind]. rewrite Hd. cbn [bind].
  rewrite JSON_parse_stringify_strings by exact H. reflexivity.
Qed.

Lemma decodeStarred_standard_base64_witness :
  exists bytes b64,
    utf8_encode (JSON_stringify (JArr (map JStr [js "b"; js "a"])))
    = Normal bytes
    /\ btoa bytes = Normal b64
    /\ decodeStarred b64 = map JStr [js "b"; js "a"].
Proof.
  apply decodeStarred_standard_base64.
  repeat constructor; unfold code_unit; lia.
Defined.


(** ** The browse view *)

Lemma filter_map_commute {A B} (f : A -> B) (p : B -> bool) (l : list A) :
  map f (filter (fun a => p (f a)) l) = filter p (map f l).
Proof.
  induction l as [|a l IH]; [reflexivity|].
  cbn [filter map]. destruct (p (f a)); cbn [map]; now rewrite IH.
Qed.

Section BrowseFacts.
Variable toLowerCase : jsstring -> jsstring.
Variable starred : list json.
Variable ctl : BrowseControls.
Variable q : jsstring.

#[warnings="-notation-for-abbreviation"]
Local Notation shown day := (filter (browse_filter toLowerCase starred ctl q)
                               (entries day)).
#[warnings="-notation-for-abbreviation"]
Local Notation browse_group day :=
  (if negb (is_empty (browseDay ctl))
      && negb (str_eqb (browse_day_id day) (browseDay ctl))
   then []
   else match shown day with
        | [] => []
        | _ :: _ =>
            [(day, map (fun s => (s, buildSessionCard starred
                                       (entry_session s) false))
                       (shown day))]
        end).

Lemma renderBrowse_loop (days : list BrowseDay) :
  forall st,
    browse_groups (fold_left (renderBrowse_day toLowerCase starred ctl q) days st)
    = browse_groups st ++ flat_map (fun day => browse_group day) days
    /\ totalShown (fold_left (renderBrowse_day toLowerCase starred ctl q) days st)
       = totalShown st
         + Z.of_nat (List.length
                       (flat_map (fun day => flat_map snd (browse_group day))
                                 days)).
Proof.
  induction days as [|day days IH]; intros st; cbn [fold_left flat_map].
  - rewrite app_nil_r. cbn. split; [reflexivity|lia].
  - destruct (IH (renderBrowse_day toLowerCase starred ctl q st day)) as [G T].
    rewrite G, T. clear IH G T. unfold renderBrowse_day.
    destruct (negb (is_empty (browseDay ctl))
              && negb (str_eqb (browse_day_id day) (browseDay ctl))).
    + cbn [app]. split; reflexivity.
    + destruct (shown day) as [|e l] eqn:E; cbn [is_empty].
      * cbn [app flat_map]. split; reflexivity.
      * cbn [browse_groups totalShown]. split.
        -- now rewrite <- app_assoc.
        -- cbn [flat_map snd]. rewrite app_nil_r, !length_app, length_map.
           lia.
Qed.
Lemma browse_group_in (days : list BrowseDay) day cards :
  In (day, cards) (flat_map (fun day => browse_group day) days) ->
  In day days
  /\ (browseDay ctl = [] \/ browse_day_id day = browseDay ctl)
  /\ shown day <> []
  /\ cards = map (fun s => (s, buildSessionCard starred (entry_session s) false))
                 (shown day).
Proof.
  intros H. apply in_flat_map in H as (d & I & H).
  destruct (is_empty (browseDay ctl)) eqn:B;
    [|destruct (str_eqb (browse_day_id d) (browseDay ctl)) eqn:N];
    cbn [negb andb] in H; try now destruct H.
  - destruct (shown d) as [|e l] eqn:E; [destruct H|].
    destruct H as [H|[]]. injection H as -> <-.
    destruct (browseDay ctl); [|discriminate B].
    rewrite E. repeat split; auto. discriminate.
  - destruct (shown d) as [|e l] eqn:E; [destruct H|].
    destruct H as [H|[]]. injection H as -> <-.
    apply str_eqb_eq in N.
    rewrite E. repeat split; auto. discriminate.
Qed.

Lemma browse_group_cards (days : list BrowseDay) :
  flat_map snd (flat_map (fun day => browse_group day) days)
  = flat_map (fun day => flat_map snd (browse_group day)) days.
Proof.
  induction days as [|day days IH]; [reflexivity|].
  cbn [flat_map]. now rewrite flat_map_app, IH.
Qed.
End BrowseFacts.

(** X21: with an empty search text, no day chosen and the starred
    filter off, the browse view shows every session of every day that
    has one, in the order of the program, and counts them all. *)
Theorem renderBrowse_unfiltered
    (toLowerCase : jsstring -> jsstring) (days : list BrowseDay)
    (starred : list json) (ctl : BrowseControls) (dom : BrowseDOM) :
  trim (toLowerCase (browseQuery ctl)) = [] ->
  browseDay ctl = [] -> browseStarred ctl = false ->
  let view := renderBrowse toLowerCase (Some days) starred ctl dom in
  let n := Z.of_nat (List.length (flat_map entries days)) in
  map (fun g => (fst g, map fst (snd g))) (browse_list view)
  = map (fun day => (day, entries day))
        (filter (fun day => negb (is_empty (entries day))) days)
  /\ session_count view
     = Number_toString (of_Z n) ++ js " session"
       ++ (if n =? 1 then [] else js "s").
Proof.
  intros Q D S. cbv zeta. unfold renderBrowse. rewrite Q.
  cbn [browse_list session_count].
  destruct (renderBrowse_loop toLowerCase starred ctl [] days
              {| browse_groups := []; totalShown := 0 |}) as [G T].
  rewrite G, T. cbn [browse_groups totalShown app]. rewrite D.
  cbn [is_empty negb andb].
  assert (F : forall day,
             filter (browse_filter toLowerCase starred ctl []) (entries day)
             = entries day).
  { intros day. induction (entries day) as [|e l IH]; [reflexivity|].
    cbn [filter]. unfold browse_filter at 1. rewrite S. cbn. now rewrite IH. }
  assert (E1 : forall l : list BrowseDay,
    map (fun g : BrowseDay * list (Entry * Card) => (fst g, map fst (snd g)))
      (flat_map
         (fun day =>
            match filter (browse_filter toLowerCase starred ctl []) (entries day) with
            | [] => []
            | _ :: _ =>
                [(day,
                  map (fun s => (s, buildSessionCard starred (entry_session s) false))
                    (filter (browse_filter toLowerCase starred ctl []) (entries day)))]
            end) l)
    = map (fun day => (day, entries day))
        (filter (fun day => negb (is_empty (entries day))) l)).
  { induction l as [|day l IH]; [reflexivity|].
    cbn [flat_map filter]. rewrite map_app, IH, F.
    destruct (entries day) as [|e es] eqn:E; [reflexivity|].
    cbn [is_empty negb map app fst snd]. rewrite map_map. cbn [fst].
    now rewrite map_id, E. }
  assert (E2 : forall l : list BrowseDay,
    List.length
      (flat_map
         (fun day =>
            flat_map snd
              match filter (browse_filter toLowerCase starred ctl []) (entries day) with
              | [] => []
              | _ :: _ =>
                  [(day,
                    map (fun s => (s, buildSessionCard starred (entry_session s) false))
                      (filter (browse_filter toLowerCase starred ctl []) (entries day)))]
              end) l)
    = List.length (flat_map entries l)).
  { induction l as [|day l IH]; [reflexivity|].
    cbn [flat_map]. rewrite !length_app, IH, F.
    destruct (entries day) as [|e es] eqn:E; [reflexivity|].
    cbn [flat_map snd]. now rewrite app_nil_r, length_map. }
  split; [apply E1|]. rewrite E2. reflexivity.
Qed.

Lemma renderBrowse_unfiltered_witness :
  session_count
    (renderBrowse ascii_lower (Some [browse_monday]) []
       {| browseQuery := js "  "; browseDay := []; browseStarred := false |}
       {| browse_list := []; session_count := [] |})
  = js "4 sessions".
Proof.
  apply (proj2 (renderBrowse_unfiltered ascii_lower [browse_monday] []
                  {| browseQuery := js "  "; browseDay := [];
                     browseStarred := false |}
                  {| browse_list := []; session_count := [] |}
                  eq_refl eq_refl eq_refl)).
Defined.

(** X22: with an empty search text, no day chosen and the starred
    filter on, the browse view shows the days that the agenda view
    shows, in the same order, and under each day the starred sessions of
    that day in the order of the program, all with the class [starred]
    and none with the class [conflict]. *)
Theorem renderBrowse_starred_agrees_with_agenda
    (toLowerCase : jsstring -> jsstring) (days : list BrowseDay)
    (starred : list json) (ctl : BrowseControls)
    (dom : BrowseDOM) (adom : AgendaDOM) :
  trim (toLowerCase (browseQuery ctl)) = [] ->
  browseDay ctl = [] -> browseStarred ctl = true ->
  let view := renderBrowse toLowerCase (Some days) starred ctl dom in
  let agenda := renderAgenda (Some (map agenda_day days)) starred adom in
  map (fun g => agenda_day (fst g)) (browse_list view)
  = map fst (agenda_list agenda)
  /\ forall day cards,
       In (day, cards) (browse_list view) ->
       map (fun c => entry_session (fst c)) cards
       = starred_sessions starred (agenda_day day)
       /\ Forall (fun c => card_starred (snd c) = true
                           /\ card_conflict (snd c) = false) cards.
Proof.
  intros Q D S. cbv zeta. unfold renderBrowse. rewrite Q.
  cbn [browse_list renderAgenda agenda_list].
  rewrite (proj1 (renderBrowse_loop toLowerCase starred ctl [] days _)).
  rewrite (proj1 (renderAgenda_loop starred (map agenda_day days) _)).
  cbn [browse_groups loop_groups app]. rewrite D. cbn [is_empty negb andb].
  assert (F : forall day,
             filter (browse_filter toLowerCase starred ctl []) (entries day)
             = filter (fun e => JSSet.has sameValueZero starred
                                  (JStr (session_id (entry_session e))))
                      (entries day)).
  { intros day. apply filter_ext. intros e. unfold browse_filter. rewrite S.
    cbn. now destruct (JSSet.has sameValueZero starred _). }
  assert (M : forall day,
             map entry_session
               (filter (browse_filter toLowerCase starred ctl []) (entries day))
             = starred_sessions starred (agenda_day day)).
  { intros day. rewrite F. unfold starred_sessions, agenda_day. cbn [sessions].
    apply (filter_map_commute entry_session
             (fun s => JSSet.has sameValueZero starred (JStr (session_id s)))). }
  split.
  - induction days as [|day days IH]; [reflexivity|].
    cbn [flat_map map]. rewrite !map_app, IH. f_equal.
    rewrite <- M.
    now destruct (filter (browse_filter toLowerCase starred ctl []) (entries day)).
  - intros day cards H. apply in_flat_map in H as (d & _ & H).
    destruct (filter (browse_filter toLowerCase starred ctl []) (entries d))
      as [|e l] eqn:E; [destruct H|].
    destruct H as [H|[]]. injection H as -> <-. split.
    + rewrite <- M, E. cbn [map fst]. now rewrite map_map.
    + apply Forall_forall. intros [x c] I.
      change (In (x, c)
                (map (fun s => (s, buildSessionCard starred
                                     (entry_session s) false)) (e :: l))) in I.
      apply in_map_iff in I as (y & Y & I). injection Y as -> <-.
      cbn [snd buildSessionCard card_starred card_conflict].
      split; [|reflexivity].
      rewrite <- E, F in I. now apply filter_In in I as [_ I].
Qed.

Lemma renderBrowse_starred_agrees_with_agenda_witness :
  map (fun g => agenda_day (fst g))
    (browse_list
       (renderBrowse ascii_lower (Some [browse_monday]) [JStr (js "A")]
          {| browseQuery := []; browseDay := []; browseStarred := true |}
          {| browse_list := []; session_count := [] |}))
  = map fst
      (agenda_list
         (renderAgenda (Some (map agenda_day [browse_monday]))
            [JStr (js "A")]
            {| agenda_list := []; agenda_empty_hidden := false;
               conflict_badge_hidden := true |})).
Proof.
  apply (proj1 (renderBrowse_starred_agrees_with_agenda ascii_lower
                  [browse_monday] [JStr (js "A")]
                  {| browseQuery := []; browseDay := [];
                     browseStarred := true |}
                  {| browse_list := []; session_count := [] |}
                  {| agenda_list := []; agenda_empty_hidden := false;
                     conflict_badge_hidden := true |}
                  eq_refl eq_refl eq_refl)).
Defined.

(** X23: whatever the search text and the filters are, the text of the
    session counter is the number of cards that the browse view shows,
    followed by [session] for one card and by [sessions] otherwise. *)
Theorem renderBrowse_count
    (toLowerCase : jsstring -> jsstring) (days : list BrowseDay)
    (starred : list json) (ctl : BrowseControls) (dom : BrowseDOM) :
  let view := renderBrowse toLowerCase (Some days) starred ctl dom in
  let n := Z.of_nat (List.length (flat_map snd (browse_list view))) in
  session_count view
  = Number_toString (of_Z n) ++ js " session"
    ++ (if n =? 1 then [] else js "s").
Proof.
  cbv zeta. unfold renderBrowse. cbn [browse_list session_count].
  destruct (renderBrowse_loop toLowerCase starred ctl
              (trim (toLowerCase (browseQuery ctl))) days
              {| browse_groups := []; totalShown := 0 |}) as [G T].
  rewrite G, T. cbn [browse_groups totalShown app].
  rewrite browse_group_cards. reflexivity.
Qed.

(** X24: when a day is chosen in the browse view, every group shown
    belongs to a day of the program with the chosen identifier, and no
    group is shown without a card. *)
Theorem renderBrowse_day_selection
    (toLowerCase : jsstring -> jsstring) (days : list BrowseDay)
    (starred : list json) (ctl : BrowseControls) (dom : BrowseDOM)
    (day : BrowseDay) (cards : list (Entry * Card)) :
  browseDay ctl <> [] ->
  In (day, cards)
     (browse_list (renderBrowse toLowerCase (Some days) starred ctl dom)) ->
  In day days /\ browse_day_id day = browseDay ctl /\ cards <> [].
Proof.
  intros B. unfold renderBrowse. cbn [browse_list].
  rewrite (proj1 (renderBrowse_loop toLowerCase starred ctl _ days _)).
  cbn [browse_groups app]. intros H.
  apply browse_group_in in H as (I & [D|D] & N & ->); [contradiction|].
  repeat split; auto. intros E. apply map_eq_nil in E. contradiction.
Qed.

Lemma renderBrowse_day_selection_witness :
  In browse_monday [browse_monday]
  /\ browse_day_id browse_monday = js "mon"
  /\ [(entry sessionB "Fuzzing", buildSessionCard [] sessionB false)] <> [].
Proof.
  apply (renderBrowse_day_selection ascii_lower [browse_monday] []
           {| browseQuery := js "Fuzz"; browseDay := js "mon";
              browseStarred := false |}
           {| browse_list := []; session_count := [] |}).
  - discriminate.
  - left. vm_compute. reflexivity.
Defined.
